(** * Solana-Address-Poisoning: the correlator, the rate limiter, target
      resolution and the dispatcher of [src/modules/generation.js] and
      [src/modules/transaction.js], embedded as Rocq functions.

    Conventions of the embedding.
    - A JS string that holds a base58 public key is a [string]; [===] on
      strings is [String.eqb].
    - A JS number is a rational [Q]; a count of lamports, a millisecond
      clock reading or an integer setting is a [Z] (they stay far below
      2 to the 53, where a double holds every integer).  The arithmetic
      of the rate limiter, the lamport amount of a transfer and the funding
      of the dispatch wallet are computed as JS computes them, each
      operation rounded to the nearest double ([Double]); a setting is
      the decimal number written in [settings.js], and is rounded to the
      double JS holds where the code multiplies it.  A balance converted
      from lamports to SOL is kept as the exact quotient, and the
      comparisons the code makes with it are taken on that quotient.
    - A JS [Map] or [Set] iterated in insertion order is a [list] in that
      order; [Set.add] of a fresh object appends.
    - An RPC call is a field of a [Ledger] record read at the time of the
      call; a rejected RPC rejects the whole async function and is outside
      the functions below. *)

From Stdlib Require Import List String Ascii Bool Arith ZArith QArith Qminmax
  Qround Qpower Qabs Lia Lqa Floats.
Import ListNotations.

(** ** The JavaScript built-ins the modules use *)

Module JS.

(** [relativeIndex len i]: how [Array.prototype.slice] and
    [String.prototype.slice] resolve an index against a length. *)
Definition relativeIndex (len i : Z) : Z :=
  if (i <? 0)%Z then Z.max (len + i) 0 else Z.min i len.

(** [l.slice(b, e)]; [e = None] is the one-argument call. *)
Definition slice {A : Type} (l : list A) (b : Z) (e : option Z) : list A :=
  let len := Z.of_nat (List.length l) in
  let k := relativeIndex len b in
  let final := match e with
               | None => len
               | Some e' => relativeIndex len e'
               end in
  firstn (Z.to_nat (final - k)) (skipn (Z.to_nat k) l).

(** [s.slice(b, e)] on a string. *)
Definition strSlice (s : string) (b : Z) (e : option Z) : string :=
  string_of_list_ascii (slice (list_ascii_of_string s) b e).

(** [s.split('')] and the spread [[...s]]. *)
Definition chars (s : string) : list ascii := list_ascii_of_string s.

(** [char === arr[index]]: an index out of range reads [undefined], which is
    never equal to a character. *)
Definition eqAt (char : ascii) (arr : list ascii) (index : nat) : bool :=
  match nth_error arr index with
  | Some c => Ascii.eqb char c
  | None => false
  end.

(** [l.filter((x, index) => p x index)], the index starting at [i]. *)
Fixpoint filterFrom {A : Type} (p : A -> nat -> bool) (i : nat) (l : list A)
  : list A :=
  match l with
  | [] => []
  | x :: l' => if p x i then x :: filterFrom p (S i) l'
               else filterFrom p (S i) l'
  end.

Definition filteri {A : Type} (p : A -> nat -> bool) (l : list A) : list A :=
  filterFrom p 0 l.

(** [l.map((x, index) => f index x)], the index starting at [i]. *)
Fixpoint mapFrom {A B : Type} (f : nat -> A -> B) (i : nat) (l : list A)
  : list B :=
  match l with
  | [] => []
  | x :: l' => f i x :: mapFrom f (S i) l'
  end.

Definition mapi {A B : Type} (f : nat -> A -> B) (l : list A) : list B :=
  mapFrom f 0 l.

(** [l.every(p)], [l.some(p)], [l.find(p)], [l.includes(x)]. *)
Definition every {A : Type} (p : A -> bool) (l : list A) : bool := forallb p l.
Definition some {A : Type} (p : A -> bool) (l : list A) : bool := existsb p l.
Definition find {A : Type} (p : A -> bool) (l : list A) : option A :=
  List.find p l.
Definition includes (l : list string) (x : string) : bool :=
  existsb (String.eqb x) l.

(** [set.add(x)] on a [Set] of strings. *)
Definition setAdd (set : list string) (x : string) : list string :=
  if includes set x then set else set ++ [x].

End JS.

(** ** JavaScript numbers *)

Module Double.
Local Open Scope Q_scope.

(** A finite IEEE 754 double is a rational, and an arithmetic operation of
    JS returns the double nearest to the exact result, a tie going to the
    one whose significand is even.  [round] is that rounding, for a
    significand of 53 bits; the exponent is not bounded, so the operations
    below are those of JS wherever no result overflows or is subnormal
    (smaller than 2 to the -1022). *)

(** [pow2 k] is 2 to the [k], [k] of either sign. *)
Definition pow2 (k : Z) : Q := Qpower 2 k.

(** The binary exponent of a positive rational: the [e] with
    [2^e <= q < 2^(e+1)]. *)
Definition exponent (q : Q) : Z :=
  let d := (Z.log2 (Qnum q) - Z.log2 (Z.pos (Qden q)))%Z in
  if Qle_bool (pow2 d) q then d else (d - 1)%Z.

(** Round to the nearest integer, a tie to the even one. *)
Definition roundEven (m : Q) : Z :=
  let f := Qfloor m in
  match Qcompare (m - inject_Z f) (1 # 2) with
  | Lt => f
  | Gt => (f + 1)%Z
  | Eq => if Z.even f then f else (f + 1)%Z
  end.

(** The unit in the last place of a 53-bit significand at [q]'s exponent. *)
Definition ulp (q : Q) : Q := pow2 (exponent q - 52).

Definition roundPositive (q : Q) : Q :=
  Qred (inject_Z (roundEven (q / ulp q)) * ulp q).

(** [round q]: the double nearest to [q]. *)
Definition round (q : Q) : Q :=
  match Qnum q with
  | Z0 => 0
  | Zpos _ => roundPositive q
  | Zneg _ => - roundPositive (- q)
  end.

(** The relative error of one rounding is at most [eps], 2 to the -53. *)
Definition eps : Q := 1 # 9007199254740992.

(** [x + y], [x - y], [x * y] and [x / y] on numbers. *)
Definition add (x y : Q) : Q := round (x + y).
Definition sub (x y : Q) : Q := round (x - y).
Definition mul (x y : Q) : Q := round (x * y).
Definition div (x y : Q) : Q := round (x / y).

(** [Number.isInteger(x)] *)
Definition isInteger (x : Q) : bool := (Zpos (Qden (Qred x)) =? 1)%Z.

(** The rational a finite double of the kernel stands for. *)
Definition ofFloat (f : PrimFloat.float) : option Q :=
  match FloatOps.Prim2SF f with
  | SpecFloat.S754_zero _ => Some 0
  | SpecFloat.S754_finite s m e =>
      Some (Qred ((if s then -1 else 1) * inject_Z (Z.pos m) * pow2 e))
  | _ => None
  end.

End Double.

(** ** generation.js *)

Module Generation.

Definition MIN_FRONT_SIMILARITY : Z := 4.

Record KeypairData := {
  publicKey : string;
  secretKey : string
}.

(** The value side of the [activeAddresses] map. *)
Record ActiveInfo := {
  balance : Q;
  activity : string
}.

Record SimilarAddress := {
  activeAddress : string;
  generatedPublicKey : string;
  generatedSecretKey : string;
  activeBalance : Q;
  frontMatches : nat;
  endMatches : nat;
  lastActivity : string
}.

(** [generatedKeypairs] (a [Map] from public key to keypair data),
    [activeAddresses] (a [Map]) and [similarAddresses] (a [Set] of
    objects), each in insertion order. *)
Definition Pool := list (string * KeypairData).
Definition ActiveSet := list (string * ActiveInfo).
Definition MatchSet := list SimilarAddress.

(** [countEndMatches (lastSix, activeLastSix)]: the [forEach] runs over the
    second argument and reads the first one by index. *)
Fixpoint countEndMatchesFrom (lastSix : list ascii) (index : nat)
  (activeLastSix : list ascii) (matchedEnd : nat) : nat :=
  match activeLastSix with
  | [] => matchedEnd
  | char :: rest =>
      countEndMatchesFrom lastSix (S index) rest
        (if JS.eqAt char lastSix index then S matchedEnd else matchedEnd)
  end.

Definition countEndMatches (lastSix activeLastSix : list ascii) : nat :=
  countEndMatchesFrom lastSix 0 activeLastSix 0.

(** [[...firstSix].filter((char, index) => char === generatedFirstSix[index]).length] *)
Definition countFrontMatches (firstSix generatedFirstSix : string) : nat :=
  List.length (JS.filteri (fun char index =>
                        JS.eqAt char (JS.chars generatedFirstSix) index)
                     (JS.chars firstSix)).

(** The test of line 100: some record already links this pair. *)
Definition samePair (activePublicKey generatedKey : string)
  (addr : SimilarAddress) : bool :=
  String.eqb (activeAddress addr) activePublicKey
  && String.eqb (generatedPublicKey addr) generatedKey.

Definition hasPair (similarAddresses : MatchSet)
  (activePublicKey generatedPublicKey : string) : bool :=
  JS.some (samePair activePublicKey generatedPublicKey) similarAddresses.

(** The test of line 90. *)
Definition accepted (firstSix generatedFirstSix : string) : bool :=
  String.eqb (JS.strSlice firstSix 0 (Some MIN_FRONT_SIMILARITY))
             (JS.strSlice generatedFirstSix 0 (Some MIN_FRONT_SIMILARITY)).

(** One iteration of the loop of [findSimilarKeysForActiveAddresses] over
    [generatedKeypairs.entries()]. *)
Definition correlateEntry (activePublicKey : string) (activeBalance : Q)
  (lastActivity : string) (similarAddresses : MatchSet)
  (entry : string * KeypairData) : MatchSet :=
  let firstSix := JS.strSlice activePublicKey 0 (Some 6%Z) in
  let lastSix := JS.chars (JS.strSlice activePublicKey (-6) None) in
  let '(generatedPublicKey, keypairData) := entry in
  let generatedFirstSix := JS.strSlice generatedPublicKey 0 (Some 6%Z) in
  let generatedLastSix :=
    JS.chars (JS.strSlice generatedPublicKey (-6) None) in
  let frontMatches := countFrontMatches firstSix generatedFirstSix in
  let endMatches := countEndMatches lastSix generatedLastSix in
  if accepted firstSix generatedFirstSix then
    let similarAddress := {|
      activeAddress := activePublicKey;
      generatedPublicKey := generatedPublicKey;
      generatedSecretKey := secretKey keypairData;
      activeBalance := activeBalance;
      frontMatches := frontMatches;
      endMatches := endMatches;
      lastActivity := lastActivity
    |} in
    if negb (hasPair similarAddresses activePublicKey generatedPublicKey)
    then similarAddresses ++ [similarAddress]
    else similarAddresses
  else similarAddresses.

(** [findSimilarKeysForActiveAddresses]: the match set after the call. *)
Definition findSimilarKeysForActiveAddresses (generatedKeypairs : Pool)
  (activePublicKey : string) (activeBalance : Q) (lastActivity : string)
  (similarAddresses : MatchSet) : MatchSet :=
  fold_left (correlateEntry activePublicKey activeBalance lastActivity)
            generatedKeypairs similarAddresses.

(** [checkForExistingSimilarities]: one correlation per entry of
    [activeAddresses]. *)
Definition checkForExistingSimilarities (generatedKeypairs : Pool)
  (activeAddresses : ActiveSet) (similarAddresses : MatchSet) : MatchSet :=
  fold_left (fun set (entry : string * ActiveInfo) =>
               let '(activePublicKey, info) := entry in
               findSimilarKeysForActiveAddresses generatedKeypairs
                 activePublicKey (balance info) (activity info) set)
            activeAddresses similarAddresses.

(** *** The rate limiter *)

Record RateLimiter := {
  maxRequests : Q;
  perSeconds : Q;
  tokens : Q;
  lastRefilled : Z
}.

(** [new RateLimiter(maxRequests, perSeconds)], [now] being the
    [Date.now()] the constructor reads. *)
Definition newRateLimiter (maxRequests perSeconds : Q) (now : Z)
  : RateLimiter :=
  {| maxRequests := maxRequests;
     perSeconds := perSeconds;
     tokens := maxRequests;
     lastRefilled := now |}.

Definition MAX_RPC_REQUESTS_PER_SECOND : Q := 20.

(** The module's one instance, [new RateLimiter(20, 1)]. *)
Definition rateLimiter (now : Z) : RateLimiter :=
  newRateLimiter MAX_RPC_REQUESTS_PER_SECOND 1 now.

(** [(timePassed / 1000) * (maxRequests / perSeconds)], each operation
    rounded as JS rounds it. *)
Definition refillAmount (rl : RateLimiter) (timePassed : Z) : Q :=
  Double.mul (Double.div (inject_Z timePassed) 1000)
             (Double.div (maxRequests rl) (perSeconds rl)).

(** [refillTokens()], [now] being the [Date.now()] it reads. *)
Definition refillTokens (rl : RateLimiter) (now : Z) : RateLimiter :=
  let timePassed := (now - lastRefilled rl)%Z in
  {| maxRequests := maxRequests rl;
     perSeconds := perSeconds rl;
     tokens := Qmin (maxRequests rl)
                    (Double.add (tokens rl) (refillAmount rl timePassed));
     lastRefilled := now |}.

(** [this.tokens > 0] *)
Definition hasToken (rl : RateLimiter) : bool :=
  negb (Qle_bool (tokens rl) 0).

(** One turn of the loop of [waitForToken], up to its [await]: the refill,
    the test and the decrement run without a suspension point, so no other
    task runs in between.  [true] is the [return] (a token was granted),
    [false] the 100 ms sleep. *)
Definition attempt (rl : RateLimiter) (now : Z) : bool * RateLimiter :=
  let rl' := refillTokens rl now in
  if hasToken rl' then
    (true, {| maxRequests := maxRequests rl';
              perSeconds := perSeconds rl';
              tokens := Double.sub (tokens rl') 1;
              lastRefilled := lastRefilled rl' |})
  else (false, rl').

(** [waitForToken()] of a task that no other task interleaves with:
    [clock] lists the [Date.now()] of its successive turns, and the call
    returns at the first turn that is granted. *)
Fixpoint waitForToken (rl : RateLimiter) (clock : list Z)
  : option (RateLimiter * list Z) :=
  match clock with
  | [] => None
  | now :: later =>
      let (granted, rl') := attempt rl now in
      if granted then Some (rl', later) else waitForToken rl' later
  end.

(** Any number of tasks calling [waitForToken]: whatever the interleaving,
    the limiter sees one sequence of turns, at the times [times].  The
    result lists the times of the turns that were granted, each one the
    return of one [waitForToken] call. *)
Fixpoint acquisitions (rl : RateLimiter) (times : list Z) : list Z :=
  match times with
  | [] => []
  | now :: later =>
      let (granted, rl') := attempt rl now in
      if granted then now :: acquisitions rl' later
      else acquisitions rl' later
  end.

(** The acquisitions granted at a time [t] with [from <= t <= to]. *)
Definition grantedWithin (from to : Z) (granted : list Z) : nat :=
  List.length
    (filter (fun t => (from <=? t)%Z && (t <=? to)%Z) granted).

End Generation.

(** ** The rate limiter on the floats of the kernel *)

(** The limiter once more, computed with the binary64 operations of the
    kernel instead of [Double]: the two are compared on sample runs. *)
Module Binary64.

Definition ofZ (n : Z) : PrimFloat.float :=
  PrimFloat.of_uint63 (Uint63.of_Z n).

Record RateLimiter := {
  maxRequests : PrimFloat.float;
  perSeconds : PrimFloat.float;
  tokens : PrimFloat.float;
  lastRefilled : Z
}.

Definition newRateLimiter (maxRequests perSeconds : PrimFloat.float)
  (now : Z) : RateLimiter :=
  {| maxRequests := maxRequests;
     perSeconds := perSeconds;
     tokens := maxRequests;
     lastRefilled := now |}.

Definition rateLimiter (now : Z) : RateLimiter :=
  newRateLimiter (ofZ 20) (ofZ 1) now.

(** [Math.min] of two numbers. *)
Definition min (a b : PrimFloat.float) : PrimFloat.float :=
  if PrimFloat.ltb b a then b else a.

Definition refillTokens (rl : RateLimiter) (now : Z) : RateLimiter :=
  let timePassed := ofZ (now - lastRefilled rl) in
  let refillAmount :=
    PrimFloat.mul (PrimFloat.div timePassed (ofZ 1000))
                  (PrimFloat.div (maxRequests rl) (perSeconds rl)) in
  {| maxRequests := maxRequests rl;
     perSeconds := perSeconds rl;
     tokens := min (maxRequests rl) (PrimFloat.add (tokens rl) refillAmount);
     lastRefilled := now |}.

Definition attempt (rl : RateLimiter) (now : Z) : bool * RateLimiter :=
  let rl' := refillTokens rl now in
  if PrimFloat.ltb (ofZ 0) (tokens rl') then
    (true, {| maxRequests := maxRequests rl';
              perSeconds := perSeconds rl';
              tokens := PrimFloat.sub (tokens rl') (ofZ 1);
              lastRefilled := lastRefilled rl' |})
  else (false, rl').

(** The turns granted, and the bucket after each turn. *)
Fixpoint run (rl : RateLimiter) (times : list Z)
  : list Z * list (option Q) :=
  match times with
  | [] => ([], [])
  | now :: later =>
      let (granted, rl') := attempt rl now in
      let (grants, buckets) := run rl' later in
      (if granted then now :: grants else grants,
       Double.ofFloat (tokens rl') :: buckets)
  end.

End Binary64.

(** ** transaction.js *)

Module Transaction.

Definition LAMPORTS_PER_SOL : Z := 1000000000.

Definition EXCLUDED_ADDRESSES : list string :=
  [ "Vote111111111111111111111111111111111111111";
    "SysvarStakeHistory1111111111111111111111111";
    "Stake11111111111111111111111111111111111111";
    "SysvarC1ock11111111111111111111111111111111";
    "ComputeBudget111111111111111111111111111111";
    "TokenkegQfeZyiNwAJbNbGKPFXCWuBvf9Ss623VQ5DA";
    "ATokenGPvbdGVxr1b2hvZbsiqW5xWH25efTNsLJA8knL";
    "11111111111111111111111111111111" ]%string.

(** [PublicKey.default], the all-zero key, in base58.  A [PublicKey] is
    modelled by its base58 string, which determines it. *)
Definition PublicKey_default : string := "11111111111111111111111111111111".

(** The settings of [settings.js] that this module reads. *)
Record Settings := {
  minSolTarget : Q;
  maxTargets : Z;
  amountToSend : Q
}.

(** What the RPC node answers during one [getTargets] call. *)
Record Ledger := {
  (** [getSignaturesForAddress(address, { limit })] *)
  getSignaturesForAddress : string -> nat -> list string;
  (** [getTransaction(signature)]: the account keys of the message, [None]
      when the answer, its transaction, its message or the key array is
      missing *)
  getTransaction : string -> option (list string);
  (** [getAccountInfo(address)]: the [executable] flag, [None] for [null] *)
  getAccountInfo : string -> option bool;
  (** [getBalance(address)], in lamports *)
  getBalance : string -> Z
}.

Record Target := {
  publicKey : string;
  balance : Q
}.

(** [lamports / LAMPORTS_PER_SOL] *)
Definition toSol (lamports : Z) : Q :=
  (inject_Z lamports / inject_Z LAMPORTS_PER_SOL)%Q.

(** The body of the inner loop of [getTargets] (lines 100-107). *)
Definition collectKey (ledger : Ledger) (activeWallet : string)
  (addressSet : list string) (accountKey : string) : list string :=
  match getAccountInfo ledger accountKey with
  | None => addressSet
  | Some executable =>
      if executable || JS.includes EXCLUDED_ADDRESSES accountKey
      then addressSet
      else if negb (String.eqb accountKey PublicKey_default)
              && negb (String.eqb accountKey activeWallet)
           then JS.setAdd addressSet accountKey
           else addressSet
  end.

(** The body of the outer loop (lines 96-108). *)
Definition collectSignature (ledger : Ledger) (activeWallet : string)
  (addressSet : list string) (signature : string) : list string :=
  match getTransaction ledger signature with
  | None => addressSet
  | Some accountKeys =>
      fold_left (collectKey ledger activeWallet) accountKeys addressSet
  end.

(** [Array.from(addressSet)] after the loops of lines 94-109. *)
Definition historyAddresses (ledger : Ledger) (activeWallet : string)
  : list string :=
  fold_left (collectSignature ledger activeWallet)
            (getSignaturesForAddress ledger activeWallet 50) [].

Definition batchGetBalances (ledger : Ledger) (addresses : list string)
  : list (string * Q) :=
  map (fun address => (address, toSol (getBalance ledger address))) addresses.

(** [balance >= minSolTarget] *)
Definition qualifies (minSolTarget balance : Q) : bool :=
  Qle_bool minSolTarget balance.

(** The loop of lines 114-118: one [push] per qualifying balance. *)
Definition historyTargets (ledger : Ledger) (activeWallet : string)
  (minSolTarget : Q) : list Target :=
  fold_left (fun targets (result : string * Q) =>
               let '(address, balance) := result in
               if qualifies minSolTarget balance
               then targets ++ [{| publicKey := address; balance := balance |}]
               else targets)
            (batchGetBalances ledger (historyAddresses ledger activeWallet))
            [].

(** [targets] as it stands at line 125, before the cut to [maxTargets]. *)
Definition resolvedTargets (ledger : Ledger) (activeWallet : string)
  (minSolTarget : Q) : list Target :=
  let targets := historyTargets ledger activeWallet minSolTarget in
  let activeWalletBalance := toSol (getBalance ledger activeWallet) in
  if qualifies minSolTarget activeWalletBalance
  then targets ++ [{| publicKey := activeWallet;
                      balance := activeWalletBalance |}]
  else targets.

(** [getTargets(activeWallet, minSolTarget)] *)
Definition getTargets (settings : Settings) (ledger : Ledger)
  (activeWallet : string) (minSolTarget : Q) : list Target :=
  JS.slice (resolvedTargets ledger activeWallet minSolTarget)
           0 (Some (maxTargets settings)).

(** What [getTargetsWithTimeout] observes: [clock n] is its [n]-th reading
    of [Date.now()], [ledgerAt n] what the node answers during its [n]-th
    call of [getTargets] (both counted from 0), [lowerMinSol] the
    operator's answer to the prompt. *)
Record Session := {
  clock : nat -> Z;
  ledgerAt : nat -> Ledger;
  lowerMinSol : bool
}.

(** The [while] loop of lines 254-257, entered for the [n]-th time with
    [targets]; [fuel] bounds the number of turns.  [Date.now()] is read
    only when the first conjunct holds.  The result carries the number of
    [getTargets] calls made so far. *)
Fixpoint searchLoop (fuel : nat) (settings : Settings) (session : Session)
  (activeWallet : string) (minSol : Q) (start : Z) (n : nat)
  (targets : list Target) : option (list Target * nat) :=
  if (Z.of_nat (List.length targets) <? maxTargets settings)%Z
     && (clock session n - start <? 10000)%Z
  then match fuel with
       | O => None
       | S fuel' =>
           searchLoop fuel' settings session activeWallet minSol start (S n)
             (getTargets settings (ledgerAt session n) activeWallet minSol)
       end
  else Some (targets, n).

(** [getTargetsWithTimeout(activeWallet, minSolTarget)] *)
Definition getTargetsWithTimeout (fuel : nat) (settings : Settings)
  (session : Session) (activeWallet : string) (minSol : Q)
  : option (list Target) :=
  let start := clock session 0 in
  let targets := getTargets settings (ledgerAt session 0) activeWallet minSol in
  match searchLoop fuel settings session activeWallet minSol start 1 targets
  with
  | None => None
  | Some (targets', n) =>
      if (Z.of_nat (List.length targets') <? maxTargets settings)%Z
      then if lowerMinSol session
           then Some (getTargets settings (ledgerAt session n) activeWallet 0)
           else Some targets'
      else Some targets'
  end.

(** *** The dispatcher *)

Record Keypair := {
  keypairPublicKey : string;
  keypairSecretKey : string
}.

(** What makes [sendAndConfirmTransaction] reject: the [message] of the
    error, and the answer of [getLogs()] when the error is a
    [SendTransactionError]. *)
Record TransferError := {
  message : string;
  sendTransactionLogs : option (list string)
}.

(** The node and the web3.js library during one dispatch: [balanceOf a]
    is the answer to [getBalance(a)] in lamports, [None] when the call
    throws; [transfer i to] is the fate of the transfer that
    [sendTransactionsInParallel] issues for the [i]-th entry of its target
    list, [None] for a confirmed one; [encodes lamports] tells whether
    [SystemProgram.transfer] builds an instruction for the amount
    [lamports], [false] when it throws (the library writes the amount as an
    integer of 64 bits and throws on a number with a fractional part). *)
Record Chain := {
  balanceOf : string -> option Z;
  transfer : nat -> string -> option TransferError;
  encodes : Q -> bool
}.

(** [fetchWalletBalance]: [null] when the RPC call throws. *)
Definition fetchWalletBalance (chain : Chain) (address : string) : option Q :=
  match balanceOf chain address with
  | Some balanceLamports => Some (toSol balanceLamports)
  | None => None
  end.

Definition fetchGeneratedWalletBalance := fetchWalletBalance.

(** The number a relational operator reads in its operand: [null] is 0. *)
Definition toNumber (value : option Q) : Q :=
  match value with
  | Some q => q
  | None => 0
  end.

(** The objects the per-target promises resolve to; a successful one has
    neither [error] nor [logs]. *)
Record DispatchOutcome := {
  success : bool;
  target : string;
  error : option string;
  logs : option (list string)
}.

(** The calls of [log] made by [sendTransactionsInParallel]. *)
Inductive LogCall :=
| RentShortfall (generatedBalance : option Q)
| Sent (fromAddress toAddress : string)
| TransactionFailed (errorMessage : string) (errorLogs : list string).

Definition logLevel (call : LogCall) : string :=
  match call with
  | Sent _ _ => "INFO"
  | RentShortfall _ | TransactionFailed _ _ => "CRITICAL"
  end.

(** A call of [sendAndConfirmTransaction]: receiver and lamports. *)
Record Transfer := {
  toPubkey : string;
  lamports : Q
}.

Definition minBalanceForRent : Q := 203928 # 100000000.

(** The promise built for the [index]-th target (lines 141-159): the
    outcome it resolves to and the line it logs. *)
Definition settle (chain : Chain) (generatedPublicKey : string)
  (index : nat) (t : Target) : DispatchOutcome * LogCall :=
  match transfer chain index (publicKey t) with
  | None =>
      ({| success := true; target := publicKey t;
          error := None; logs := None |},
       Sent generatedPublicKey (publicKey t))
  | Some e =>
      let logs := match sendTransactionLogs e with
                  | Some l => l
                  | None => []
                  end in
      ({| success := false; target := publicKey t;
          error := Some (message e); logs := Some logs |},
       TransactionFailed (message e) logs)
  end.

(** What a call of [sendTransactionsInParallel] amounts to: the array it
    resolves to, the transfers it submitted and the lines it logged (the
    last two in target order; the order in which the node settles them is
    not fixed). *)
Record Dispatch := {
  outcomes : list DispatchOutcome;
  submitted : list Transfer;
  logged : list LogCall
}.

(** [settings.amountToSend * LAMPORTS_PER_SOL] (line 145), a product of
    numbers: the setting is the double nearest to the number written in
    [settings.js]. *)
Definition transferLamports (settings : Settings) : Q :=
  Double.mul (Double.round (amountToSend settings))
             (inject_Z LAMPORTS_PER_SOL).

(** [sendTransactionsInParallel(generatedKeypair, targets)]; [None] when
    the call rejects: [SystemProgram.transfer] throws in the callback of
    [targets.map], before any transfer is submitted. *)
Definition sendTransactionsInParallel (settings : Settings) (chain : Chain)
  (generatedKeypair : Keypair) (targets : list Target) : option Dispatch :=
  let generatedPublicKey := keypairPublicKey generatedKeypair in
  let generatedBalance :=
    fetchGeneratedWalletBalance chain generatedPublicKey in
  if negb (Qle_bool minBalanceForRent (toNumber generatedBalance)) then
    Some {| outcomes := []; submitted := [];
            logged := [RentShortfall generatedBalance] |}
  else
    let amount := transferLamports settings in
    if JS.some (fun _ => negb (encodes chain amount)) targets then None
    else
      let settled := JS.mapi (settle chain generatedPublicKey) targets in
      Some {| outcomes := map fst settled;
              submitted :=
                map (fun t => {| toPubkey := publicKey t;
                                 lamports := amount |})
                    targets;
              logged := map snd settled |}.

Record LoggedTarget := {
  targetPublicKey : string;
  targetBalance : Q;
  sentSuccessful : bool
}.

(** The entry [logTransactionDetails] appends to the monitored file. *)
Record LogEntry := {
  timestamp : string;
  generatedWalletPublicKey : string;
  generatedWalletBalance : option Q;
  generatedWalletKeypair : string;
  activeWalletPublicKey : string;
  activeWalletBalance : option Q;
  mainWalletBalance : option Q;
  loggedTargets : list LoggedTarget;
  transactionStatus : string
}.

(** [transactionResults.find(result => result.target === target.publicKey)?.success || false] *)
Definition sentTo (transactionResults : list DispatchOutcome) (t : Target)
  : bool :=
  match JS.find (fun result => String.eqb (target result) (publicKey t))
                transactionResults with
  | Some result => success result || false
  | None => false
  end.

(** [logTransactionDetails(generatedKeypair, activeWallet, targets,
    transactionResults)]: the entry it appends; [now] is the ISO timestamp
    it reads, [mainWallet] the operator's public key. *)
Definition logTransactionDetails (chain : Chain) (now mainWallet : string)
  (generatedKeypair : Keypair) (activeWallet : string)
  (targets : list Target) (transactionResults : list DispatchOutcome)
  : LogEntry :=
  let generatedPublicKey := keypairPublicKey generatedKeypair in
  {| timestamp := now;
     generatedWalletPublicKey := generatedPublicKey;
     generatedWalletBalance :=
       fetchGeneratedWalletBalance chain generatedPublicKey;
     generatedWalletKeypair := keypairSecretKey generatedKeypair;
     activeWalletPublicKey := activeWallet;
     activeWalletBalance := fetchWalletBalance chain activeWallet;
     mainWalletBalance := fetchWalletBalance chain mainWallet;
     loggedTargets :=
       map (fun t => {| targetPublicKey := publicKey t;
                        targetBalance := balance t;
                        sentSuccessful := sentTo transactionResults t |})
           targets;
     transactionStatus :=
       if JS.every success transactionResults
       then "Success" else "Partial Failure" |}.

(** Lines 245-247 of [viewTargets]: the transfers, then (after the sweep
    of [returnRemainingFunds], which leaves the node as [atCompletion])
    the log entry built from their outcomes; [None] when
    [sendTransactionsInParallel] rejects, the exception leaving
    [viewTargets] before the sweep and the log. *)
Definition dispatchAndLog (settings : Settings)
  (chain atCompletion : Chain) (now mainWallet : string)
  (generatedKeypair : Keypair) (activeWallet : string)
  (targets : list Target) : option LogEntry :=
  match sendTransactionsInParallel settings chain generatedKeypair targets
  with
  | Some d =>
      Some (logTransactionDetails atCompletion now mainWallet
              generatedKeypair activeWallet targets (outcomes d))
  | None => None
  end.

End Transaction.

(** ** The [Map] built-in *)

Module JSMap.

(** A [Map] keyed by strings, as the list of its entries in insertion
    order; each key occurs once. *)
Definition has {V : Type} (m : list (string * V)) (k : string) : bool :=
  existsb (fun e => String.eqb (fst e) k) m.

Definition get {V : Type} (m : list (string * V)) (k : string) : option V :=
  match List.find (fun e => String.eqb (fst e) k) m with
  | Some e => Some (snd e)
  | None => None
  end.

(** [m.set(k, v)]: a key already present keeps its place and takes the new
    value, a new key goes to the end. *)
Fixpoint set {V : Type} (m : list (string * V)) (k : string) (v : V)
  : list (string * V) :=
  match m with
  | [] => [(k, v)]
  | (k', v') :: m' =>
      if String.eqb k' k then (k, v) :: m' else (k', v') :: set m' k v
  end.

(** [new Map(entries)] *)
Definition fromEntries {V : Type} (entries : list (string * V))
  : list (string * V) :=
  fold_left (fun m e => set m (fst e) (snd e)) entries [].

End JSMap.

(** ** generation.js: the keypair generator and the address feeds *)

Module Ingestion.
Import Generation.

Definition EXCLUDED_ADDRESSES : list string :=
  [ "Vote111111111111111111111111111111111111111"%string ].

(** [settings.minSolActive * 1e9], for the [minSolActive] read when the
    module is loaded. *)
Definition MINIMUM_BALANCE (minSolActive : Q) : Q :=
  (minSolActive * 1000000000)%Q.

(** The body of the loop of [generateAndSaveKeypair] (lines 62-72), for
    the keypair that [Keypair.generate()] returned. *)
Definition storeKeypair (generatedKeypairs : Pool) (keypairData : KeypairData)
  : Pool :=
  if negb (JSMap.has generatedKeypairs (publicKey keypairData))
  then JSMap.set generatedKeypairs (publicKey keypairData) keypairData
  else generatedKeypairs.

(** [generateAndSaveKeypair] over the keypairs generated while [autoMode]
    stays on. *)
Definition generateAndSaveKeypair (generatedKeypairs : Pool)
  (generated : list KeypairData) : Pool :=
  fold_left storeKeypair generated generatedKeypairs.

(** The module's mutable state. *)
Record State := {
  autoMode : bool;
  generatedKeypairs : Pool;
  activeAddresses : ActiveSet;
  similarAddresses : MatchSet;
  addressesToExplore : list string;
  limiter : RateLimiter
}.

(** What the node and the wall clock answer while one feed runs:
    [balanceAt a] is [getBalance(a)] in lamports, [None] when the call
    throws; [stamp] is [new Date().toISOString()]. *)
Record Node := {
  balanceAt : string -> option Z;
  stamp : string
}.

Definition withLimiter (st : State) (rl : RateLimiter) : State :=
  {| autoMode := autoMode st;
     generatedKeypairs := generatedKeypairs st;
     activeAddresses := activeAddresses st;
     similarAddresses := similarAddresses st;
     addressesToExplore := addressesToExplore st;
     limiter := rl |}.

(** Lines 133-137: the address is recorded as active and correlated. *)
Definition recordActive (st : State) (address : string) (balanceInSOL : Q)
  (lastActivity : string) : State :=
  {| autoMode := autoMode st;
     generatedKeypairs := generatedKeypairs st;
     activeAddresses :=
       JSMap.set (activeAddresses st) address
         {| balance := balanceInSOL; activity := lastActivity |};
     similarAddresses :=
       findSimilarKeysForActiveAddresses (generatedKeypairs st) address
         balanceInSOL lastActivity (similarAddresses st);
     addressesToExplore := addressesToExplore st;
     limiter := limiter st |}.

(** [checkAndAddAddress(address)]: the answer, the state it leaves and the
    clock readings left over; [None] when [waitForToken] is not granted
    within the readings of [clock]. *)
Definition checkAndAddAddress (minSolActive : Q) (node : Node)
  (st : State) (clock : list Z) (address : string)
  : option (bool * State * list Z) :=
  if negb (autoMode st) || JS.includes EXCLUDED_ADDRESSES address
  then Some (false, st, clock)
  else
    match waitForToken (limiter st) clock with
    | None => None
    | Some (rl, later) =>
        let st1 := withLimiter st rl in
        match balanceAt node address with
        | Some balance =>
            if Qle_bool (MINIMUM_BALANCE minSolActive) (inject_Z balance)
            then
              let balanceInSOL := (inject_Z balance / 1000000000)%Q in
              Some (true, recordActive st1 address balanceInSOL (stamp node),
                    later)
            else Some (false, st1, later)
        | None => Some (false, st1, later)
        end
    end.

(** [addressesToExplore.add(address)] *)
Definition enqueue (st : State) (address : string) : State :=
  {| autoMode := autoMode st;
     generatedKeypairs := generatedKeypairs st;
     activeAddresses := activeAddresses st;
     similarAddresses := similarAddresses st;
     addressesToExplore := JS.setAdd (addressesToExplore st) address;
     limiter := limiter st |}.

(** The loop over the account keys of one transaction or notification
    (lines 161-168, and again 219-226). *)
Fixpoint ingestKeys (minSolActive : Q) (node : Node) (st : State)
  (clock : list Z) (addresses : list string) : option (State * list Z) :=
  match addresses with
  | [] => Some (st, clock)
  | address :: rest =>
      if negb (JSMap.has (activeAddresses st) address)
         && negb (JS.includes EXCLUDED_ADDRESSES address)
      then
        match checkAndAddAddress minSolActive node st clock address with
        | None => None
        | Some (isActive, st', clock') =>
            ingestKeys minSolActive node
              (if isActive then enqueue st' address else st') clock' rest
        end
      else ingestKeys minSolActive node st clock rest
  end.

(** An entry of [confirmedBlock.transactions]: [null], an entry whose
    [transaction.message.accountKeys] is not an array, or one with its
    account keys. *)
Inductive BlockTransaction :=
| NullTransaction
| WithoutKeys
| WithKeys (accountKeys : list string).

(** The loop of lines 157-172 over the transactions of a block.  On a
    [null] entry the template string of line 170 reads a property of
    [null]; the [TypeError] is caught at line 174 and ends the call. *)
Fixpoint ingestBlock (minSolActive : Q) (node : Node) (st : State)
  (clock : list Z) (transactions : list BlockTransaction)
  : option (State * list Z) :=
  match transactions with
  | [] => Some (st, clock)
  | tx :: rest =>
      if negb (autoMode st) then Some (st, clock)
      else
        match tx with
        | WithKeys accountKeys =>
            match ingestKeys minSolActive node st clock accountKeys with
            | None => None
            | Some (st', clock') =>
                ingestBlock minSolActive node st' clock' rest
            end
        | WithoutKeys => ingestBlock minSolActive node st clock rest
        | NullTransaction => Some (st, clock)
        end
  end.

(** [fetchRecentTransactions()]; [blockhash] tells whether
    [getLatestBlockhash] answered, [block] is the transaction list of the
    block [getBlock] returned, [None] when it threw or returned no
    transactions. *)
Definition fetchRecentTransactions (minSolActive : Q) (node : Node)
  (blockhash : bool) (block : option (list BlockTransaction))
  (st : State) (clock : list Z) : option (State * list Z) :=
  if negb (autoMode st) then Some (st, clock)
  else
    match waitForToken (limiter st) clock with
    | None => None
    | Some (rl1, clock1) =>
        if negb blockhash then Some (withLimiter st rl1, clock1)
        else
          match waitForToken rl1 clock1 with
          | None => None
          | Some (rl2, clock2) =>
              match block with
              | None => Some (withLimiter st rl2, clock2)
              | Some transactions =>
                  ingestBlock minSolActive node (withLimiter st rl2) clock2
                    transactions
              end
          end
    end.

(** The re-check loop of [exploreAddresses] (lines 184-187). *)
Fixpoint recheck (minSolActive : Q) (node : Node) (st : State)
  (clock : list Z) (addresses : list string) : option (State * list Z) :=
  match addresses with
  | [] => Some (st, clock)
  | address :: rest =>
      if negb (autoMode st) then Some (st, clock)
      else
        match checkAndAddAddress minSolActive node st clock address with
        | None => None
        | Some (_, st', clock') => recheck minSolActive node st' clock' rest
        end
  end.

(** [addressesToExplore.clear()] *)
Definition clearQueue (st : State) : State :=
  {| autoMode := autoMode st;
     generatedKeypairs := generatedKeypairs st;
     activeAddresses := activeAddresses st;
     similarAddresses := similarAddresses st;
     addressesToExplore := [];
     limiter := limiter st |}.

(** One turn of the [while] loop of [exploreAddresses] (lines 181-195),
    run with no other feed in between; [node'] is what the node answers
    after the five-second sleep. *)
Definition exploreTurn (minSolActive : Q) (node node' : Node)
  (blockhash : bool) (block : option (list BlockTransaction))
  (st : State) (clock : list Z) : option (State * list Z) :=
  let addressesToExploreArray := addressesToExplore st in
  match recheck minSolActive node (clearQueue st) clock
          addressesToExploreArray with
  | None => None
  | Some (st', clock') =>
      if (List.length (addressesToExplore st') =? 0)%nat
      then
        if negb (autoMode st') then Some (st', clock')
        else fetchRecentTransactions minSolActive node' blockhash block st'
               clock'
      else Some (st', clock')
  end.

End Ingestion.

(** ** transaction.js: the funding and the menu *)

Module Operator.
Import Transaction.

(** Line 239 of [viewTargets]:
    [Math.ceil((settings.amountToSend * targets.length + 0.002) * LAMPORTS_PER_SOL)],
    the setting and 0.002 read as doubles, the product, the sum and the
    second product each rounded to a double. *)
Definition totalAmount (settings : Settings) (targets : list Target) : Z :=
  Qceiling
    (Double.mul
       (Double.add
          (Double.mul (Double.round (amountToSend settings))
                      (inject_Z (Z.of_nat (List.length targets))))
          (Double.round (2 # 1000)))
       (inject_Z LAMPORTS_PER_SOL)).

(** The [value] of each entry of the menu of [sendTransactionMenu]
    (lines 281-287). *)
Definition choiceValues (similarAddresses : list Generation.SimilarAddress)
  : list string :=
  map Generation.generatedPublicKey similarAddresses.

(** Line 298: the record dispatched for the selected [value]. *)
Definition selectedPair (similarAddresses : list Generation.SimilarAddress)
  (selected : string) : option Generation.SimilarAddress :=
  JS.find (fun addr => String.eqb (Generation.generatedPublicKey addr) selected)
          similarAddresses.

End Operator.

(** ** data.js *)

Module Data.
Import Generation.

(** A row of [active_addresses.json] or of [target_addresses.json]. *)
Record Row := {
  rowPublicKey : string;
  rowBalance : Q;
  rowLastActivity : string
}.

(** The four collections of the module. *)
Record Store := {
  activeAddresses : ActiveSet;
  generatedKeypairs : Pool;
  similarAddresses : MatchSet;
  targetAddresses : ActiveSet
}.

(** The content of the four JSON files, each an array. *)
Record Files := {
  activeFile : list Row;
  generatedFile : list KeypairData;
  similarFile : list SimilarAddress;
  targetFile : list Row
}.

(** [obj => [obj.publicKey, { balance: obj.balance, lastActivity: obj.lastActivity }]] *)
Definition entryOfRow (obj : Row) : string * ActiveInfo :=
  (rowPublicKey obj,
   {| balance := rowBalance obj; activity := rowLastActivity obj |}).

(** [([publicKey, value]) => ({ publicKey, ...value })] *)
Definition rowOfEntry (entry : string * ActiveInfo) : Row :=
  {| rowPublicKey := fst entry;
     rowBalance := balance (snd entry);
     rowLastActivity := activity (snd entry) |}.

(** [loadExistingData()], every file read and parsed. *)
Definition loadExistingData (files : Files) : Store :=
  {| generatedKeypairs :=
       JSMap.fromEntries
         (map (fun obj => (publicKey obj, obj)) (generatedFile files));
     activeAddresses :=
       JSMap.fromEntries (map entryOfRow (activeFile files));
     similarAddresses := similarFile files;
     targetAddresses :=
       JSMap.fromEntries (map entryOfRow (targetFile files)) |}.

Definition saveGeneratedKeypairs (store : Store) (files : Files) : Files :=
  {| activeFile := activeFile files;
     generatedFile := map snd (generatedKeypairs store);
     similarFile := similarFile files;
     targetFile := targetFile files |}.

Definition saveActiveAddresses (store : Store) (files : Files) : Files :=
  {| activeFile := map rowOfEntry (activeAddresses store);
     generatedFile := generatedFile files;
     similarFile := similarFile files;
     targetFile := targetFile files |}.

Definition saveSimilarAddresses (store : Store) (files : Files) : Files :=
  {| activeFile := activeFile files;
     generatedFile := generatedFile files;
     similarFile := similarAddresses store;
     targetFile := targetFile files |}.

(** [saveTargetAddresses] has no parameter: what a caller passes is not
    read, the file takes the entries of [targetAddresses]. *)
Definition saveTargetAddresses (store : Store) (files : Files) : Files :=
  {| activeFile := activeFile files;
     generatedFile := generatedFile files;
     similarFile := similarFile files;
     targetFile := map rowOfEntry (targetAddresses store) |}.

(** [clearTargetAddresses()] *)
Definition clearTargetAddresses (store : Store) (files : Files)
  : Store * Files :=
  let store' := {| activeAddresses := activeAddresses store;
                   generatedKeypairs := generatedKeypairs store;
                   similarAddresses := similarAddresses store;
                   targetAddresses := [] |} in
  (store', saveTargetAddresses store' files).

(** The persistence of [getTargets] (line 125 of transaction.js,
    [await saveTargetAddresses(targets)]). *)
Definition persistTargets (store : Store) (files : Files)
  (targets : list Transaction.Target) : Files :=
  saveTargetAddresses store files.

End Data.

(** ** logger.js *)

Module Logger.

Inductive Level := INFO | WARNING | CRITICAL.

(** A rendered line: its level, its message and its time. *)
Record Line := {
  lineLevel : Level;
  lineMessage : string;
  lineTime : string
}.

(** The module's state: its settings, the [logs] array and the number of
    fade timers not yet fired. *)
Record LogState := {
  verboseLogging : bool;
  logs : list Line;
  timers : nat
}.

Definition MAX_LOGS : nat := 50.

Definition isInfo (level : Level) : bool :=
  match level with
  | INFO => true
  | _ => false
  end.

(** [logs.shift()] *)
Definition shift (lines : list Line) : list Line := tl lines.

(** [log(level, message)] at time [time]. *)
Definition log (st : LogState) (level : Level) (message time : string)
  : LogState :=
  if negb (verboseLogging st) && isInfo level then st
  else
    let pushed := logs st ++ [{| lineLevel := level;
                                 lineMessage := message;
                                 lineTime := time |}] in
    {| verboseLogging := verboseLogging st;
       logs := if (MAX_LOGS <? List.length pushed)%nat
               then shift pushed else pushed;
       timers := S (timers st) |}.

(** A fade timer of line 309 fires. *)
Definition fade (st : LogState) : LogState :=
  match timers st with
  | O => st
  | S pending =>
      {| verboseLogging := verboseLogging st;
         logs := shift (logs st);
         timers := pending |}
  end.

(** [setSettings(newSettings)], [None] when [newSettings] has no
    [verboseLogging]. *)
Definition setSettings (st : LogState) (verbose : option bool) : LogState :=
  {| verboseLogging := match verbose with
                       | Some v => v
                       | None => verboseLogging st
                       end;
     logs := logs st;
     timers := timers st |}.

(** What happens to the logger over time. *)
Inductive Event :=
| Logged (level : Level) (message time : string)
| Faded
| Configured (verbose : option bool).

Definition step (st : LogState) (e : Event) : LogState :=
  match e with
  | Logged level message time => log st level message time
  | Faded => fade st
  | Configured verbose => setSettings st verbose
  end.

Definition initial : LogState :=
  {| verboseLogging := false; logs := []; timers := 0 |}.

End Logger.

(** * Vocabulary of the properties, and sample data *)

Module GenerationDefs.
Import Generation.

(** The two prefixes compared at line 90. *)
Definition firstSixOf (key : string) : string := JS.strSlice key 0 (Some 6%Z).

(** The record built at lines 91-99 for a pool entry. *)
Definition recordFor (activePublicKey : string) (balance : Q)
  (activity : string) (entry : string * KeypairData) : SimilarAddress :=
  {| activeAddress := activePublicKey;
     generatedPublicKey := fst entry;
     generatedSecretKey := secretKey (snd entry);
     activeBalance := balance;
     frontMatches :=
       countFrontMatches (firstSixOf activePublicKey) (firstSixOf (fst entry));
     endMatches :=
       countEndMatches
         (JS.chars (JS.strSlice activePublicKey (-6) None))
         (JS.chars (JS.strSlice (fst entry) (-6) None));
     lastActivity := activity |}.

(** [covered pool A S]: every pool entry accepted for [A] is recorded. *)
Definition covered (pool : Pool) (A : string) (S : MatchSet) : Prop :=
  forall entry, In entry pool ->
    accepted (firstSixOf A) (firstSixOf (fst entry)) = true ->
    hasPair S A (fst entry) = true.

(** At most one record per pair of an active address and a generated key. *)
Definition pairOf (r : SimilarAddress) : string * string :=
  (activeAddress r, generatedPublicKey r).

Definition pairsUnique (S : MatchSet) : Prop := NoDup (map pairOf S).

(** The sample keys of the specification, completed to full length. *)
Definition sampleActive : string := "ABCDEFghijkmnopqrstuvwxyz123456789ABCDEFGHJK".
Definition sampleNear : string := "ABCDXYghijkmnopqrstuvwxyz123456789ABCDEFGHJK".
Definition sampleFar : string := "ABXDEFghijkmnopqrstuvwxyz123456789ABCDEFGHJK".

Definition keypairOf (key : string) : string * KeypairData :=
  (key, {| publicKey := key; secretKey := "secret" |}).

Definition samplePool : Pool := [keypairOf sampleNear; keypairOf sampleFar].

(** The record of the pair [(sampleActive, sampleNear)] as a first scan at
    balance 2 and stamp [t0] leaves it. *)
Definition firstScan : MatchSet :=
  findSimilarKeysForActiveAddresses samplePool sampleActive 2 "t0" [].

End GenerationDefs.

Module RateLimiterDefs.
Import Generation.

(** The clock never runs backwards: [times] is non-decreasing and starts
    no earlier than [from]. *)
Fixpoint chronological (from : Z) (times : list Z) : Prop :=
  match times with
  | [] => True
  | t :: later => (from <= t)%Z /\ chronological t later
  end.

(** [q] is a double: rounding leaves it as it is. *)
Definition representable (q : Q) : Prop := (Double.round q == q)%Q.

(** The limiter's parameters are sensible doubles and its bucket is a
    double between the debt of one token and its capacity. *)
Definition wellFormed (rl : RateLimiter) : Prop :=
  (0 <= maxRequests rl)%Q /\ representable (maxRequests rl)
  /\ (0 < perSeconds rl)%Q
  /\ (-1 <= tokens rl)%Q /\ (tokens rl <= maxRequests rl)%Q
  /\ representable (tokens rl).

Definition count (n : nat) : Q := inject_Z (Z.of_nat n).

(** The most one turn's roundings add to the bucket. *)
Definition slack (rl : RateLimiter) : Q :=
  (Double.eps * (3 * maxRequests rl + 1))%Q.

(** What three roundings can multiply a number by. *)
Abbreviation growth :=
  ((1 + Double.eps) * (1 + Double.eps) * (1 + Double.eps))%Q.

(** The most a millisecond refills, the three roundings of [refillAmount]
    included. *)
Definition ratePerMs (rl : RateLimiter) : Q :=
  (maxRequests rl / perSeconds rl * growth / 1000)%Q.

(** What [dt] milliseconds can add to the bucket. *)
Definition allowance (rl : RateLimiter) (dt : Z) : Q :=
  ((ratePerMs rl + slack rl) * inject_Z dt)%Q.

(** The bucket after the refill of a turn at [now]. *)
Definition filledAt (rl : RateLimiter) (now : Z) : Q :=
  Qmin (maxRequests rl)
       (Double.add (tokens rl) (refillAmount rl (now - lastRefilled rl))).

(** A burst: twenty turns at time 0 and ten more 500 ms later. *)
Definition burst : list Z := repeat 0%Z 20 ++ repeat 500%Z 10.

(** Twenty turns at time 0, one every 50 ms up to 950, one at 983 and one
    at 1000. *)
Definition steady : list Z :=
  repeat 0%Z 20 ++ map (fun k => (50 * Z.of_nat k)%Z) (seq 1 19)
  ++ [983; 1000]%Z.

End RateLimiterDefs.

Module DispatchDefs.
Import Transaction.
Local Open Scope string_scope.

(** Sample data: three targets, a node on which every transfer to [T2] is
    rejected, and three states of the dispatch wallet: funded with
    0.032 SOL, holding 0.002 SOL, and with a balance that cannot be read.
    The library encodes the amounts that are whole numbers of lamports. *)
Definition sampleSettings : Settings :=
  {| minSolTarget := 1 # 100; maxTargets := 10; amountToSend := 1 # 100 |}.

(** The settings with [amountToSend = 0.0041]. *)
Definition fractionalSettings : Settings :=
  {| minSolTarget := 1 # 100; maxTargets := 10;
     amountToSend := 41 # 10000 |}.

Definition sampleKeypair : Keypair :=
  {| keypairPublicKey := "Generated"; keypairSecretKey := "secret" |}.

Definition sampleTargets : list Target :=
  [ {| publicKey := "T1"; balance := 1 # 2 |};
    {| publicKey := "T2"; balance := 2 |};
    {| publicKey := "T3"; balance := 1 # 50 |} ].

Definition rejectT2 (index : nat) (to : string) : option TransferError :=
  if String.eqb to "T2"
  then Some {| message := "insufficient funds";
               sendTransactionLogs := Some ["log line"] |}
  else None.

Definition fundedChain : Chain :=
  {| balanceOf := fun _ => Some 32000000%Z; transfer := rejectT2;
     encodes := Double.isInteger |}.

Definition unfundedChain : Chain :=
  {| balanceOf := fun _ => Some 2000000%Z; transfer := rejectT2;
     encodes := Double.isInteger |}.

Definition unreachableChain : Chain :=
  {| balanceOf := fun _ => None; transfer := rejectT2;
     encodes := Double.isInteger |}.

(** The rent-floor test of line 135. *)
Definition belowRentFloor (chain : Chain) (generatedKeypair : Keypair) : bool :=
  negb (Qle_bool minBalanceForRent
          (toNumber (fetchGeneratedWalletBalance chain
                       (keypairPublicKey generatedKeypair)))).

(** What the [index]-th promise resolves to. *)
Definition outcomeOf (chain : Chain) (index : nat) (t : Target)
  (o : DispatchOutcome) : Prop :=
  target o = publicKey t /\
  match transfer chain index (publicKey t) with
  | None => success o = true /\ error o = None
  | Some e => success o = false /\ error o = Some (message e)
              /\ logs o = Some match sendTransactionLogs e with
                                | Some l => l
                                | None => []
                                end
  end.

End DispatchDefs.

Module TargetDefs.
Import Transaction.

(** An address the history loops may keep: not on the exclusion list, not
    the default key, not the active wallet. *)
Definition screenedKey (activeWallet key : string) : Prop :=
  ~ In key EXCLUDED_ADDRESSES /\ key <> PublicKey_default
  /\ key <> activeWallet.

(** The record pushed at line 122. *)
Definition activeTarget (ledger : Ledger) (activeWallet : string) : Target :=
  {| publicKey := activeWallet;
     balance := toSol (getBalance ledger activeWallet) |}.

(** What the cut of line 126 keeps: the first [maxTargets] entries, or,
    for a negative [maxTargets], all but the last [- maxTargets]. *)
Definition kept (maxTargets : Z) (len : nat) : nat :=
  if (maxTargets <? 0)%Z then (len - Z.to_nat (- maxTargets))%nat
  else Z.to_nat maxTargets.

(** No more than [maxTargets] entries, for a [maxTargets] that is not
    negative. *)
Definition capped (settings : Settings) (targets : list Target) : Prop :=
  (Z.of_nat (List.length targets) <= maxTargets settings)%Z.

(** No entry other than the active wallet is on the exclusion list or is
    the default key. *)
Definition screened (activeWallet : string) (targets : list Target) : Prop :=
  forall t, In t targets -> publicKey t <> activeWallet ->
    ~ In (publicKey t) EXCLUDED_ADDRESSES /\ publicKey t <> PublicKey_default.

(** Sample nodes.  On [quietLedger] the active wallet has no history and
    every account holds 5 SOL; on [busyLedger] one transaction names two
    peers, the active wallet and the default key. *)
Definition quietLedger : Ledger :=
  {| getSignaturesForAddress := fun _ _ => [];
     getTransaction := fun _ => None;
     getAccountInfo := fun _ => None;
     getBalance := fun _ => 5000000000%Z |}.

Definition busyLedger : Ledger :=
  {| getSignaturesForAddress := fun _ _ => ["sig1"%string];
     getTransaction := fun _ =>
       Some ["Peer1"; "Active"; "11111111111111111111111111111111";
             "Peer2"; "Peer1"; "Peer3"]%string;
     getAccountInfo := fun _ => Some false;
     getBalance := fun address =>
       if String.eqb address "Peer1" then 500000000%Z
       else if String.eqb address "Peer2" then 5000000%Z
       else 2000000000%Z |}.

Definition defaultSettings : Settings :=
  {| minSolTarget := 1 # 100; maxTargets := 10; amountToSend := 1 # 100 |}.

Definition negativeSettings : Settings :=
  {| minSolTarget := 1 # 100; maxTargets := -1; amountToSend := 1 # 100 |}.

Definition tokenProgram : string :=
  "TokenkegQfeZyiNwAJbNbGKPFXCWuBvf9Ss623VQ5DA".

(** A session of three [getTargets] calls, the clock passing the budget
    at its third reading, the operator accepting the relaxed pass. *)
Definition sampleSession : Session :=
  {| clock := fun n => (Z.of_nat n * 6000)%Z;
     ledgerAt := fun _ => busyLedger;
     lowerMinSol := true |}.

End TargetDefs.

Module IngestionDefs.
Import Generation Ingestion.

(** Every entry of the pool sits under the public key of its keypair. *)
Definition keyed (pool : Pool) : Prop :=
  forall entry, In entry pool -> publicKey (snd entry) = fst entry.

(** The keys of a map, in insertion order. *)
Definition keys {V : Type} (m : list (string * V)) : list string :=
  map fst m.

(** [balance >= MINIMUM_BALANCE] holds for what the node answers. *)
Definition meetsThreshold (minSolActive : Q) (node : Node) (address : string)
  : Prop :=
  exists balance,
    balanceAt node address = Some balance
    /\ (MINIMUM_BALANCE minSolActive <= inject_Z balance)%Q.

(** The collections agree with each other: the active set holds each
    address once and no excluded one, the exploration queue holds active
    addresses only, and every match record links an active address with a
    key of the pool, no pair having two records. *)
Definition consistent (st : State) : Prop :=
  NoDup (keys (activeAddresses st))
  /\ (forall a, In a (addressesToExplore st) ->
        JSMap.has (activeAddresses st) a = true)
  /\ (forall a, JSMap.has (activeAddresses st) a = true ->
        ~ In a EXCLUDED_ADDRESSES)
  /\ (forall r, In r (similarAddresses st) ->
        JSMap.has (activeAddresses st) (activeAddress r) = true
        /\ JSMap.has (generatedKeypairs st) (generatedPublicKey r) = true)
  /\ GenerationDefs.pairsUnique (similarAddresses st).

(** The account keys listed in the transactions of a block. *)
Fixpoint keyCount (transactions : list BlockTransaction) : nat :=
  match transactions with
  | [] => 0
  | WithKeys accountKeys :: rest =>
      List.length accountKeys + keyCount rest
  | _ :: rest => keyCount rest
  end.

Definition blockKeys (block : option (list BlockTransaction)) : nat :=
  match block with
  | Some transactions => keyCount transactions
  | None => 0
  end.

(** The bucket holds [k] tokens and the clock, which starts no earlier
    than the limiter's last refill, has [k] readings: the next [k] calls of
    [waitForToken] find a token. *)
Definition stocked (rl : RateLimiter) (clock : list Z) (k : nat) : Prop :=
  RateLimiterDefs.wellFormed rl
  /\ (maxRequests rl <= 9007199254740992)%Q
  /\ RateLimiterDefs.chronological (lastRefilled rl) clock
  /\ (k <= List.length clock)%nat
  /\ (inject_Z (Z.of_nat k) <= tokens rl)%Q.

(** The entry of [address] after a re-check: the balance and the stamp the
    node answers when that balance meets the threshold, the entry it had
    before otherwise. *)
Definition rechecked (minSolActive : Q) (node : Node)
  (before after : ActiveSet) (address : string) : Prop :=
  (forall balance,
     balanceAt node address = Some balance ->
     (MINIMUM_BALANCE minSolActive <= inject_Z balance)%Q ->
     JSMap.get after address
     = Some {| balance := (inject_Z balance / 1000000000)%Q;
               activity := stamp node |})
  /\ (~ meetsThreshold minSolActive node address ->
      JSMap.get after address = JSMap.get before address).

(** A fresh start: scanning on, nothing collected, the limiter full. *)
Definition freshState (pool : Pool) : State :=
  {| autoMode := true;
     generatedKeypairs := pool;
     activeAddresses := [];
     similarAddresses := [];
     addressesToExplore := [];
     limiter := rateLimiter 0 |}.

(** A node on which ["Rich"] holds 2 SOL, ["Vote111..."] 5 SOL, every
    other account 0.5 SOL, except ["Lost"], whose balance cannot be
    read. *)
Definition sampleNode : Node :=
  {| balanceAt := fun a =>
       if String.eqb a "Lost" then None
       else if String.eqb a "Rich" then Some 2000000000%Z
       else if String.eqb a "Vote111111111111111111111111111111111111111"
            then Some 5000000000%Z
       else Some 500000000%Z;
     stamp := "2024-01-01T00:00:00.000Z" |}.

(** The node a while later: ["Rich"] holds 3 SOL, every other account
    0.5 SOL. *)
Definition laterNode : Node :=
  {| balanceAt := fun a =>
       if String.eqb a "Rich" then Some 3000000000%Z else Some 500000000%Z;
     stamp := "2024-01-01T00:05:00.000Z" |}.

Definition sampleKeys : list string :=
  [ "Poor"; "Rich"; "Vote111111111111111111111111111111111111111";
    "Lost"; "Rich" ]%string.

Definition sampleClock : list Z := repeat 0%Z 10.

(** The state [checkAndAddAddress] leaves for ["Rich"]. *)
Definition sampleChecked : State :=
  match checkAndAddAddress 1 sampleNode (freshState []) sampleClock "Rich" with
  | Some (_, st, _) => st
  | None => freshState []
  end.

(** The state a turn of [exploreAddresses] leaves when the block it
    fetches holds one transaction with the sample keys. *)
Definition sampleTurn : State :=
  match exploreTurn 1 sampleNode sampleNode true
          (Some [WithKeys sampleKeys]) (freshState []) sampleClock with
  | Some (st, _) => st
  | None => freshState []
  end.

(** The state the key loop leaves on the sample data. *)
Definition sampleIngested : State :=
  match ingestKeys 1 sampleNode (freshState []) sampleClock sampleKeys with
  | Some (st, _) => st
  | None => freshState []
  end.

End IngestionDefs.

Module CorrelatorDefs.
Import Generation GenerationDefs.

(** A record links an active address of [actives] with a keypair of
    [pool], carries that keypair's secret, and its two keys pass the test
    of line 90. *)
Definition linked (pool : Pool) (actives : ActiveSet) (r : SimilarAddress)
  : Prop :=
  In (activeAddress r) (map fst actives)
  /\ (exists kd, In (generatedPublicKey r, kd) pool
                 /\ generatedSecretKey r = secretKey kd)
  /\ substring 0 4 (activeAddress r) = substring 0 4 (generatedPublicKey r).

End CorrelatorDefs.

Module LimiterDefs.
Import Generation.

(** The limiter after the turns taken at [times]. *)
Fixpoint limiterAfter (rl : RateLimiter) (times : list Z) : RateLimiter :=
  match times with
  | [] => rl
  | now :: later => limiterAfter (snd (attempt rl now)) later
  end.

(** The last reading of [clock], [from] when there is none. *)
Fixpoint lastReading (from : Z) (clock : list Z) : Z :=
  match clock with
  | [] => from
  | t :: later => lastReading t later
  end.

(** The turns granted, and the bucket after each turn. *)
Fixpoint history (rl : RateLimiter) (times : list Z)
  : list Z * list (option Q) :=
  match times with
  | [] => ([], [])
  | now :: later =>
      let (granted, rl') := attempt rl now in
      let (grants, buckets) := history rl' later in
      (if granted then now :: grants else grants,
       Some (Qred (tokens rl')) :: buckets)
  end.

(** Three hundred turns, crowded at first and further and further
    apart. *)
Definition irregular : list Z :=
  map (fun k => (Z.of_nat k * Z.of_nat k / 7)%Z) (seq 0 300).

(** Quotients of integers that are not doubles. *)
Definition ratios : list (Z * Z) :=
  [ (1, 10); (2, 10); (1, 3); (2, 3); (33, 1000); (41, 10000);
    (2, 1000); (203928, 100000000); (13093, 1000000000);
    (983, 1000); (17, 1000) ]%Z.

(** Twenty turns at time 0, one at 33 ms and one at 50 ms. *)
Definition drain : list Z := repeat 0%Z 20 ++ [33; 50]%Z.

End LimiterDefs.

Module OperatorDefs.
Import Generation GenerationDefs.

(** Two active addresses that share their first four characters with
    one generated key. *)
Definition twinActives : ActiveSet :=
  [ ("ABCD1111", {| balance := 2; activity := "t0" |});
    ("ABCD2222", {| balance := 7; activity := "t1" |}) ]%string.

Definition twinPool : Pool := [keypairOf "ABCDgggg"].

Definition twinMatches : MatchSet :=
  checkForExistingSimilarities twinPool twinActives [].

(** The entry logged for the dispatch of the sample targets from the
    funded wallet. *)
Definition sampleEntry : Transaction.LogEntry :=
  let entry :=
    Transaction.logTransactionDetails DispatchDefs.fundedChain "now" "Main"
      DispatchDefs.sampleKeypair "Active" DispatchDefs.sampleTargets in
  match Transaction.dispatchAndLog DispatchDefs.sampleSettings
          DispatchDefs.fundedChain DispatchDefs.fundedChain "now" "Main"
          DispatchDefs.sampleKeypair "Active" DispatchDefs.sampleTargets with
  | Some e => e
  | None => entry []
  end.

(** A node on which every wallet holds [lamports]. *)
Definition fundedWith (lamports : Z) : Transaction.Chain :=
  {| Transaction.balanceOf := fun _ => Some lamports;
     Transaction.transfer := DispatchDefs.rejectT2;
     Transaction.encodes := Double.isInteger |}.

(** The settings with a given [amountToSend]. *)
Definition amountOf (amount : Q) : Transaction.Settings :=
  {| Transaction.minSolTarget := 1 # 100; Transaction.maxTargets := 10;
     Transaction.amountToSend := amount |}.

End OperatorDefs.

Module DataDefs.
Import Generation Data.

(** The four [save...] calls, one after the other. *)
Definition saveAll (store : Store) (files : Files) : Files :=
  saveTargetAddresses store
    (saveSimilarAddresses store
       (saveGeneratedKeypairs store (saveActiveAddresses store files))).

(** The maps of a store hold each key once, and the pool holds each
    keypair under its public key. *)
Definition wellKeyed (store : Store) : Prop :=
  NoDup (map fst (activeAddresses store))
  /\ NoDup (map fst (generatedKeypairs store))
  /\ (forall entry, In entry (generatedKeypairs store) ->
        publicKey (snd entry) = fst entry)
  /\ NoDup (map fst (targetAddresses store)).

Definition emptyFiles : Files :=
  {| activeFile := []; generatedFile := []; similarFile := [];
     targetFile := [] |}.

Definition sampleStore : Store :=
  {| activeAddresses :=
       [("Rich", {| balance := 2; activity := "t0" |})]%string;
     generatedKeypairs :=
       [("K1", {| publicKey := "K1"; secretKey := "s1" |})]%string;
     similarAddresses := [];
     targetAddresses :=
       [("Old", {| balance := 1; activity := "t0" |})]%string |}.

End DataDefs.

Module LoggerDefs.
Import Logger.

(** The logger after a sequence of events. *)
Definition after (events : list Event) : LogState :=
  fold_left step events initial.

(** [n] fade timers fire. *)
Fixpoint fadeAll (n : nat) (st : LogState) : LogState :=
  match n with
  | O => st
  | S n' => fadeAll n' (fade st)
  end.

End LoggerDefs.


(** * Properties *)

(** ** Facts about the built-ins *)

Module JSFacts.

Lemma slice_from_start {A : Type} (l : list A) (n : Z) :
  (0 <= n)%Z -> JS.slice l 0 (Some n) = firstn (Z.to_nat n) l.
Proof.
  intros Hn. unfold JS.slice, JS.relativeIndex.
  assert (H0 : (0 <? 0)%Z = false) by reflexivity. rewrite H0.
  destruct (n <? 0)%Z eqn:Hneg; [apply Z.ltb_lt in Hneg; lia|].
  replace (Z.to_nat (Z.min 0 (Z.of_nat (List.length l)))) with 0%nat by lia.
  cbn [skipn].
  destruct (Z.le_ge_cases n (Z.of_nat (List.length l))) as [Hle | Hge].
  - f_equal. lia.
  - replace (Z.to_nat (Z.min n (Z.of_nat (List.length l)) -
                       Z.min 0 (Z.of_nat (List.length l))))
      with (List.length l) by lia.
    rewrite firstn_all. symmetry. apply firstn_all2. lia.
Qed.

Lemma slice_negative_end {A : Type} (l : list A) (n : Z) :
  (n < 0)%Z ->
  JS.slice l 0 (Some n) = firstn (List.length l - Z.to_nat (- n)) l.
Proof.
  intros Hn. unfold JS.slice, JS.relativeIndex.
  assert (H0 : (0 <? 0)%Z = false) by reflexivity. rewrite H0.
  destruct (n <? 0)%Z eqn:Hneg; [|apply Z.ltb_ge in Hneg; lia].
  replace (Z.to_nat (Z.min 0 (Z.of_nat (List.length l)))) with 0%nat by lia.
  cbn [skipn]. f_equal. lia.
Qed.

Lemma substring_firstn (n : nat) (s : string) :
  substring 0 n s = string_of_list_ascii (firstn n (list_ascii_of_string s)).
Proof.
  revert s. induction n as [|n IH]; intros [|c s]; cbn; try reflexivity.
  now rewrite IH.
Qed.

Lemma strSlice_from_start (s : string) (n : nat) :
  JS.strSlice s 0 (Some (Z.of_nat n)) = substring 0 n s.
Proof.
  unfold JS.strSlice. rewrite slice_from_start by lia.
  rewrite Nat2Z.id. symmetry. apply substring_firstn.
Qed.

Lemma substring_substring (n m : nat) (s : string) :
  (n <= m)%nat -> substring 0 n (substring 0 m s) = substring 0 n s.
Proof.
  revert m s. induction n as [|n IH]; intros m s Hle.
  - now destruct (substring 0 m s), s.
  - destruct m as [|m]; [lia|]. destruct s as [|c s]; cbn; [reflexivity|].
    rewrite IH by lia. reflexivity.
Qed.

Lemma includes_In (l : list string) (x : string) :
  JS.includes l x = true <-> In x l.
Proof.
  unfold JS.includes. rewrite existsb_exists. split.
  - intros [y [Hy Heq]]. apply String.eqb_eq in Heq. now subst.
  - intros Hin. exists x. split; [assumption | apply String.eqb_refl].
Qed.

Lemma includes_false (l : list string) (x : string) :
  JS.includes l x = false <-> ~ In x l.
Proof.
  rewrite <- includes_In. destruct (JS.includes l x); split; congruence.
Qed.

Lemma setAdd_In (set : list string) (x y : string) :
  In y (JS.setAdd set x) <-> In y set \/ y = x.
Proof.
  unfold JS.setAdd. destruct (JS.includes set x) eqn:E.
  - apply includes_In in E. split; [now left|]. intros [H | ->]; assumption.
  - rewrite in_app_iff. cbn. intuition congruence.
Qed.

Lemma setAdd_NoDup (set : list string) (x : string) :
  NoDup set -> NoDup (JS.setAdd set x).
Proof.
  intros Hnd. unfold JS.setAdd. destruct (JS.includes set x) eqn:E.
  - assumption.
  - apply includes_false in E.
    apply NoDup_app; [assumption | repeat constructor; intros [] | ].
    intros y Hy [<- | []]. contradiction.
Qed.

Lemma mapFrom_length {A B : Type} (f : nat -> A -> B) (i : nat) (l : list A) :
  List.length (JS.mapFrom f i l) = List.length l.
Proof.
  revert i. induction l as [|x l IH]; intros i; cbn; [reflexivity|].
  now rewrite IH.
Qed.

Lemma mapFrom_nth_error {A B : Type} (f : nat -> A -> B) (i k : nat)
  (l : list A) :
  nth_error (JS.mapFrom f i l) k = option_map (f (i + k)%nat) (nth_error l k).
Proof.
  revert i k. induction l as [|x l IH]; intros i [|k]; cbn; try reflexivity.
  - now rewrite Nat.add_0_r.
  - rewrite IH. now rewrite Nat.add_succ_r.
Qed.

End JSFacts.

(** ** Rounding to a double *)

Module DoubleFacts.
Import Double.
Local Open Scope Q_scope.

Lemma pow2_pos (k : Z) : 0 < pow2 k.
Proof. apply Qpower_0_lt. reflexivity. Qed.

Lemma pow2_add (a b : Z) : pow2 (a + b) == pow2 a * pow2 b.
Proof. apply Qpower_plus. discriminate. Qed.

Lemma pow2_le (a b : Z) : (a <= b)%Z -> pow2 a <= pow2 b.
Proof. intros H. apply Qpower_le_compat_l; [exact H | discriminate]. Qed.

Lemma pow2_lt (a b : Z) : (a < b)%Z -> pow2 a < pow2 b.
Proof. intros H. apply Qpower_lt_compat_l; [exact H | reflexivity]. Qed.

Lemma pow2_lt_inv (a b : Z) : pow2 a < pow2 b -> (a < b)%Z.
Proof. intros H. apply (Qpower_lt_compat_l_inv 2); [exact H | reflexivity]. Qed.

Lemma pow2_Z (n : Z) : (0 <= n)%Z -> pow2 n == inject_Z (2 ^ n).
Proof.
  intros H. unfold pow2. rewrite Zpower_Qpower by exact H. reflexivity.
Qed.

Lemma pow2_succ (a : Z) : pow2 (a + 1) == 2 * pow2 a.
Proof. rewrite pow2_add. change (pow2 1) with 2. ring. Qed.

Lemma pow2_sub_mul (a b : Z) : pow2 (a - b) * pow2 b == pow2 a.
Proof.
  rewrite <- pow2_add. replace (a - b + b)%Z with a by ring. reflexivity.
Qed.

Lemma Qpos_num (q : Q) : 0 < q <-> (0 < Qnum q)%Z.
Proof. destruct q as [a b]. unfold Qlt. cbn. lia. Qed.

Lemma exponent_spec (q : Q) :
  0 < q -> pow2 (exponent q) <= q /\ q < pow2 (exponent q + 1).
Proof.
  intros Hq. unfold exponent.
  set (a := Qnum q). set (b := Z.pos (Qden q)).
  set (la := Z.log2 a). set (lb := Z.log2 b).
  assert (Ha : (0 < a)%Z) by (apply Qpos_num; exact Hq).
  assert (Hb : (0 < b)%Z) by (unfold b; lia).
  destruct (Z.log2_spec a Ha) as [Ha1 Ha2].
  destruct (Z.log2_spec b Hb) as [Hb1 Hb2].
  fold la in Ha1, Ha2. fold lb in Hb1, Hb2.
  assert (Hla : (0 <= la)%Z) by apply Z.log2_nonneg.
  assert (Hlb : (0 <= lb)%Z) by apply Z.log2_nonneg.
  assert (HA1 : pow2 la <= inject_Z a)
    by (rewrite pow2_Z by lia; rewrite <- Zle_Qle; exact Ha1).
  assert (HA2 : inject_Z a < pow2 (la + 1))
    by (rewrite pow2_Z by lia; rewrite <- Zlt_Qlt; exact Ha2).
  assert (HB1 : pow2 lb <= inject_Z b)
    by (rewrite pow2_Z by lia; rewrite <- Zle_Qle; exact Hb1).
  assert (HB2 : inject_Z b < pow2 (lb + 1))
    by (rewrite pow2_Z by lia; rewrite <- Zlt_Qlt; exact Hb2).
  assert (Hqab : q * inject_Z b == inject_Z a).
  { unfold a, b. clear. destruct q as [qa qb]. unfold Qeq. cbn. lia. }
  assert (HB0 : 0 < inject_Z b) by (rewrite <- (Zlt_Qlt 0); exact Hb).
  pose proof (pow2_sub_mul la lb) as E1.
  pose proof (pow2_sub_mul (la - lb + 1) lb) as E2.
  pose proof (pow2_pos (la - lb)) as P1.
  pose proof (pow2_pos lb) as P2.
  pose proof (pow2_succ (la - lb)) as S1.
  pose proof (pow2_succ la) as S2.
  pose proof (pow2_succ lb) as S3.
  pose proof (pow2_succ (la - lb - 1)) as S4.
  replace (la - lb - 1 + 1)%Z with (la - lb)%Z in S4 by ring.
  replace (la - lb + 1 - lb)%Z with (la - lb - lb + 1)%Z in E2 by ring.
  pose proof (pow2_pos (la - lb - 1)) as P3.
  destruct (Qle_bool (pow2 (la - lb)) q) eqn:Hc.
  - apply Qle_bool_iff in Hc. split; [exact Hc |].
    rewrite S1.
    (* q * b = a < 2 * 2^la = 2 * 2^(la-lb) * 2^lb <= 2 * 2^(la-lb) * b *)
    apply Qnot_le_lt. intros Hn.
    assert (2 * pow2 (la - lb) * inject_Z b <= q * inject_Z b)
      by (apply Qmult_le_compat_r; [exact Hn | apply Qlt_le_weak; exact HB0]).
    assert (2 * pow2 (la - lb) * pow2 lb <= 2 * pow2 (la - lb) * inject_Z b).
    { rewrite !(Qmult_comm (2 * pow2 (la - lb))).
      apply Qmult_le_compat_r; [exact HB1 | lra]. }
    lra.
  - assert (Hlt : q < pow2 (la - lb)).
    { apply Qnot_le_lt. intros Hn. apply Qle_bool_iff in Hn. congruence. }
    replace (la - lb - 1 + 1)%Z with (la - lb)%Z by ring.
    split; [| exact Hlt].
    apply Qnot_lt_le. intros Hn.
    assert (q * inject_Z b < pow2 (la - lb - 1) * inject_Z b)
      by (apply Qmult_lt_compat_r; [exact HB0 | exact Hn]).
    assert (pow2 (la - lb - 1) * inject_Z b
            <= pow2 (la - lb - 1) * pow2 (lb + 1)).
    { rewrite !(Qmult_comm (pow2 (la - lb - 1))).
      apply Qmult_le_compat_r; [apply Qlt_le_weak; exact HB2 | lra]. }
    assert (pow2 (la - lb - 1) * pow2 (lb + 1) == pow2 la).
    { rewrite <- pow2_add. replace (la - lb - 1 + (lb + 1))%Z with la by ring.
      reflexivity. }
    lra.
Qed.

Lemma exponent_unique (q : Q) (e : Z) :
  pow2 e <= q -> q < pow2 (e + 1) -> exponent q = e.
Proof.
  intros H1 H2.
  assert (Hq : 0 < q) by (pose proof (pow2_pos e); lra).
  destruct (exponent_spec q Hq) as [H3 H4].
  assert ((e < exponent q + 1)%Z) by (apply pow2_lt_inv; lra).
  assert ((exponent q < e + 1)%Z) by (apply pow2_lt_inv; lra).
  lia.
Qed.

Lemma exponent_comp (x y : Q) : 0 < x -> x == y -> exponent x = exponent y.
Proof.
  intros Hx E. symmetry. destruct (exponent_spec x Hx) as [H1 H2].
  apply exponent_unique; rewrite <- E; assumption.
Qed.

Lemma exponent_mono (x y : Q) : 0 < x -> x <= y -> (exponent x <= exponent y)%Z.
Proof.
  intros Hx Hxy.
  destruct (exponent_spec x Hx) as [H1 _].
  destruct (exponent_spec y) as [_ H2]; [lra |].
  assert ((exponent x < exponent y + 1)%Z) by (apply pow2_lt_inv; lra).
  lia.
Qed.

(** *** Rounding to an integer *)

Ltac compared H :=
  match type of H with
  | Qcompare _ _ = Eq => apply Qeq_alt in H
  | Qcompare _ _ = Lt => apply Qlt_alt in H
  | Qcompare _ _ = Gt => apply Qgt_alt in H
  end.

Lemma roundEven_cases (m : Q) :
  let f := Qfloor m in
  (roundEven m = f /\ m - inject_Z f <= 1 # 2) \/
  (roundEven m = (f + 1)%Z /\ 1 # 2 <= m - inject_Z f).
Proof.
  cbv zeta. unfold roundEven.
  destruct (Qcompare (m - inject_Z (Qfloor m)) (1 # 2)) eqn:E.
  - apply Qeq_alt in E. destruct (Z.even (Qfloor m)); [left | right]; split;
      try reflexivity; lra.
  - apply Qlt_alt in E. left. split; [reflexivity | lra].
  - apply Qgt_alt in E. right. split; [reflexivity | lra].
Qed.

Lemma floor_bounds (m : Q) :
  inject_Z (Qfloor m) <= m /\ m < inject_Z (Qfloor m) + 1.
Proof.
  split; [apply Qfloor_le |].
  pose proof (Qlt_floor m) as H. rewrite inject_Z_plus in H. exact H.
Qed.

Lemma roundEven_error (m : Q) :
  m - (1 # 2) <= inject_Z (roundEven m)
  /\ inject_Z (roundEven m) <= m + (1 # 2).
Proof.
  pose proof (floor_bounds m) as [F1 F2].
  destruct (roundEven_cases m) as [[-> H] | [-> H]].
  - lra.
  - rewrite inject_Z_plus. change (inject_Z 1) with 1. lra.
Qed.

Lemma roundEven_comp (x y : Q) : x == y -> roundEven x = roundEven y.
Proof.
  intros E. unfold roundEven.
  rewrite (Qfloor_comp _ _ E).
  assert (E' : x - inject_Z (Qfloor y) == y - inject_Z (Qfloor y))
    by (rewrite E; reflexivity).
  rewrite (Qcompare_comp _ _ E' _ _ (Qeq_refl (1 # 2))). reflexivity.
Qed.

Lemma roundEven_Z (z : Z) : roundEven (inject_Z z) = z.
Proof.
  unfold roundEven. rewrite Qfloor_Z.
  assert (E : Qcompare (inject_Z z - inject_Z z) (1 # 2) = Lt) 
    by (apply Qlt_alt; setoid_replace (inject_Z z - inject_Z z) with 0 by ring;
        reflexivity).
  rewrite E. reflexivity.
Qed.

Lemma roundEven_mono (x y : Q) : x <= y -> (roundEven x <= roundEven y)%Z.
Proof.
  intros Hxy.
  pose proof (Qfloor_resp_le _ _ Hxy) as Hf.
  pose proof (floor_bounds x) as [X1 X2].
  pose proof (floor_bounds y) as [Y1 Y2].
  destruct (Z.eq_dec (Qfloor x) (Qfloor y)) as [E | NE].
  - unfold roundEven. rewrite E.
    destruct (Qcompare (x - inject_Z (Qfloor y)) (1 # 2)) eqn:Ex;
      destruct (Qcompare (y - inject_Z (Qfloor y)) (1 # 2)) eqn:Ey;
      try (destruct (Z.even (Qfloor y))); try lia;
      compared Ex; compared Ey; exfalso; lra.
  - assert ((Qfloor x + 1 <= Qfloor y)%Z) by lia.
    destruct (roundEven_cases x) as [[-> _] | [-> _]];
      destruct (roundEven_cases y) as [[-> _] | [-> _]]; lia.
Qed.


(** *** Rounding to a double *)

Lemma ulp_pos (q : Q) : 0 < ulp q.
Proof. apply pow2_pos. Qed.

Lemma ulp_exponent (q : Q) : inject_Z (2 ^ 52) * ulp q == pow2 (exponent q).
Proof.
  unfold ulp. rewrite <- (pow2_Z 52) by lia. rewrite <- pow2_add.
  replace (52 + (exponent q - 52))%Z with (exponent q) by ring. reflexivity.
Qed.

Lemma ulp_exponent_succ (q : Q) :
  inject_Z (2 ^ 53) * ulp q == pow2 (exponent q + 1).
Proof.
  unfold ulp. rewrite <- (pow2_Z 53) by lia. rewrite <- pow2_add.
  replace (53 + (exponent q - 52))%Z with (exponent q + 1)%Z by ring.
  reflexivity.
Qed.

Lemma scaled_bounds (q : Q) :
  0 < q ->
  inject_Z (2 ^ 52) <= q / ulp q /\ q / ulp q < inject_Z (2 ^ 53).
Proof.
  intros Hq. destruct (exponent_spec q Hq) as [H1 H2].
  pose proof (ulp_pos q) as Hu.
  split.
  - apply Qle_shift_div_l; [exact Hu |]. rewrite ulp_exponent. exact H1.
  - apply Qlt_shift_div_r; [exact Hu |]. rewrite ulp_exponent_succ. exact H2.
Qed.

Lemma significand_range (q : Q) :
  0 < q -> (2 ^ 52 <= roundEven (q / ulp q) <= 2 ^ 53)%Z.
Proof.
  intros Hq. destruct (scaled_bounds q Hq) as [H1 H2].
  split.
  - rewrite <- (roundEven_Z (2 ^ 52)). apply roundEven_mono. exact H1.
  - rewrite <- (roundEven_Z (2 ^ 53)). apply roundEven_mono.
    apply Qlt_le_weak. exact H2.
Qed.

Lemma roundPositive_eq (q : Q) :
  roundPositive q == inject_Z (roundEven (q / ulp q)) * ulp q.
Proof. unfold roundPositive. apply Qred_correct. Qed.

Lemma roundPositive_comp (x y : Q) :
  0 < x -> x == y -> roundPositive x = roundPositive y.
Proof.
  intros Hx E. unfold roundPositive, ulp.
  rewrite (exponent_comp x y Hx E).
  rewrite (roundEven_comp (x / pow2 (exponent y - 52))
                          (y / pow2 (exponent y - 52)))
    by (rewrite E; reflexivity).
  reflexivity.
Qed.

Lemma roundPositive_pos (q : Q) : 0 < q -> 0 < roundPositive q.
Proof.
  intros Hq. rewrite roundPositive_eq.
  pose proof (significand_range q Hq) as [H1 _].
  pose proof (ulp_pos q) as Hu.
  assert (0 < inject_Z (roundEven (q / ulp q))).
  { rewrite <- (Zlt_Qlt 0). lia. }
  apply Qmult_lt_0_compat; assumption.
Qed.

Lemma eps_pow2 : eps == pow2 (-53).
Proof. reflexivity. Qed.

Lemma roundPositive_error (q : Q) :
  0 < q ->
  q * (1 - eps) <= roundPositive q /\ roundPositive q <= q * (1 + eps).
Proof.
  intros Hq. rewrite roundPositive_eq.
  pose proof (ulp_pos q) as Hu.
  destruct (exponent_spec q Hq) as [H1 _].
  destruct (roundEven_error (q / ulp q)) as [E1 E2].
  set (n := inject_Z (roundEven (q / ulp q))) in *.
  assert (Hm : q / ulp q * ulp q == q) by (field; lra).
  assert (Hhalf : (1 # 2) * ulp q <= eps * q).
  { assert (E : (1 # 2) * ulp q == eps * pow2 (exponent q)).
    { rewrite <- ulp_exponent. change (inject_Z (2 ^ 52)) with 4503599627370496.
      unfold eps. field. }
    rewrite E. apply Qmult_le_l; [reflexivity | exact H1]. }
  assert (L : (q / ulp q - (1 # 2)) * ulp q <= n * ulp q)
    by (apply Qmult_le_compat_r; [exact E1 | lra]).
  assert (U : n * ulp q <= (q / ulp q + (1 # 2)) * ulp q)
    by (apply Qmult_le_compat_r; [exact E2 | lra]).
  split; lra.
Qed.

Lemma Qnum_sign (x y : Q) :
  x == y ->
  match Qnum x, Qnum y with
  | Z0, Z0 | Zpos _, Zpos _ | Zneg _, Zneg _ => True
  | _, _ => False
  end.
Proof.
  destruct x as [a b], y as [c d]. unfold Qeq. cbn.
  destruct a, c; intros H; try exact I; lia.
Qed.

Lemma round_comp (x y : Q) : x == y -> round x = round y.
Proof.
  intros E. pose proof (Qnum_sign x y E) as S. unfold round.
  destruct (Qnum x) eqn:Ex, (Qnum y) eqn:Ey; try contradiction.
  - reflexivity.
  - apply roundPositive_comp; [apply Qpos_num; lia | exact E].
  - f_equal. apply roundPositive_comp.
    + apply Qpos_num. destruct x as [a b]. cbn in *. lia.
    + rewrite E. reflexivity.
Qed.

#[global] Instance round_proper : Proper (Qeq ==> Qeq) round.
Proof. intros x y E. rewrite (round_comp x y E). reflexivity. Qed.

Lemma round_of_pos (q : Q) : 0 < q -> round q = roundPositive q.
Proof.
  intros Hq. apply Qpos_num in Hq. unfold round.
  destruct (Qnum q); try lia. reflexivity.
Qed.

Lemma round_of_neg (q : Q) : q < 0 -> round q = - roundPositive (- q).
Proof.
  intros Hq. unfold round. destruct q as [a b]. unfold Qlt in Hq. cbn in *.
  destruct a; try lia. reflexivity.
Qed.

Lemma round_0 (q : Q) : q == 0 -> round q = 0.
Proof.
  intros E. unfold round. destruct q as [a b]. unfold Qeq in E. cbn in *.
  destruct a; try lia. reflexivity.
Qed.

Lemma round_opp (q : Q) : round (- q) == - round q.
Proof.
  destruct (Q_dec q 0) as [[H | H] | H].
  - rewrite (round_of_neg q H), (round_of_pos (- q)) by lra. ring.
  - rewrite (round_of_pos q H), (round_of_neg (- q)) by lra.
    rewrite (roundPositive_comp (- - q) q); [reflexivity | lra | ring].
  - rewrite (round_0 q H), (round_0 (- q)) by lra. reflexivity.
Qed.

Lemma round_pos (q : Q) : 0 < q -> 0 < round q.
Proof. intros H. rewrite (round_of_pos q H). apply roundPositive_pos, H. Qed.

Lemma round_neg (q : Q) : q < 0 -> round q < 0.
Proof.
  intros H. rewrite (round_of_neg q H).
  pose proof (roundPositive_pos (- q)). lra.
Qed.

Lemma round_nonneg (q : Q) : 0 <= q -> 0 <= round q.
Proof.
  intros H. destruct (Qlt_le_dec 0 q) as [P | P].
  - apply Qlt_le_weak, round_pos, P.
  - rewrite (round_0 q) by lra. lra.
Qed.

Lemma round_nonpos (q : Q) : q <= 0 -> round q <= 0.
Proof.
  intros H. destruct (Qlt_le_dec q 0) as [P | P].
  - apply Qlt_le_weak, round_neg, P.
  - rewrite (round_0 q) by lra. lra.
Qed.

(** One rounding moves a value by at most [eps] of its size. *)
Lemma round_error_nonneg (q : Q) :
  0 <= q -> q * (1 - eps) <= round q /\ round q <= q * (1 + eps).
Proof.
  intros H. destruct (Qlt_le_dec 0 q) as [P | P].
  - rewrite (round_of_pos q P). apply roundPositive_error, P.
  - assert (E : q == 0) by lra. rewrite (round_0 q E), E. split; lra.
Qed.

Lemma round_error_nonpos (q : Q) :
  q <= 0 -> q * (1 + eps) <= round q /\ round q <= q * (1 - eps).
Proof.
  intros H. destruct (round_error_nonneg (- q)) as [H1 H2]; [lra |].
  rewrite round_opp in H1, H2. split; lra.
Qed.

Lemma round_error (q : Q) : Qabs (round q - q) <= eps * Qabs q.
Proof.
  destruct (Qlt_le_dec q 0) as [P | P].
  - destruct (round_error_nonpos q) as [H1 H2]; [lra |].
    rewrite (Qabs_neg q) by lra. apply Qabs_Qle_condition. split; lra.
  - destruct (round_error_nonneg q P) as [H1 H2].
    rewrite (Qabs_pos q) by lra. apply Qabs_Qle_condition. split; lra.
Qed.

(** Rounding is monotone. *)
Lemma roundPositive_mono (x y : Q) :
  0 < x -> x <= y -> roundPositive x <= roundPositive y.
Proof.
  intros Hx Hxy. assert (Hy : 0 < y) by lra.
  rewrite !roundPositive_eq.
  pose proof (significand_range x Hx) as [_ Nx].
  pose proof (significand_range y Hy) as [Ny _].
  pose proof (ulp_pos x) as Ux. pose proof (ulp_pos y) as Uy.
  pose proof (exponent_mono x y Hx Hxy) as He.
  destruct (Z.eq_dec (exponent x) (exponent y)) as [E | NE].
  - unfold ulp in *. rewrite E in *.
    apply Qmult_le_compat_r; [| lra].
    rewrite <- Zle_Qle. apply roundEven_mono.
    apply Qmult_le_compat_r; [exact Hxy |].
    apply Qlt_le_weak, Qinv_lt_0_compat. exact Uy.
  - apply Qle_trans with (pow2 (exponent x + 1)).
    + rewrite <- ulp_exponent_succ.
      apply Qmult_le_compat_r; [| lra]. rewrite <- Zle_Qle. exact Nx.
    + apply Qle_trans with (pow2 (exponent y)).
      * apply pow2_le. lia.
      * rewrite <- ulp_exponent.
        apply Qmult_le_compat_r; [| lra]. rewrite <- Zle_Qle. exact Ny.
Qed.

Lemma round_mono (x y : Q) : x <= y -> round x <= round y.
Proof.
  intros Hxy.
  destruct (Qlt_le_dec 0 x) as [Px | Px].
  - rewrite (round_of_pos x Px), (round_of_pos y) by lra.
    apply roundPositive_mono; assumption.
  - destruct (Qlt_le_dec y 0) as [Py | Py].
    + rewrite (round_of_neg x), (round_of_neg y) by lra.
      pose proof (roundPositive_mono (- y) (- x)). lra.
    + pose proof (round_nonpos x Px). pose proof (round_nonneg y Py). lra.
Qed.

(** A 53-bit integer times a power of two is a double. *)
Lemma Qdiv_eq (a b c : Q) : 0 < c -> a == b * c -> a / c == b.
Proof. intros Hc E. rewrite E. field. lra. Qed.

Lemma roundPositive_exact (n e : Z) :
  (0 < n < 2 ^ 53)%Z ->
  roundPositive (inject_Z n * pow2 e) == inject_Z n * pow2 e.
Proof.
  intros Hn. remember (inject_Z n * pow2 e) as v eqn:Ev.
  pose proof (pow2_pos e) as Pe.
  assert (Hn0 : 0 < inject_Z n) by (rewrite <- (Zlt_Qlt 0); lia).
  assert (Hv : 0 < v) by (rewrite Ev; apply Qmult_lt_0_compat; assumption).
  destruct (exponent_spec v Hv) as [H1 H2].
  assert (Hlt : v < pow2 (53 + e)).
  { rewrite pow2_add, (pow2_Z 53), Ev by lia.
    apply Qmult_lt_compat_r; [exact Pe |]. rewrite <- Zlt_Qlt. lia. }
  assert (He : (exponent v < 53 + e)%Z) by (apply pow2_lt_inv; lra).
  set (k := (e - exponent v + 52)%Z).
  assert (Hk : (0 <= k)%Z) by (unfold k; lia).
  pose proof (ulp_pos v) as Hu.
  assert (E : pow2 e == pow2 k * ulp v).
  { unfold ulp. rewrite <- pow2_add.
    replace (k + (exponent v - 52))%Z with e by (unfold k; ring).
    reflexivity. }
  assert (Hm : v / ulp v == inject_Z (n * 2 ^ k)).
  { apply Qdiv_eq; [exact Hu |].
    rewrite inject_Z_mult, <- (pow2_Z k) by exact Hk.
    rewrite <- Qmult_assoc, <- E. rewrite Ev. reflexivity. }
  rewrite roundPositive_eq, (roundEven_comp _ _ Hm), roundEven_Z.
  rewrite inject_Z_mult, <- (pow2_Z k) by exact Hk.
  rewrite <- Qmult_assoc, <- E. rewrite Ev. reflexivity.
Qed.

Lemma round_exact (n e : Z) :
  (Z.abs n <= 2 ^ 53)%Z -> round (inject_Z n * pow2 e) == inject_Z n * pow2 e.
Proof.
  assert (P : forall m e', (0 < m <= 2 ^ 53)%Z ->
              round (inject_Z m * pow2 e') == inject_Z m * pow2 e').
  { intros m e' Hm. pose proof (pow2_pos e') as Pe.
    assert (0 < inject_Z m) by (rewrite <- (Zlt_Qlt 0); lia).
    assert (Hv : 0 < inject_Z m * pow2 e')
      by (apply Qmult_lt_0_compat; assumption).
    rewrite (round_of_pos _ Hv).
    destruct (Z.eq_dec m (2 ^ 53)) as [-> | NE].
    - assert (E : inject_Z (2 ^ 53) * pow2 e'
                  == inject_Z (2 ^ 52) * pow2 (e' + 1)).
      { rewrite pow2_succ. change (inject_Z (2 ^ 53)) with 9007199254740992.
        change (inject_Z (2 ^ 52)) with 4503599627370496. ring. }
      rewrite (roundPositive_comp _ _ Hv E), E.
      apply roundPositive_exact. lia.
    - apply roundPositive_exact. lia. }
  intros Hn. destruct (Z.lt_trichotomy n 0) as [N | [-> | N]].
  - assert (E : inject_Z n * pow2 e == - (inject_Z (- n) * pow2 e))
      by (rewrite inject_Z_opp; ring).
    rewrite E, round_opp, P by lia. reflexivity.
  - rewrite (round_0 (inject_Z 0 * pow2 e)) by ring. ring.
  - apply P. lia.
Qed.

Lemma round_Z (n : Z) :
  (Z.abs n <= 2 ^ 53)%Z -> round (inject_Z n) == inject_Z n.
Proof.
  intros Hn. pose proof (round_exact n 0 Hn) as H.
  change (pow2 0) with 1 in H.
  assert (E : inject_Z n * 1 == inject_Z n) by ring.
  rewrite E in H. exact H.
Qed.

(** A double rounds to itself. *)
Lemma round_idem (q : Q) : round (round q) == round q.
Proof.
  assert (P : forall x, 0 < x -> round (roundPositive x) == roundPositive x).
  { intros x Hx. rewrite roundPositive_eq.
    apply round_exact. pose proof (significand_range x Hx). lia. }
  destruct (Q_dec q 0) as [[H | H] | H].
  - rewrite (round_of_neg q H), round_opp, P by lra. reflexivity.
  - rewrite (round_of_pos q H). apply P, H.
  - rewrite (round_0 q H). reflexivity.
Qed.

End DoubleFacts.

(** ** The similarity correlator *)

Module GenerationFacts.
Import Generation GenerationDefs.

Lemma correlateEntry_eq A bal la S entry :
  correlateEntry A bal la S entry =
  if accepted (firstSixOf A) (firstSixOf (fst entry))
     && negb (hasPair S A (fst entry))
  then S ++ [recordFor A bal la entry] else S.
Proof.
  destruct entry as [G kd]. unfold correlateEntry, recordFor, firstSixOf.
  cbn [fst snd].
  destruct (accepted _ _); cbn [andb]; [|reflexivity].
  destruct (hasPair S A G); reflexivity.
Qed.

(** The acceptance test compares the first four characters of the keys. *)
Lemma accepted_iff A G :
  accepted (firstSixOf A) (firstSixOf G) = true <->
  substring 0 4 A = substring 0 4 G.
Proof.
  unfold accepted, firstSixOf, MIN_FRONT_SIMILARITY.
  change 4%Z with (Z.of_nat 4). change 6%Z with (Z.of_nat 6).
  rewrite !JSFacts.strSlice_from_start.
  rewrite !JSFacts.substring_substring by lia.
  apply String.eqb_eq.
Qed.

Lemma samePair_iff A G r :
  samePair A G r = true <-> activeAddress r = A /\ generatedPublicKey r = G.
Proof.
  unfold samePair. rewrite andb_true_iff, !String.eqb_eq. reflexivity.
Qed.

Lemma hasPair_iff S A G :
  hasPair S A G = true <->
  exists r, In r S /\ activeAddress r = A /\ generatedPublicKey r = G.
Proof.
  unfold hasPair, JS.some. rewrite existsb_exists.
  split; intros [r [Hin H]]; exists r; (split; [assumption|]);
    now apply samePair_iff.
Qed.

Lemma hasPair_app S S' A G :
  hasPair (S ++ S') A G = hasPair S A G || hasPair S' A G.
Proof. unfold hasPair, JS.some. apply existsb_app. Qed.

Lemma hasPair_recordFor A bal la entry :
  hasPair [recordFor A bal la entry] A (fst entry) = true.
Proof.
  unfold hasPair, JS.some, samePair. cbn.
  now rewrite !String.eqb_refl.
Qed.

(** A pool entry whose pair is already recorded leaves the set as it is. *)
Lemma correlateEntry_known A bal la S entry :
  hasPair S A (fst entry) = true -> correlateEntry A bal la S entry = S.
Proof.
  intros H. rewrite correlateEntry_eq, H. now rewrite andb_false_r.
Qed.

(** What one correlation adds: the set is extended at its end, by records
    built for accepted pool entries whose pair was not recorded. *)
Lemma findSimilar_extends pool :
  forall A bal la S,
  exists added,
    findSimilarKeysForActiveAddresses pool A bal la S = S ++ added /\
    forall r, In r added ->
      exists entry, In entry pool /\ r = recordFor A bal la entry /\
        accepted (firstSixOf A) (firstSixOf (fst entry)) = true /\
        hasPair S A (fst entry) = false.
Proof.
  unfold findSimilarKeysForActiveAddresses.
  induction pool as [|entry pool IH]; intros A bal la S; cbn [fold_left].
  - exists []. split; [now rewrite app_nil_r | intros r []].
  - pose proof (correlateEntry_eq A bal la S entry) as Hce.
    destruct (IH A bal la (correlateEntry A bal la S entry))
      as [added [Heq Hadded]].
    rewrite Heq. clear Heq.
    destruct (accepted (firstSixOf A) (firstSixOf (fst entry))
              && negb (hasPair S A (fst entry))) eqn:Hnew;
      rewrite Hce in *; clear Hce.
    + apply andb_true_iff in Hnew. destruct Hnew as [Hacc Hfresh].
      apply negb_true_iff in Hfresh.
      exists (recordFor A bal la entry :: added). split.
      * rewrite <- app_assoc. reflexivity.
      * intros r [<- | Hr].
        -- exists entry. cbn. auto.
        -- destruct (Hadded r Hr) as [e [He [Hre [Hacc' Hfresh']]]].
           exists e. cbn. repeat split; auto.
           rewrite hasPair_app in Hfresh'.
           now apply orb_false_iff in Hfresh'.
    + exists added. split; [reflexivity|].
      intros r Hr. destruct (Hadded r Hr) as [e [He H]].
      exists e. cbn. auto.
Qed.

(** After one correlation every accepted pool entry has its pair recorded. *)
Lemma findSimilar_covers pool :
  forall A bal la S entry,
    In entry pool ->
    accepted (firstSixOf A) (firstSixOf (fst entry)) = true ->
    hasPair (findSimilarKeysForActiveAddresses pool A bal la S) A (fst entry)
    = true.
Proof.
  unfold findSimilarKeysForActiveAddresses.
  induction pool as [|e pool IH]; intros A bal la S entry Hin Hacc;
    [destruct Hin|].
  cbn [fold_left]. destruct Hin as [-> | Hin].
  - destruct (findSimilar_extends pool A bal la (correlateEntry A bal la S entry))
      as [added [Heq _]].
    unfold findSimilarKeysForActiveAddresses in Heq. rewrite Heq.
    rewrite hasPair_app. apply orb_true_iff. left.
    rewrite correlateEntry_eq, Hacc. cbn [andb].
    destruct (hasPair S A (fst entry)) eqn:E; cbn [negb]; [assumption|].
    rewrite hasPair_app, hasPair_recordFor. apply orb_true_r.
  - now apply IH.
Qed.

Lemma covered_app pool A S S' : covered pool A S -> covered pool A (S ++ S').
Proof.
  intros H entry Hin Hacc. rewrite hasPair_app, (H entry Hin Hacc).
  reflexivity.
Qed.

Lemma findSimilar_covered_id pool :
  forall pool' A bal la S,
    incl pool pool' -> covered pool' A S ->
    findSimilarKeysForActiveAddresses pool A bal la S = S.
Proof.
  unfold findSimilarKeysForActiveAddresses.
  induction pool as [|e pool IH]; intros pool' A bal la S Hincl Hcov;
    [reflexivity|].
  cbn [fold_left]. rewrite correlateEntry_eq.
  destruct (accepted (firstSixOf A) (firstSixOf (fst e))) eqn:Hacc;
    cbn [andb].
  - rewrite (Hcov e (Hincl e (or_introl eq_refl)) Hacc). cbn [negb].
    apply (IH pool'); [|assumption].
    intros x Hx. apply Hincl. now right.
  - apply (IH pool'); [|assumption].
    intros x Hx. apply Hincl. now right.
Qed.

Lemma findSimilar_covered pool A bal la S :
  covered pool A (findSimilarKeysForActiveAddresses pool A bal la S).
Proof. intros entry Hin Hacc. now apply findSimilar_covers. Qed.

Lemma findSimilar_keeps_covered pool A B bal la S :
  covered pool A S ->
  covered pool A (findSimilarKeysForActiveAddresses pool B bal la S).
Proof.
  intros H. destruct (findSimilar_extends pool B bal la S) as [added [-> _]].
  now apply covered_app.
Qed.

Lemma check_extends pool actives :
  forall S, exists added,
    checkForExistingSimilarities pool actives S = S ++ added.
Proof.
  unfold checkForExistingSimilarities.
  induction actives as [|[A info] actives IH]; intros S; cbn [fold_left].
  - exists []. now rewrite app_nil_r.
  - destruct (findSimilar_extends pool A (balance info) (activity info) S)
      as [added1 [-> _]].
    destruct (IH (S ++ added1)) as [added2 ->].
    exists (added1 ++ added2). now rewrite app_assoc.
Qed.

Lemma check_covered pool actives :
  forall S entry, In entry actives ->
    covered pool (fst entry) (checkForExistingSimilarities pool actives S).
Proof.
  unfold checkForExistingSimilarities.
  induction actives as [|[A info] actives IH]; intros S entry Hin;
    [destruct Hin|].
  cbn [fold_left]. destruct Hin as [<- | Hin].
  - cbn [fst].
    destruct (check_extends pool actives
                (findSimilarKeysForActiveAddresses pool A (balance info)
                   (activity info) S)) as [added Heq].
    unfold checkForExistingSimilarities in Heq. rewrite Heq.
    apply covered_app, findSimilar_covered.
  - now apply IH.
Qed.

Lemma check_covered_id pool actives :
  forall S, (forall entry, In entry actives -> covered pool (fst entry) S) ->
    checkForExistingSimilarities pool actives S = S.
Proof.
  unfold checkForExistingSimilarities.
  induction actives as [|[A info] actives IH]; intros S Hcov; [reflexivity|].
  cbn [fold_left].
  rewrite (findSimilar_covered_id pool pool A (balance info) (activity info) S).
  - apply IH. intros entry Hin. apply Hcov. now right.
  - apply incl_refl.
  - apply (Hcov (A, info)). now left.
Qed.

Lemma hasPair_In_pairs S A G :
  hasPair S A G = true <-> In (A, G) (map pairOf S).
Proof.
  rewrite hasPair_iff, in_map_iff. unfold pairOf.
  split; intros [r H]; exists r.
  - destruct H as [Hin [<- <-]]. auto.
  - destruct H as [Heq Hin]. inversion Heq. auto.
Qed.

Lemma correlateEntry_unique A bal la S entry :
  pairsUnique S -> pairsUnique (correlateEntry A bal la S entry).
Proof.
  intros Hu. rewrite correlateEntry_eq.
  destruct (accepted _ _ && negb (hasPair S A (fst entry))) eqn:Hnew;
    [|assumption].
  apply andb_true_iff in Hnew. destruct Hnew as [_ Hfresh].
  apply negb_true_iff in Hfresh.
  unfold pairsUnique. rewrite map_app. apply NoDup_app.
  - assumption.
  - cbn. repeat constructor. intros [].
  - intros p Hp [<- | []].
    change (pairOf (recordFor A bal la entry)) with (A, fst entry) in Hp.
    apply hasPair_In_pairs in Hp. congruence.
Qed.

Lemma findSimilar_unique pool :
  forall A bal la S,
    pairsUnique S ->
    pairsUnique (findSimilarKeysForActiveAddresses pool A bal la S).
Proof.
  unfold findSimilarKeysForActiveAddresses.
  induction pool as [|entry pool IH]; intros A bal la S Hu; [assumption|].
  cbn [fold_left]. apply IH. now apply correlateEntry_unique.
Qed.

Lemma check_unique pool actives :
  forall S, pairsUnique S ->
    pairsUnique (checkForExistingSimilarities pool actives S).
Proof.
  unfold checkForExistingSimilarities.
  induction actives as [|[A info] actives IH]; intros S Hu; [assumption|].
  cbn [fold_left]. apply IH. now apply findSimilar_unique.
Qed.

(** The front-four-equal key is matched, with its counts recorded; the key
    that differs at the third character is not, although five of its
    first six and all of its last six characters agree. *)
Example correlate_samples :
  findSimilarKeysForActiveAddresses samplePool sampleActive 2 "t0" [] =
  [ {| activeAddress := sampleActive;
       generatedPublicKey := sampleNear;
       generatedSecretKey := "secret";
       activeBalance := 2;
       frontMatches := 4;
       endMatches := 6;
       lastActivity := "t0" |} ]
  /\ countFrontMatches (firstSixOf sampleActive) (firstSixOf sampleFar) = 5%nat.
Proof. split; reflexivity. Qed.

(** C1.  For an active address [A] and a keypair [G] of the pool whose pair
    is not yet in the match set, [findSimilarKeysForActiveAddresses] leaves
    a record for the pair [(A, G)] in the set if and only if the first four
    characters of [A] and of [G] are identical.  Every record of that pair
    carries the [frontMatches] and [endMatches] counts computed from the
    first six and last six characters; the counts do not enter the test. *)
Theorem correlator_accepts_iff_prefix pool A bal la S G kd :
  In (G, kd) pool ->
  hasPair S A G = false ->
  let S' := findSimilarKeysForActiveAddresses pool A bal la S in
  (hasPair S' A G = true <-> substring 0 4 A = substring 0 4 G)
  /\ (forall r, In r S' -> activeAddress r = A -> generatedPublicKey r = G ->
        frontMatches r =
          countFrontMatches (JS.strSlice A 0 (Some 6%Z))
                            (JS.strSlice G 0 (Some 6%Z))
        /\ endMatches r =
          countEndMatches (JS.chars (JS.strSlice A (-6) None))
                          (JS.chars (JS.strSlice G (-6) None))
        /\ activeBalance r = bal /\ lastActivity r = la).
Proof.
  intros Hin Hfresh S'. subst S'.
  destruct (findSimilar_extends pool A bal la S) as [added [Heq Hadded]].
  split; [split|].
  - intros Hhas. rewrite Heq, hasPair_app, Hfresh in Hhas. cbn [orb] in Hhas.
    apply hasPair_iff in Hhas. destruct Hhas as [r [Hr [_ HG]]].
    destruct (Hadded r Hr) as [entry [_ [-> [Hacc _]]]].
    cbn in HG. subst G. now apply accepted_iff.
  - intros Hpre. apply accepted_iff in Hpre.
    apply (findSimilar_covers pool A bal la S (G, kd) Hin Hpre).
  - intros r Hr HA HG. rewrite Heq in Hr. apply in_app_iff in Hr.
    destruct Hr as [Hr | Hr].
    + assert (hasPair S A G = true) by (apply hasPair_iff; eauto).
      congruence.
    + destruct (Hadded r Hr) as [entry [_ [-> _]]].
      cbn in HG. subst G. cbn. auto.
Qed.

Lemma correlator_accepts_iff_prefix_witness :
  hasPair (findSimilarKeysForActiveAddresses samplePool sampleActive 2 "t0" [])
          sampleActive sampleNear = true
  <-> substring 0 4 sampleActive = substring 0 4 sampleNear.
Proof.
  apply (correlator_accepts_iff_prefix samplePool sampleActive 2 "t0" []
           sampleNear (snd (keypairOf sampleNear))).
  - cbn. left. reflexivity.
  - reflexivity.
Defined.

(** C7.  Correlation is idempotent: a second run of
    [findSimilarKeysForActiveAddresses] for the same active address (with
    whatever balance and activity stamp) over the same pool, or a second
    run of [checkForExistingSimilarities] over the same active addresses
    and pool, returns the match set of the first run unchanged; and a match
    set with at most one record per pair still has at most one record per
    pair after either run. *)
Theorem correlation_idempotent pool actives S :
  (forall A bal la bal' la',
     findSimilarKeysForActiveAddresses pool A bal' la'
       (findSimilarKeysForActiveAddresses pool A bal la S)
     = findSimilarKeysForActiveAddresses pool A bal la S)
  /\ checkForExistingSimilarities pool actives
       (checkForExistingSimilarities pool actives S)
     = checkForExistingSimilarities pool actives S
  /\ (pairsUnique S ->
      pairsUnique (checkForExistingSimilarities pool actives S)
      /\ forall A bal la,
           pairsUnique (findSimilarKeysForActiveAddresses pool A bal la S)).
Proof.
  split; [|split].
  - intros A bal la bal' la'.
    apply (findSimilar_covered_id pool pool); [apply incl_refl|].
    apply findSimilar_covered.
  - apply check_covered_id. intros entry Hin. now apply check_covered.
  - intros Hu. split; [now apply check_unique|].
    intros A bal la. now apply findSimilar_unique.
Qed.

Lemma correlation_idempotent_witness :
  pairsUnique
    (checkForExistingSimilarities samplePool
       [(sampleActive, {| balance := 2; activity := "t0" |})] []).
Proof.
  apply (correlation_idempotent samplePool
           [(sampleActive, {| balance := 2; activity := "t0" |})] []).
  constructor.
Defined.

(** C8 as stated fails: after a re-scan that supplies balance 3 and stamp
    [t1], the set is the one the first scan left, and no record of the
    pair carries the new balance or the new stamp. *)
Lemma rescan_refresh_counterexample :
  let S' := findSimilarKeysForActiveAddresses samplePool sampleActive 3 "t1"
              firstScan in
  S' = firstScan
  /\ hasPair firstScan sampleActive sampleNear = true
  /\ ~ exists r, In r S' /\ activeAddress r = sampleActive
                 /\ generatedPublicKey r = sampleNear
                 /\ ((activeBalance r == 3)%Q \/ lastActivity r = "t1"%string).
Proof.
  cbv zeta. split; [reflexivity|]. split; [reflexivity|].
  intros [r [Hr [_ [_ Hnew]]]].
  destruct Hr as [<- | []]. cbn in Hnew.
  destruct Hnew as [H | H]; discriminate H.
Qed.

(** C8, amended.  When correlation re-runs for a pair that already has a
    record, the match set is only extended at its end: every record it
    held, the record of that pair included, stays in place with all its
    fields, [activeBalance] and [lastActivity] too, and no second record
    of the pair is added. *)
Theorem rescan_keeps_records pool A bal la S G :
  hasPair S A G = true ->
  let S' := findSimilarKeysForActiveAddresses pool A bal la S in
  firstn (List.length S) S' = S
  /\ (forall r, In r S' -> activeAddress r = A -> generatedPublicKey r = G ->
        In r S)
  /\ (forall n, (n < List.length S)%nat -> nth_error S' n = nth_error S n).
Proof.
  intros Hhas S'. subst S'.
  destruct (findSimilar_extends pool A bal la S) as [added [-> Hadded]].
  split; [|split].
  - rewrite firstn_app, Nat.sub_diag, firstn_all. cbn. apply app_nil_r.
  - intros r Hr HA HG. apply in_app_iff in Hr. destruct Hr as [Hr | Hr];
      [assumption|].
    destruct (Hadded r Hr) as [entry [_ [-> [_ Hfresh]]]].
    cbn in HG. subst G. congruence.
  - intros n Hn. now apply nth_error_app1.
Qed.

Lemma rescan_keeps_records_witness :
  firstn (List.length firstScan)
    (findSimilarKeysForActiveAddresses samplePool sampleActive 3 "t1"
       firstScan) = firstScan.
Proof.
  apply (rescan_keeps_records samplePool sampleActive 3 "t1" firstScan
           sampleNear).
  reflexivity.
Defined.

End GenerationFacts.



(** ** The rate limiter *)

Module RateLimiterFacts.
Import Generation RateLimiterDefs DoubleFacts.
Local Open Scope Q_scope.

Lemma inject_Z_nonneg (z : Z) : (0 <= z)%Z -> 0 <= inject_Z z.
Proof. intros H. rewrite <- (Zle_Qle 0). exact H. Qed.

Lemma rate_nonneg rl :
  0 <= maxRequests rl -> 0 < perSeconds rl ->
  0 <= maxRequests rl / perSeconds rl.
Proof.
  intros Hmax Hper. apply Qle_shift_div_l; [exact Hper | lra].
Qed.

Lemma refillAmount_0 rl : refillAmount rl 0 = 0.
Proof.
  unfold refillAmount, Double.mul, Double.div.
  rewrite (round_0 (inject_Z 0 / 1000)) by reflexivity.
  apply round_0. ring.
Qed.

Lemma refillAmount_nonneg rl dt :
  0 <= maxRequests rl -> 0 < perSeconds rl -> (0 <= dt)%Z ->
  0 <= refillAmount rl dt.
Proof.
  intros Hmax Hper Hdt. unfold refillAmount, Double.mul, Double.div.
  apply round_nonneg. apply Qmult_le_0_compat; apply round_nonneg.
  - apply Qle_shift_div_l; [reflexivity |].
    pose proof (inject_Z_nonneg dt Hdt). lra.
  - apply rate_nonneg; assumption.
Qed.

(** The refill of [dt] milliseconds is at most [ratePerMs] for each. *)
Lemma refillAmount_le rl dt :
  0 <= maxRequests rl -> 0 < perSeconds rl -> (0 <= dt)%Z ->
  refillAmount rl dt <= ratePerMs rl * inject_Z dt.
Proof.
  intros Hmax Hper Hdt. unfold refillAmount, Double.mul, Double.div, ratePerMs.
  pose proof (inject_Z_nonneg dt Hdt) as Hd.
  pose proof (rate_nonneg rl Hmax Hper) as Hr.
  set (r := maxRequests rl / perSeconds rl) in *.
  assert (Ha0 : 0 <= inject_Z dt / 1000)
    by (apply Qle_shift_div_l; [reflexivity | lra]).
  set (a := inject_Z dt / 1000) in *.
  destruct (round_error_nonneg a Ha0) as [_ A].
  destruct (round_error_nonneg r Hr) as [_ R].
  pose proof (round_nonneg a Ha0) as A0.
  pose proof (round_nonneg r Hr) as R0.
  assert (P0 : 0 <= Double.round a * Double.round r)
    by (apply Qmult_le_0_compat; assumption).
  destruct (round_error_nonneg _ P0) as [_ P].
  assert (E : r * growth / 1000 * inject_Z dt
              == (a * (1 + Double.eps)) * (r * (1 + Double.eps))
                 * (1 + Double.eps)).
  { unfold a. field. }
  rewrite E.
  apply Qle_trans with (Double.round a * Double.round r * (1 + Double.eps));
    [exact P |].
  apply Qmult_le_compat_r; [| unfold Double.eps; lra].
  apply Qle_trans with (a * (1 + Double.eps) * Double.round r).
  - apply Qmult_le_compat_r; assumption.
  - rewrite !(Qmult_comm (a * (1 + Double.eps))).
    apply Qmult_le_compat_r; [exact R |].
    apply Qmult_le_0_compat; [exact Ha0 | unfold Double.eps; lra].
Qed.

Lemma allowance_add rl d1 d2 :
  allowance rl (d1 + d2) == allowance rl d1 + allowance rl d2.
Proof. unfold allowance. rewrite inject_Z_plus. ring. Qed.

Lemma slack_nonneg rl : 0 <= maxRequests rl -> 0 <= slack rl.
Proof. intros H. unfold slack, Double.eps. lra. Qed.

Lemma ratePerMs_nonneg rl :
  0 <= maxRequests rl -> 0 < perSeconds rl -> 0 <= ratePerMs rl.
Proof.
  intros Hmax Hper. unfold ratePerMs.
  pose proof (rate_nonneg rl Hmax Hper) as Hr.
  apply Qle_shift_div_l; [reflexivity |].
  rewrite Qmult_0_l.
  apply Qmult_le_0_compat; [exact Hr | unfold Double.eps; lra].
Qed.

Lemma allowance_nonneg rl dt :
  0 <= maxRequests rl -> 0 < perSeconds rl -> (0 <= dt)%Z ->
  0 <= allowance rl dt.
Proof.
  intros Hmax Hper Hdt. unfold allowance.
  apply Qmult_le_0_compat.
  - pose proof (slack_nonneg rl Hmax).
    pose proof (ratePerMs_nonneg rl Hmax Hper). lra.
  - apply inject_Z_nonneg, Hdt.
Qed.

(** One whole period refills no more than the capacity, up to rounding. *)
Lemma ratePerMs_period rl dt :
  0 <= maxRequests rl -> 0 < perSeconds rl ->
  inject_Z dt <= 1000 * perSeconds rl ->
  ratePerMs rl * inject_Z dt
  <= maxRequests rl * growth.
Proof.
  intros Hmax Hper Hdt. unfold ratePerMs.
  assert (E : maxRequests rl / perSeconds rl
              * growth / 1000 * inject_Z dt
              == maxRequests rl * growth
                 * (inject_Z dt / (1000 * perSeconds rl)))
    by (field; lra).
  rewrite E.
  assert (F : inject_Z dt / (1000 * perSeconds rl) <= 1)
    by (apply Qle_shift_div_r; lra).
  assert (C : 0 <= maxRequests rl * growth)
    by (apply Qmult_le_0_compat; [exact Hmax | unfold Double.eps; lra]).
  set (c := maxRequests rl * growth) in *.
  nra.
Qed.

Lemma hasToken_iff rl : hasToken rl = true <-> 0 < tokens rl.
Proof.
  unfold hasToken. rewrite negb_true_iff.
  destruct (Qle_bool (tokens rl) 0) eqn:E.
  - apply Qle_bool_iff in E. split; [discriminate | lra].
  - split; [intros _ | reflexivity].
    apply Qnot_le_lt. intros H. apply Qle_bool_iff in H. congruence.
Qed.

(** What one turn does to the limiter. *)
Lemma attempt_spec rl now :
  let '(granted, rl') := attempt rl now in
  maxRequests rl' = maxRequests rl /\ perSeconds rl' = perSeconds rl
  /\ lastRefilled rl' = now
  /\ (granted = true ->
      0 < filledAt rl now /\ tokens rl' = Double.sub (filledAt rl now) 1)
  /\ (granted = false ->
      filledAt rl now <= 0 /\ tokens rl' = filledAt rl now).
Proof.
  unfold attempt, filledAt.
  destruct (hasToken (refillTokens rl now)) eqn:E.
  - apply hasToken_iff in E. cbn in *. repeat split; auto; discriminate.
  - assert (N : ~ 0 < tokens (refillTokens rl now)).
    { intros H. apply hasToken_iff in H. congruence. }
    cbn in *. repeat split; auto; try discriminate. lra.
Qed.

Lemma representable_round q : representable (Double.round q).
Proof. apply round_idem. Qed.

Lemma representable_min a b :
  representable a -> representable b -> representable (Qmin a b).
Proof.
  intros Ha Hb. unfold representable in *.
  destruct (Q.min_spec a b) as [[_ E] | [_ E]]; rewrite E; assumption.
Qed.

Lemma round_minus_one : Double.round (-1) == -1.
Proof. reflexivity. Qed.

(** The refilled bucket is a double between the debt of one token and the
    capacity. *)
Lemma filled_bounds rl now :
  wellFormed rl -> (lastRefilled rl <= now)%Z ->
  -1 <= filledAt rl now /\ filledAt rl now <= maxRequests rl
  /\ representable (filledAt rl now).
Proof.
  intros (Hmax & Rmax & Hper & Hdebt & Hcap & Rtok) Hnow. unfold filledAt.
  pose proof (refillAmount_nonneg rl (now - lastRefilled rl) Hmax Hper
                ltac:(lia)) as Hre.
  split; [| split].
  - apply Q.min_glb; [lra |].
    unfold Double.add. rewrite <- round_minus_one. apply round_mono. lra.
  - apply Q.le_min_l.
  - apply representable_min; [exact Rmax | apply representable_round].
Qed.

Lemma attempt_wellFormed rl now :
  wellFormed rl -> (lastRefilled rl <= now)%Z ->
  wellFormed (snd (attempt rl now)).
Proof.
  intros Hwf Hnow.
  pose proof (attempt_spec rl now) as Hs.
  pose proof (filled_bounds rl now Hwf Hnow) as (Hb1 & Hb2 & Hb3).
  destruct (attempt rl now) as [granted rl']. cbn [snd].
  destruct Hs as (Hm & Hp & _ & Hyes & Hno).
  destruct Hwf as (Hmax & Rmax & Hper & _).
  unfold wellFormed. rewrite Hm, Hp.
  split; [exact Hmax |]. split; [exact Rmax |]. split; [exact Hper |].
  destruct granted.
  - destruct (Hyes eq_refl) as [Hpos ->]. unfold Double.sub.
    split; [| split].
    + rewrite <- round_minus_one. apply round_mono. lra.
    + unfold representable in Rmax. rewrite <- Rmax. apply round_mono. lra.
    + apply representable_round.
  - destruct (Hno eq_refl) as [_ ->]. auto.
Qed.

(** The refill of a turn adds no more than the time passed allows. *)
Lemma filled_le rl now :
  wellFormed rl -> (lastRefilled rl <= now)%Z ->
  filledAt rl now <= tokens rl + allowance rl (now - lastRefilled rl).
Proof.
  intros (Hmax & Rmax & Hper & Hdebt & Hcap & Rtok) Hnow.
  unfold filledAt.
  destruct (Z.eq_dec now (lastRefilled rl)) as [-> | NE].
  - apply Qle_trans with (Double.add (tokens rl) (refillAmount rl 0));
      [rewrite Z.sub_diag; apply Q.le_min_r |].
    rewrite Z.sub_diag, refillAmount_0. unfold Double.add, allowance.
    assert (E : tokens rl + 0 == tokens rl) by ring.
    rewrite E. unfold representable in Rtok. rewrite Rtok.
    change (inject_Z 0) with 0. lra.
  - set (dt := (now - lastRefilled rl)%Z) in *.
    assert (Hdt : (1 <= dt)%Z) by (unfold dt; lia).
    pose proof (refillAmount_nonneg rl dt Hmax Hper ltac:(lia)) as P0.
    pose proof (refillAmount_le rl dt Hmax Hper ltac:(lia)) as P1.
    assert (D1 : 1 <= inject_Z dt) by (rewrite <- (Zle_Qle 1); exact Hdt).
    pose proof (slack_nonneg rl Hmax) as S0.
    unfold allowance.
    set (p := refillAmount rl dt) in *.
    assert (S1 : slack rl <= slack rl * inject_Z dt) by nra.
    destruct (Qlt_le_dec (3 * maxRequests rl) (tokens rl + p)) as [Big | Small].
    + apply Qle_trans with (maxRequests rl); [apply Q.le_min_l | lra].
    + apply Qle_trans with (Double.add (tokens rl) p); [apply Q.le_min_r |].
      unfold Double.add.
      destruct (Qlt_le_dec (tokens rl + p) 0) as [N | N].
      * destruct (round_error_nonpos (tokens rl + p)) as [_ U]; [lra |].
        unfold slack in *. unfold Double.eps in *. nra.
      * destruct (round_error_nonneg (tokens rl + p) N) as [_ U].
        unfold slack in *. unfold Double.eps in *. nra.
Qed.

(** A grant takes one token, up to one rounding. *)
Lemma grant_le rl filled :
  0 <= maxRequests rl -> 0 < filled -> filled <= maxRequests rl ->
  Double.sub filled 1 <= filled - 1 + slack rl.
Proof.
  intros Hmax Hpos Hcap. unfold Double.sub, slack.
  destruct (Qlt_le_dec (filled - 1) 0) as [N | N].
  - destruct (round_error_nonpos (filled - 1)) as [_ U]; [lra |].
    unfold Double.eps in *. nra.
  - destruct (round_error_nonneg (filled - 1) N) as [_ U].
    unfold Double.eps in *. nra.
Qed.

Lemma acquisitions_In rl times :
  forall t, In t (acquisitions rl times) -> In t times.
Proof.
  revert rl. induction times as [|now later IH]; intros rl t Hin;
    [destruct Hin|].
  cbn [acquisitions] in Hin. destruct (attempt rl now) as [granted rl'].
  destruct granted.
  - destruct Hin as [<- | Hin]; [now left | right; eauto].
  - right; eauto.
Qed.

Lemma chronological_ge from times :
  chronological from times -> forall t, In t times -> (from <= t)%Z.
Proof.
  revert from. induction times as [|x later IH]; intros from Hc t Hin;
    [destruct Hin|].
  destruct Hc as [Hle Hc]. destruct Hin as [<- | Hin]; [assumption|].
  specialize (IH x Hc t Hin). lia.
Qed.

Lemma grantedWithin_none from to granted :
  (forall t, In t granted -> (to < t)%Z) ->
  grantedWithin from to granted = 0%nat.
Proof.
  unfold grantedWithin. induction granted as [|x l IH]; intros H;
    [reflexivity|].
  cbn [filter]. assert (Hx : (to < x)%Z) by (apply H; now left).
  destruct (x <=? to)%Z eqn:E; [apply Z.leb_le in E; lia|].
  rewrite andb_false_r. apply IH. intros t Ht. apply H. now right.
Qed.

Lemma grantedWithin_cons from to t granted :
  (grantedWithin from to (t :: granted)
   <= 1 + grantedWithin from to granted)%nat.
Proof.
  unfold grantedWithin. cbn [filter].
  destruct ((from <=? t)%Z && (t <=? to)%Z); cbn [List.length]; lia.
Qed.

Lemma grantedWithin_early from to t granted :
  (t < from)%Z ->
  grantedWithin from to (t :: granted) = grantedWithin from to granted.
Proof.
  intros H. unfold grantedWithin. cbn [filter].
  destruct (from <=? t)%Z eqn:E; [apply Z.leb_le in E; lia | reflexivity].
Qed.

Lemma count_le_succ n m : (n <= 1 + m)%nat -> count n <= 1 + count m.
Proof.
  intros H. unfold count. change 1 with (inject_Z 1).
  rewrite <- inject_Z_plus, <- Zle_Qle. lia.
Qed.

Lemma count_nonneg n : 0 <= count n.
Proof. unfold count. apply inject_Z_nonneg. lia. Qed.

Lemma late_turns_none rl now later from to :
  (to < now)%Z -> chronological now later ->
  grantedWithin from to (acquisitions rl (now :: later)) = 0%nat.
Proof.
  intros Hlate Hc. apply grantedWithin_none.
  intros t Ht. apply acquisitions_In in Ht.
  assert (now <= t)%Z; [| lia].
  destruct Ht as [<- | Ht]; [lia |].
  now apply (chronological_ge now later).
Qed.

(** The tokens in the bucket plus what can still be refilled up to [to]
    bound the grants up to [to]: a grant needs a positive balance and
    takes one token, a refill adds no more than the time passed allows;
    each rounding may give [slack] away. *)
Lemma budget_bound times :
  forall rl from to,
    wellFormed rl -> slack rl <= 1 -> (lastRefilled rl <= to)%Z ->
    chronological (lastRefilled rl) times ->
    (1 - slack rl) * count (grantedWithin from to (acquisitions rl times))
    <= tokens rl + allowance rl (to - lastRefilled rl) + 1.
Proof.
  induction times as [|now later IH]; intros rl from to Hwf Hs1 Hto Hc.
  - cbn. destruct Hwf as (Hmax & _ & Hper & Hdebt & _).
    pose proof (allowance_nonneg rl (to - lastRefilled rl) Hmax Hper
                  ltac:(lia)).
    change (count 0) with 0. lra.
  - destruct Hc as [Hnow Hc].
    destruct (Z.lt_ge_cases to now) as [Hlate | Hin].
    + rewrite (late_turns_none rl now later from to Hlate Hc).
      destruct Hwf as (Hmax & _ & Hper & Hdebt & _).
      pose proof (allowance_nonneg rl (to - lastRefilled rl) Hmax Hper
                    ltac:(lia)).
      change (count 0) with 0. lra.
    + pose proof (attempt_spec rl now) as Hs.
      pose proof (filled_bounds rl now Hwf Hnow) as (Hb1 & Hb2 & _).
      pose proof (filled_le rl now Hwf Hnow) as Hfl.
      pose proof (attempt_wellFormed rl now Hwf Hnow) as Hwf'.
      cbn [acquisitions].
      destruct (attempt rl now) as [granted rl']. cbn [snd] in Hwf'.
      destruct Hs as (Hm & Hp & Hl & Hyes & Hno).
      assert (Hmax : 0 <= maxRequests rl) by apply Hwf.
      assert (Hsl : slack rl' = slack rl) by (unfold slack; now rewrite Hm).
      assert (Hal : forall d, allowance rl' d = allowance rl d)
        by (intros d; unfold allowance, ratePerMs; now rewrite Hsl, Hm, Hp).
      pose proof (allowance_add rl (now - lastRefilled rl) (to - now)) as Hadd.
      replace (now - lastRefilled rl + (to - now))%Z
        with (to - lastRefilled rl)%Z in Hadd by lia.
      assert (Hrec := IH rl' from to Hwf').
      rewrite Hl, Hsl, Hal in Hrec.
      specialize (Hrec Hs1 Hin Hc).
      destruct granted.
      * destruct (Hyes eq_refl) as [Hpos Htok]. rewrite Htok in Hrec.
        pose proof (grant_le rl (filledAt rl now) Hmax Hpos Hb2) as Hg.
        pose proof (count_le_succ _ _
                      (grantedWithin_cons from to now (acquisitions rl' later)))
          as Hk.
        set (k := count (grantedWithin from to (now :: acquisitions rl' later)))
          in *.
        set (k' := count (grantedWithin from to (acquisitions rl' later))) in *.
        assert ((1 - slack rl) * k <= (1 - slack rl) * (1 + k')) by nra.
        lra.
      * destruct (Hno eq_refl) as [_ Htok]. rewrite Htok in Hrec. lra.
Qed.

Lemma allowance_mono rl d1 d2 :
  0 <= maxRequests rl -> 0 < perSeconds rl -> (d1 <= d2)%Z ->
  allowance rl d1 <= allowance rl d2.
Proof.
  intros Hmax Hper Hd.
  pose proof (allowance_add rl d1 (d2 - d1)) as Hadd.
  replace (d1 + (d2 - d1))%Z with d2 in Hadd by lia.
  pose proof (allowance_nonneg rl (d2 - d1) Hmax Hper ltac:(lia)). lra.
Qed.

(** Within a window the grants are bounded by a full bucket plus what the
    window refills. *)
Lemma window_bound times :
  forall rl from to,
    wellFormed rl -> slack rl <= 1 ->
    chronological (lastRefilled rl) times ->
    (from <= to)%Z ->
    (1 - slack rl) * count (grantedWithin from to (acquisitions rl times))
    <= maxRequests rl + allowance rl (to - from) + 1.
Proof.
  induction times as [|now later IH]; intros rl from to Hwf Hs1 Hc Hft;
    assert (Hmax : 0 <= maxRequests rl) by apply Hwf;
    assert (Hper : 0 < perSeconds rl) by apply Hwf;
    pose proof (allowance_nonneg rl (to - from) Hmax Hper ltac:(lia)) as Ha0.
  - cbn. change (count 0) with 0. lra.
  - destruct Hc as [Hnow Hc].
    destruct (Z.lt_ge_cases to now) as [Hlate | Hin].
    + rewrite (late_turns_none rl now later from to Hlate Hc).
      change (count 0) with 0. lra.
    + pose proof (attempt_spec rl now) as Hs.
      pose proof (filled_bounds rl now Hwf Hnow) as (Hb1 & Hb2 & _).
      pose proof (attempt_wellFormed rl now Hwf Hnow) as Hwf'.
      cbn [acquisitions].
      destruct (attempt rl now) as [granted rl']. cbn [snd] in Hwf'.
      destruct Hs as (Hm & Hp & Hl & Hyes & Hno).
      assert (Hsl : slack rl' = slack rl) by (unfold slack; now rewrite Hm).
      assert (Hal : forall d, allowance rl' d = allowance rl d)
        by (intros d; unfold allowance, ratePerMs; now rewrite Hsl, Hm, Hp).
      destruct (Z.lt_ge_cases now from) as [Hearly | Hfrom].
      * assert (Hrec := IH rl' from to Hwf').
        rewrite Hl, Hsl, Hm, Hal in Hrec. specialize (Hrec Hs1 Hc Hft).
        destruct granted; [rewrite grantedWithin_early by assumption |];
          assumption.
      * assert (Hrec := budget_bound later rl' from to Hwf').
        rewrite Hl, Hsl, Hal in Hrec.
        specialize (Hrec Hs1 Hin Hc).
        pose proof (allowance_mono rl (to - now) (to - from) Hmax Hper
                      ltac:(lia)) as Hmono.
        destruct granted.
        -- destruct (Hyes eq_refl) as [Hpos Htok]. rewrite Htok in Hrec.
           pose proof (grant_le rl (filledAt rl now) Hmax Hpos Hb2) as Hg.
           pose proof (count_le_succ _ _
                      (grantedWithin_cons from to now (acquisitions rl' later)))
             as Hk.
           set (k := count (grantedWithin from to
                              (now :: acquisitions rl' later))) in *.
           set (k' := count (grantedWithin from to (acquisitions rl' later)))
             in *.
           assert ((1 - slack rl) * k <= (1 - slack rl) * (1 + k')) by nra.
           lra.
        -- destruct (Hno eq_refl) as [Hle Htok]. rewrite Htok in Hrec. lra.
Qed.

Lemma grantedWithin_empty from to granted :
  (to < from)%Z -> grantedWithin from to granted = 0%nat.
Proof.
  intros H. unfold grantedWithin.
  induction granted as [|t l IH]; [reflexivity |]. cbn [filter].
  destruct (from <=? t)%Z eqn:E1, (t <=? to)%Z eqn:E2; cbn [andb]; try exact IH.
  apply Z.leb_le in E1, E2. lia.
Qed.

(** A call of [waitForToken] that returns was granted exactly once, at its
    last turn. *)
Lemma waitForToken_granted_once clock :
  forall rl rl' later,
    waitForToken rl clock = Some (rl', later) ->
    exists waited now,
      clock = waited ++ now :: later
      /\ acquisitions rl (waited ++ [now]) = [now].
Proof.
  induction clock as [|t rest IH]; intros rl rl' later H; [discriminate|].
  cbn [waitForToken] in H.
  destruct (attempt rl t) as [granted rl1] eqn:E. destruct granted.
  - inversion H; subst. exists [], t. split; [reflexivity|].
    cbn. now rewrite E.
  - destruct (IH rl1 rl' later H) as [waited [now [-> Hacq]]].
    exists (t :: waited), now. split; [reflexivity|].
    cbn. now rewrite E.
Qed.

(** C4 as stated fails: on the module's limiter (20 requests per second,
    created at time 0) all thirty turns of the burst are granted, thirty
    acquisitions within half a second. *)
Lemma rate_window_counterexample :
  chronological 0 burst
  /\ acquisitions (rateLimiter 0) burst = burst
  /\ grantedWithin 0 500 (acquisitions (rateLimiter 0) burst) = 30%nat
  /\ ~ (Z.of_nat (grantedWithin 0 500 (acquisitions (rateLimiter 0) burst))
        <= 20)%Z.
Proof.
  split; [cbn; repeat split; lia|].
  split; [vm_compute; reflexivity|].
  split; [vm_compute; reflexivity|].
  vm_compute. intros H. apply H. reflexivity.
Qed.

(** The bound of [rate_window_bound] is reached: on the module's limiter
    the forty-one turns of [steady], all within one second, are all
    granted. *)
Lemma rate_window_bound_reached :
  chronological 0 steady
  /\ acquisitions (rateLimiter 0) steady = steady
  /\ grantedWithin 0 1000 (acquisitions (rateLimiter 0) steady) = 41%nat.
Proof.
  split; [cbn; repeat split; lia|].
  split; vm_compute; reflexivity.
Qed.

(** C4, amended.  On a limiter created at [created] with an integer
    capacity [maxRequests >= 0] and a period [perSeconds > 0] of practical
    size, whatever the turns of the concurrent [waitForToken] calls (at
    non-decreasing clock readings), no window of at most [perSeconds]
    seconds holds more than [2 * maxRequests + 1] acquisitions: a full
    bucket, one period of refill, and one acquisition granted on the balance
    that the roundings of the refills leave above zero. *)
Theorem rate_window_bound (maxRequests : Z) (perSeconds : Q) (created : Z)
  (times : list Z) (from to : Z) :
  (0 <= maxRequests)%Z -> 0 < perSeconds ->
  (3 * inject_Z maxRequests + 1)
  * (1000 * perSeconds + 2 * inject_Z maxRequests + 4)
  <= 4503599627370496 ->
  chronological created times ->
  inject_Z (to - from) <= 1000 * perSeconds ->
  (Z.of_nat
     (grantedWithin from to
        (acquisitions (newRateLimiter (inject_Z maxRequests) perSeconds created)
                      times))
   <= 2 * maxRequests + 1)%Z.
Proof.
  intros Hmax Hper Hsize Hc Hwin.
  destruct (Z.lt_ge_cases to from) as [Hempty | Hft].
  { rewrite grantedWithin_empty by exact Hempty. lia. }
  set (rl := newRateLimiter (inject_Z maxRequests) perSeconds created).
  assert (HM : 0 <= inject_Z maxRequests) by (apply inject_Z_nonneg, Hmax).
  set (M := inject_Z maxRequests) in *.
  assert (HM53 : (Z.abs maxRequests <= 2 ^ 53)%Z).
  { assert (M <= 4503599627370496) by nra.
    unfold M in H.
    change 4503599627370496 with (inject_Z 4503599627370496) in H.
    rewrite <- Zle_Qle in H. lia. }
  assert (Hwf : wellFormed rl).
  { unfold wellFormed, rl, representable. cbn. fold M.
    pose proof (round_Z maxRequests HM53) as R. fold M in R.
    repeat split; try assumption; lra. }
  assert (Hs1 : slack rl <= 1).
  { unfold slack, rl. cbn. fold M. unfold Double.eps. nra. }
  pose proof (window_bound times rl from to Hwf Hs1 Hc Hft) as H.
  pose proof (ratePerMs_period rl (to - from) HM Hper Hwin) as HR.
  assert (HW0 : 0 <= inject_Z (to - from)) by (apply inject_Z_nonneg; lia).
  unfold allowance in H.
  set (k := grantedWithin from to (acquisitions rl times)) in *.
  destruct (Z.le_gt_cases (Z.of_nat k) (2 * maxRequests + 1)) as [Hk | Hk];
    [exact Hk | exfalso].
  assert (Hk' : 2 * M + 2 <= count k).
  { unfold count, M. change 2 with (inject_Z 2).
    rewrite <- inject_Z_mult, <- inject_Z_plus, <- Zle_Qle. lia. }
  cbn [Generation.maxRequests Generation.perSeconds rl newRateLimiter] in *.
  fold M in H, HR.
  set (W := inject_Z (to - from)) in *.
  set (rho := ratePerMs rl) in *.
  assert (Hsl : slack rl == Double.eps * (3 * M + 1)) by reflexivity.
  set (s := slack rl) in *.
  assert (Hs0 : 0 <= s) by (rewrite Hsl; unfold Double.eps; lra).
  assert (H1 : (1 - s) * (2 * M + 2) <= (1 - s) * count k) by nra.
  assert (H2 : s * W <= s * (1000 * perSeconds)) by nra.
  assert (H3 : M * growth
               <= M + 4 * Double.eps * M) by (unfold Double.eps; nra).
  assert (H4 : s * (1000 * perSeconds + 2 * M + 4) <= 1 # 2).
  { rewrite Hsl. unfold Double.eps.
    assert ((1 # 9007199254740992) * (3 * M + 1)
            * (1000 * perSeconds + 2 * M + 4)
            == (1 # 9007199254740992)
               * ((3 * M + 1) * (1000 * perSeconds + 2 * M + 4))) by ring.
    lra. }
  assert (H5 : 4 * Double.eps * M <= 2 * s)
    by (rewrite Hsl; unfold Double.eps; lra).
  nra.
Qed.

Lemma rate_window_bound_witness :
  (Z.of_nat (grantedWithin 0 1000 (acquisitions (rateLimiter 0) steady))
   <= 2 * 20 + 1)%Z.
Proof.
  apply (rate_window_bound 20 1 0 steady 0 1000).
  - lia.
  - reflexivity.
  - vm_compute. discriminate.
  - cbn. repeat split; lia.
  - vm_compute. discriminate.
Defined.

End RateLimiterFacts.



(** ** The dispatcher *)

Module DispatchFacts.
Import Transaction DispatchDefs.
Local Open Scope string_scope.

Lemma belowRentFloor_iff chain gk :
  belowRentFloor chain gk = true <->
  (toNumber (fetchGeneratedWalletBalance chain (keypairPublicKey gk))
   < minBalanceForRent)%Q.
Proof.
  unfold belowRentFloor. rewrite negb_true_iff.
  destruct (Qle_bool minBalanceForRent _) eqn:E.
  - apply Qle_bool_iff in E. split; [discriminate | lra].
  - split; [intros _ | reflexivity].
    apply Qnot_le_lt. intros H. apply Qle_bool_iff in H. congruence.
Qed.

Lemma send_refused settings chain gk targets :
  belowRentFloor chain gk = true ->
  sendTransactionsInParallel settings chain gk targets =
  Some {| outcomes := []; submitted := [];
          logged := [RentShortfall (fetchGeneratedWalletBalance chain
                                      (keypairPublicKey gk))] |}.
Proof.
  unfold belowRentFloor, sendTransactionsInParallel. now intros ->.
Qed.

Lemma some_constant {A : Type} (b : bool) (l : list A) :
  JS.some (fun _ => b) l = b && negb (Nat.eqb (List.length l) 0).
Proof.
  unfold JS.some. induction l as [|x l IH]; cbn.
  - now rewrite andb_false_r.
  - rewrite IH. destruct b; reflexivity.
Qed.

Lemma send_past_floor settings chain gk targets :
  belowRentFloor chain gk = false ->
  encodes chain (transferLamports settings) = true ->
  sendTransactionsInParallel settings chain gk targets =
  let settled := JS.mapi (settle chain (keypairPublicKey gk)) targets in
  Some {| outcomes := map fst settled;
          submitted :=
            map (fun t => {| toPubkey := publicKey t;
                             lamports := transferLamports settings |})
                targets;
          logged := map snd settled |}.
Proof.
  unfold belowRentFloor, sendTransactionsInParallel. intros -> ->.
  cbn [negb]. now rewrite some_constant.
Qed.

Lemma send_thrown settings chain gk targets :
  belowRentFloor chain gk = false ->
  encodes chain (transferLamports settings) = false ->
  targets <> [] ->
  sendTransactionsInParallel settings chain gk targets = None.
Proof.
  unfold belowRentFloor, sendTransactionsInParallel. intros -> -> Hne.
  cbn [negb]. rewrite some_constant.
  destruct targets; [contradiction | reflexivity].
Qed.

Lemma settle_outcomeOf chain from index t :
  outcomeOf chain index t (fst (settle chain from index t)).
Proof.
  unfold outcomeOf, settle.
  destruct (transfer chain index (publicKey t)); cbn; eauto.
Qed.

Lemma settle_success chain from index t :
  success (fst (settle chain from index t)) = true <->
  transfer chain index (publicKey t) = None.
Proof.
  unfold settle. destruct (transfer chain index (publicKey t)); cbn;
    split; congruence.
Qed.

(** C3.  With a list of targets that is not empty and a dispatch wallet
    whose balance is below the rent-exemption floor of 0.00203928 SOL,
    [sendTransactionsInParallel] submits no transfer, resolves to the
    empty array of outcomes, and logs one line, at level CRITICAL. *)
Theorem dispatch_refused_below_rent_floor settings chain gk targets balance :
  targets <> [] ->
  fetchGeneratedWalletBalance chain (keypairPublicKey gk) = Some balance ->
  (balance < 203928 # 100000000)%Q ->
  exists d,
    sendTransactionsInParallel settings chain gk targets = Some d
    /\ outcomes d = [] /\ submitted d = []
    /\ logged d = [RentShortfall (Some balance)]
    /\ map logLevel (logged d) = ["CRITICAL"].
Proof.
  intros _ Hbal Hlow.
  rewrite send_refused.
  - rewrite Hbal. eexists. split; [reflexivity |]. cbn. auto.
  - apply belowRentFloor_iff. rewrite Hbal. exact Hlow.
Qed.

Lemma dispatch_refused_below_rent_floor_witness :
  exists d,
    sendTransactionsInParallel sampleSettings unfundedChain sampleKeypair
      sampleTargets = Some d
    /\ outcomes d = [] /\ submitted d = []
    /\ logged d = [RentShortfall (Some (toSol 2000000))]
    /\ map logLevel (logged d) = ["CRITICAL"].
Proof.
  apply (dispatch_refused_below_rent_floor sampleSettings unfundedChain
           sampleKeypair sampleTargets (toSol 2000000)).
  - discriminate.
  - reflexivity.
  - reflexivity.
Defined.

(** C6 as stated fails, in two ways.  The three sample targets given to
    [sendTransactionsInParallel] with a dispatch wallet below the rent
    floor get no outcome at all, and no transfer is attempted.  And with a
    funded wallet and [amountToSend = 0.0041], the lamport amount
    [0.0041 * 1e9] comes out as 4100000.0000000005, which
    [SystemProgram.transfer] does not encode: the call rejects, with no
    outcome for any target. *)
Lemma outcome_per_target_counterexample :
  List.length sampleTargets = 3%nat
  /\ (exists d,
        sendTransactionsInParallel sampleSettings unfundedChain sampleKeypair
          sampleTargets = Some d
        /\ outcomes d = [] /\ submitted d = []
        /\ List.length (outcomes d) <> List.length sampleTargets)
  /\ belowRentFloor fundedChain sampleKeypair = false
  /\ (transferLamports fractionalSettings
      == 8804682956800001 # 2147483648)%Q
  /\ sendTransactionsInParallel fractionalSettings fundedChain sampleKeypair
       sampleTargets = None.
Proof.
  split; [reflexivity |]. split.
  - eexists. split; [reflexivity |]. cbn. repeat split. discriminate.
  - split; [reflexivity |]. split; vm_compute; reflexivity.
Qed.

(** C6, amended.  When the dispatch wallet's balance is not below the rent
    floor and [SystemProgram.transfer] encodes the lamport amount
    [amountToSend * LAMPORTS_PER_SOL] (computed on doubles, it can have a
    fractional part, which the library refuses),
    [sendTransactionsInParallel] submits one transfer of that amount per
    target and resolves to one outcome per target, in target order,
    whatever the fate of the other transfers: the outcome of a confirmed
    transfer has [success = true], the outcome of a rejected one has
    [success = false] and carries the error's message and logs. *)
Theorem one_outcome_per_target settings chain gk targets :
  belowRentFloor chain gk = false ->
  encodes chain (transferLamports settings) = true ->
  exists d,
    sendTransactionsInParallel settings chain gk targets = Some d
    /\ List.length (outcomes d) = List.length targets
    /\ submitted d
       = map (fun t => {| toPubkey := publicKey t;
                          lamports := transferLamports settings |}) targets
    /\ forall i t, nth_error targets i = Some t ->
         exists o, nth_error (outcomes d) i = Some o /\ outcomeOf chain i t o.
Proof.
  intros Hfloor Henc. rewrite (send_past_floor _ _ _ _ Hfloor Henc).
  eexists. split; [reflexivity |]. cbn.
  split; [| split].
  - rewrite length_map. apply JSFacts.mapFrom_length.
  - reflexivity.
  - intros i t Ht. unfold JS.mapi.
    exists (fst (settle chain (keypairPublicKey gk) i t)).
    split; [| apply settle_outcomeOf].
    rewrite nth_error_map, JSFacts.mapFrom_nth_error, Ht. reflexivity.
Qed.

Lemma one_outcome_per_target_witness :
  exists d,
    sendTransactionsInParallel sampleSettings fundedChain sampleKeypair
      sampleTargets = Some d
    /\ List.length (outcomes d) = List.length sampleTargets
    /\ submitted d
       = map (fun t => {| toPubkey := publicKey t;
                          lamports := transferLamports sampleSettings |})
             sampleTargets
    /\ forall i t, nth_error sampleTargets i = Some t ->
         exists o, nth_error (outcomes d) i = Some o
                   /\ outcomeOf fundedChain i t o.
Proof.
  apply (one_outcome_per_target sampleSettings fundedChain sampleKeypair
           sampleTargets).
  - reflexivity.
  - vm_compute. reflexivity.
Defined.

(** The dispatch of the specification: T2 fails, T1 and T3 go through. *)
Example dispatch_with_one_failure :
  exists d,
    sendTransactionsInParallel sampleSettings fundedChain sampleKeypair
      sampleTargets = Some d
    /\ map success (outcomes d) = [true; false; true]
    /\ map error (outcomes d) = [None; Some "insufficient funds"; None]
    /\ map lamports (submitted d) = [10000000; 10000000; 10000000]%Q
    /\ transactionStatus
         (logTransactionDetails fundedChain "now" "Main" sampleKeypair
            "Active" sampleTargets (outcomes d)) = "Partial Failure".
Proof.
  eexists. split; [vm_compute; reflexivity |]. cbn. repeat split.
Qed.

Lemma every_settled chain from targets :
  forall i,
    JS.every success (map fst (JS.mapFrom (settle chain from) i targets)) = true
    <-> forall k t, nth_error targets k = Some t ->
          transfer chain (i + k) (publicKey t) = None.
Proof.
  unfold JS.every.
  induction targets as [|t0 targets IH]; intros i; cbn [JS.mapFrom map forallb].
  - split; [|reflexivity]. intros _ [|k] t H; discriminate H.
  - rewrite andb_true_iff, settle_success, IH. split.
    + intros [H0 Hrest] [|k] t Hk; cbn in Hk.
      * inversion Hk; subst. now rewrite Nat.add_0_r.
      * rewrite Nat.add_succ_r. now apply Hrest.
    + intros H. split.
      * specialize (H 0%nat t0 eq_refl). now rewrite Nat.add_0_r in H.
      * intros k t Hk. specialize (H (S k) t Hk).
        now rewrite Nat.add_succ_r in H.
Qed.

(** The entry of a dispatch that passed the rent-floor test and whose
    amount the library encodes. *)
Lemma dispatchAndLog_past_floor settings chain atCompletion now mainWallet gk
  activeWallet targets :
  belowRentFloor chain gk = false ->
  encodes chain (transferLamports settings) = true ->
  dispatchAndLog settings chain atCompletion now mainWallet gk activeWallet
    targets
  = Some (logTransactionDetails atCompletion now mainWallet gk activeWallet
            targets
            (map fst (JS.mapi (settle chain (keypairPublicKey gk)) targets))).
Proof.
  intros Hfloor Henc. unfold dispatchAndLog.
  rewrite (send_past_floor _ _ _ _ Hfloor Henc). reflexivity.
Qed.

(** Where the status is right: once the rent-floor test is passed and the
    amount encoded, the entry says [Success] exactly when every transfer
    was confirmed. *)
Lemma status_past_floor settings chain atCompletion now mainWallet gk
  activeWallet targets :
  belowRentFloor chain gk = false ->
  encodes chain (transferLamports settings) = true ->
  option_map transactionStatus
    (dispatchAndLog settings chain atCompletion now mainWallet gk
       activeWallet targets) = Some "Success"
  <-> forall i t, nth_error targets i = Some t ->
        transfer chain i (publicKey t) = None.
Proof.
  intros Hfloor Henc.
  rewrite (dispatchAndLog_past_floor _ _ _ _ _ _ _ _ Hfloor Henc).
  unfold logTransactionDetails. cbn [option_map transactionStatus].
  unfold JS.mapi.
  rewrite <- (every_settled chain (keypairPublicKey gk) targets 0).
  destruct (JS.every success _); split; congruence.
Qed.

(** C2, at the failing input.  The dispatch of the three sample targets
    from a wallet below the rent floor (holding 0.002 SOL, or with its
    balance unreadable) transfers nothing and produces no outcome, yet the
    entry built by [logTransactionDetails] from these results has status
    [Success], next to three targets each flagged [sentSuccessful = false]. *)
Theorem refused_dispatch_logged_as_success :
  let results chain :=
    option_map outcomes
      (sendTransactionsInParallel sampleSettings chain sampleKeypair
         sampleTargets) in
  let entry chain :=
    dispatchAndLog sampleSettings chain fundedChain "now" "Main"
      sampleKeypair "Active" sampleTargets in
  results unfundedChain = Some [] /\ results unreachableChain = Some []
  /\ option_map transactionStatus (entry unfundedChain) = Some "Success"
  /\ option_map transactionStatus (entry unreachableChain) = Some "Success"
  /\ option_map (fun e => map sentSuccessful (loggedTargets e))
       (entry unfundedChain) = Some [false; false; false]
  /\ option_map (fun e => map sentSuccessful (loggedTargets e))
       (entry unreachableChain) = Some [false; false; false].
Proof. cbv zeta. repeat split. Qed.

(** C10.  For a list of targets that is not empty and an empty list of
    results, the entry built by [logTransactionDetails] has
    [transactionStatus = "Success"] while each of its targets (one per
    target given) has [sentSuccessful = false]. *)
Theorem empty_results_logged_as_success chain now mainWallet gk activeWallet
  targets :
  targets <> [] ->
  let entry := logTransactionDetails chain now mainWallet gk activeWallet
                 targets [] in
  transactionStatus entry = "Success"
  /\ map targetPublicKey (loggedTargets entry) = map publicKey targets
  /\ loggedTargets entry <> []
  /\ forall logged, In logged (loggedTargets entry) ->
       sentSuccessful logged = false.
Proof.
  intros Hne entry. subst entry. cbn.
  split; [reflexivity|]. split; [now rewrite map_map|]. split.
  - destruct targets; [contradiction | discriminate].
  - intros logged Hin. apply in_map_iff in Hin.
    destruct Hin as [t [<- _]]. reflexivity.
Qed.

Lemma empty_results_logged_as_success_witness :
  transactionStatus
    (logTransactionDetails fundedChain "now" "Main" sampleKeypair "Active"
       sampleTargets []) = "Success".
Proof.
  apply (empty_results_logged_as_success fundedChain "now" "Main"
           sampleKeypair "Active" sampleTargets).
  discriminate.
Defined.

End DispatchFacts.



(** ** Target resolution *)

Module TargetFacts.
Import Transaction TargetDefs.

Lemma collectKey_screened ledger activeWallet set key :
  (forall a, In a set -> screenedKey activeWallet a) ->
  forall a, In a (collectKey ledger activeWallet set key) ->
    screenedKey activeWallet a.
Proof.
  intros Hset a. unfold collectKey.
  destruct (getAccountInfo ledger key) as [executable|]; [|apply Hset].
  destruct executable; cbn [orb]; [apply Hset|].
  destruct (JS.includes EXCLUDED_ADDRESSES key) eqn:Hex; [apply Hset|].
  destruct (String.eqb key PublicKey_default) eqn:Hdef; cbn [negb andb];
    [apply Hset|].
  destruct (String.eqb key activeWallet) eqn:Hact; cbn [negb];
    [apply Hset|].
  intros Hin. apply JSFacts.setAdd_In in Hin.
  destruct Hin as [Hin | ->]; [now apply Hset|].
  apply JSFacts.includes_false in Hex.
  apply String.eqb_neq in Hdef, Hact. now repeat split.
Qed.

Lemma collectKey_NoDup ledger activeWallet set key :
  NoDup set -> NoDup (collectKey ledger activeWallet set key).
Proof.
  intros Hnd. unfold collectKey.
  destruct (getAccountInfo ledger key) as [executable|]; [|assumption].
  destruct (executable || _); [assumption|].
  destruct (_ && _); [now apply JSFacts.setAdd_NoDup | assumption].
Qed.

Lemma collectSignature_screened ledger activeWallet signature :
  forall set,
    (forall a, In a set -> screenedKey activeWallet a) ->
    forall a, In a (collectSignature ledger activeWallet set signature) ->
      screenedKey activeWallet a.
Proof.
  unfold collectSignature.
  destruct (getTransaction ledger signature) as [keys|]; [|auto].
  induction keys as [|key keys IH]; intros set Hset; [assumption|].
  cbn [fold_left]. apply IH. now apply collectKey_screened.
Qed.

Lemma collectSignature_NoDup ledger activeWallet signature :
  forall set, NoDup set ->
    NoDup (collectSignature ledger activeWallet set signature).
Proof.
  unfold collectSignature.
  destruct (getTransaction ledger signature) as [keys|]; [|auto].
  induction keys as [|key keys IH]; intros set Hset; [assumption|].
  cbn [fold_left]. apply IH. now apply collectKey_NoDup.
Qed.

Lemma historyAddresses_screened ledger activeWallet :
  forall a, In a (historyAddresses ledger activeWallet) ->
    screenedKey activeWallet a.
Proof.
  unfold historyAddresses.
  generalize (getSignaturesForAddress ledger activeWallet 50).
  assert (H0 : forall a, In a (@nil string) -> screenedKey activeWallet a)
    by (intros a []).
  revert H0. generalize (@nil string).
  intros set Hset signatures. revert set Hset.
  induction signatures as [|sg signatures IH]; intros set Hset; [assumption|].
  cbn [fold_left]. apply IH. now apply collectSignature_screened.
Qed.

(** The address set holds each address once. *)
Lemma historyAddresses_NoDup ledger activeWallet :
  NoDup (historyAddresses ledger activeWallet).
Proof.
  unfold historyAddresses.
  generalize (getSignaturesForAddress ledger activeWallet 50).
  assert (H0 : NoDup (@nil string)) by constructor.
  revert H0. generalize (@nil string).
  intros set Hset signatures. revert set Hset.
  induction signatures as [|sg signatures IH]; intros set Hset; [assumption|].
  cbn [fold_left]. apply IH. now apply collectSignature_NoDup.
Qed.

(** The [push] loop of lines 114-118 is a filter. *)
Lemma push_loop_filter minSol (results : list (string * Q)) :
  forall targets,
    fold_left (fun targets (result : string * Q) =>
                 let '(address, balance) := result in
                 if qualifies minSol balance
                 then targets ++ [{| publicKey := address; balance := balance |}]
                 else targets) results targets
    = targets
      ++ map (fun r => {| publicKey := fst r; balance := snd r |})
             (filter (fun r => qualifies minSol (snd r)) results).
Proof.
  induction results as [|[address bal] results IH]; intros targets;
    cbn [fold_left filter map snd fst].
  - now rewrite app_nil_r.
  - rewrite IH. destruct (qualifies minSol bal); [|reflexivity].
    now rewrite <- app_assoc.
Qed.

Lemma historyTargets_eq ledger activeWallet minSol :
  historyTargets ledger activeWallet minSol =
  map (fun r => {| publicKey := fst r; balance := snd r |})
      (filter (fun r => qualifies minSol (snd r))
              (batchGetBalances ledger (historyAddresses ledger activeWallet))).
Proof. unfold historyTargets. now rewrite push_loop_filter. Qed.

Lemma historyTargets_key ledger activeWallet minSol t :
  In t (historyTargets ledger activeWallet minSol) ->
  In (publicKey t) (historyAddresses ledger activeWallet)
  /\ balance t = toSol (getBalance ledger (publicKey t))
  /\ qualifies minSol (balance t) = true.
Proof.
  rewrite historyTargets_eq. intros Hin.
  apply in_map_iff in Hin. destruct Hin as [[a b] [<- Hin]].
  apply filter_In in Hin. destruct Hin as [Hin Hq].
  unfold batchGetBalances in Hin. apply in_map_iff in Hin.
  destruct Hin as [a' [Heq Hin]]. inversion Heq; subst. cbn. auto.
Qed.

Lemma historyTargets_screened ledger activeWallet minSol t :
  In t (historyTargets ledger activeWallet minSol) ->
  screenedKey activeWallet (publicKey t).
Proof.
  intros Hin. apply historyTargets_key in Hin. destruct Hin as [Hin _].
  now apply (historyAddresses_screened ledger).
Qed.

Lemma resolvedTargets_eq ledger activeWallet minSol :
  resolvedTargets ledger activeWallet minSol =
  historyTargets ledger activeWallet minSol
  ++ (if qualifies minSol (toSol (getBalance ledger activeWallet))
      then [activeTarget ledger activeWallet] else []).
Proof.
  unfold resolvedTargets, activeTarget.
  destruct (qualifies _ _); [reflexivity | now rewrite app_nil_r].
Qed.

Lemma firstn_In {A : Type} (n : nat) (l : list A) x :
  In x (firstn n l) -> In x l.
Proof.
  intros H. rewrite <- (firstn_skipn n l). apply in_or_app. now left.
Qed.

Lemma skipn_In {A : Type} (n : nat) (l : list A) x :
  In x (skipn n l) -> In x l.
Proof.
  intros H. rewrite <- (firstn_skipn n l). apply in_or_app. now right.
Qed.

Lemma slice_In {A : Type} (l : list A) b e x :
  In x (JS.slice l b e) -> In x l.
Proof.
  unfold JS.slice. intros H. eapply skipn_In, firstn_In. exact H.
Qed.

Lemma getTargets_eq settings ledger activeWallet minSol :
  getTargets settings ledger activeWallet minSol =
  firstn (kept (maxTargets settings)
               (List.length (resolvedTargets ledger activeWallet minSol)))
         (resolvedTargets ledger activeWallet minSol).
Proof.
  unfold getTargets, kept.
  destruct (maxTargets settings <? 0)%Z eqn:E.
  - apply Z.ltb_lt in E. now apply JSFacts.slice_negative_end.
  - apply Z.ltb_ge in E. now apply JSFacts.slice_from_start.
Qed.

Lemma getTargets_capped settings ledger activeWallet minSol :
  (0 <= maxTargets settings)%Z ->
  capped settings (getTargets settings ledger activeWallet minSol).
Proof.
  intros Hmax. unfold capped, getTargets.
  rewrite JSFacts.slice_from_start by assumption.
  pose proof (firstn_le_length (Z.to_nat (maxTargets settings))
                (resolvedTargets ledger activeWallet minSol)).
  lia.
Qed.

Lemma getTargets_screened settings ledger activeWallet minSol :
  screened activeWallet (getTargets settings ledger activeWallet minSol).
Proof.
  intros t Hin Hother. unfold getTargets in Hin. apply slice_In in Hin.
  rewrite resolvedTargets_eq in Hin. apply in_app_iff in Hin.
  destruct Hin as [Hin | Hin].
  - apply historyTargets_screened in Hin. destruct Hin as [H1 [H2 _]]. auto.
  - destruct (qualifies _ _); [|destruct Hin].
    destruct Hin as [<- | []]. now elim Hother.
Qed.

(** The retry loop returns once the clock has passed the ten-second
    budget. *)
Lemma searchLoop_returns settings session activeWallet minSol start :
  forall fuel n targets,
    (10000 <= clock session (n + fuel) - start)%Z ->
    exists r, searchLoop fuel settings session activeWallet minSol start n
                targets = Some r.
Proof.
  induction fuel as [|fuel IH]; intros n targets Hlate; cbn [searchLoop].
  - rewrite Nat.add_0_r in Hlate.
    destruct (clock session n - start <? 10000)%Z eqn:E;
      [apply Z.ltb_lt in E; lia|].
    rewrite andb_false_r. eauto.
  - destruct (_ && _); [|eauto].
    apply IH. now rewrite Nat.add_succ_r in Hlate.
Qed.

(** What the retry loop returns is its initial list or the answer of one
    of its [getTargets] calls. *)
Lemma searchLoop_result (P : list Target -> Prop) settings session
  activeWallet minSol start :
  (forall ledger, P (getTargets settings ledger activeWallet minSol)) ->
  forall fuel n targets r,
    P targets ->
    searchLoop fuel settings session activeWallet minSol start n targets
    = Some r ->
    P (fst r).
Proof.
  intros Hcall. induction fuel as [|fuel IH]; intros n targets r HP;
    cbn [searchLoop]; destruct (_ && _); intros H; try discriminate.
  - now inversion H.
  - eapply IH; [|exact H]. apply Hcall.
  - now inversion H.
Qed.

Lemma getTargetsWithTimeout_result (P : list Target -> Prop) settings session
  activeWallet minSol fuel targets :
  (forall ledger minSol', P (getTargets settings ledger activeWallet minSol')) ->
  getTargetsWithTimeout fuel settings session activeWallet minSol
  = Some targets ->
  P targets.
Proof.
  intros Hcall. unfold getTargetsWithTimeout.
  destruct (searchLoop _ _ _ _ _ _ _ _) as [[targets' n]|] eqn:E;
    [|discriminate].
  assert (HP : P targets').
  { change targets' with (fst (targets', n)).
    eapply (searchLoop_result P); [|apply Hcall|exact E].
    intros ledger. apply Hcall. }
  destruct (_ <? _)%Z; [destruct (lowerMinSol session)|];
    intros H; inversion H; subst; auto.
Qed.

Lemma getTargetsWithTimeout_returns settings session activeWallet minSol
  turns :
  (10000 <= clock session (S turns) - clock session 0)%Z ->
  exists targets,
    getTargetsWithTimeout turns settings session activeWallet minSol
    = Some targets.
Proof.
  intros Hlate. unfold getTargetsWithTimeout.
  destruct (searchLoop_returns settings session activeWallet minSol
              (clock session 0) turns 1
              (getTargets settings (ledgerAt session 0) activeWallet minSol)
              Hlate) as [[targets' n] ->].
  destruct (_ <? _)%Z; [destruct (lowerMinSol session)|]; eauto.
Qed.

Example busy_targets :
  map publicKey (getTargets defaultSettings busyLedger "Active" (1 # 100))
  = ["Peer1"; "Peer3"; "Active"]%string.
Proof. reflexivity. Qed.

(** C5 as stated fails.  An active wallet that is itself on the exclusion
    list (the token program, or the default key) is returned as a target;
    and with [maxTargets = -1] the cut keeps all but the last entry, two
    entries here. *)
Lemma target_screen_counterexample :
  map publicKey (getTargets defaultSettings quietLedger tokenProgram (1 # 100))
  = [tokenProgram]
  /\ In tokenProgram EXCLUDED_ADDRESSES
  /\ map publicKey
       (getTargets defaultSettings quietLedger PublicKey_default (1 # 100))
     = [PublicKey_default]
  /\ In PublicKey_default EXCLUDED_ADDRESSES
  /\ map publicKey (getTargets negativeSettings busyLedger "Active" (1 # 100))
     = ["Peer1"; "Peer3"]%string
  /\ ~ (Z.of_nat (List.length
                    (getTargets negativeSettings busyLedger "Active" (1 # 100)))
        <= maxTargets negativeSettings)%Z.
Proof.
  split; [reflexivity|]. split; [cbn; tauto|].
  split; [reflexivity|]. split; [cbn; tauto|].
  split; [reflexivity|]. vm_compute. intros H. apply H. reflexivity.
Qed.

(** C5, amended.  For a [maxTargets] that is not negative, [getTargets]
    (at any minimum balance, so in the relaxed pass too) returns at most
    [maxTargets] entries, none of which, the active wallet apart, is on the
    exclusion list or is the default key; and [getTargetsWithTimeout],
    which returns once its clock has passed the ten-second budget, returns
    such a list. *)
Theorem target_resolution_capped_and_screened settings session activeWallet
  minSol turns :
  (0 <= maxTargets settings)%Z ->
  (10000 <= clock session (S turns) - clock session 0)%Z ->
  (forall ledger minSol',
     capped settings (getTargets settings ledger activeWallet minSol')
     /\ screened activeWallet
          (getTargets settings ledger activeWallet minSol'))
  /\ exists targets,
       getTargetsWithTimeout turns settings session activeWallet minSol
       = Some targets
       /\ capped settings targets /\ screened activeWallet targets.
Proof.
  intros Hmax Hlate.
  assert (Hcall : forall ledger minSol',
             capped settings (getTargets settings ledger activeWallet minSol')
             /\ screened activeWallet
                  (getTargets settings ledger activeWallet minSol')).
  { intros ledger minSol'. split.
    - now apply getTargets_capped.
    - apply getTargets_screened. }
  split; [exact Hcall|].
  destruct (getTargetsWithTimeout_returns settings session activeWallet minSol
              turns Hlate) as [targets Hret].
  exists targets. split; [assumption|].
  apply (getTargetsWithTimeout_result
           (fun ts => capped settings ts /\ screened activeWallet ts)
           settings session activeWallet minSol turns targets Hcall Hret).
Qed.

Lemma target_resolution_capped_and_screened_witness :
  exists targets,
    getTargetsWithTimeout 1 defaultSettings sampleSession "Active" (1 # 100)
    = Some targets
    /\ capped defaultSettings targets /\ screened "Active" targets.
Proof.
  apply (target_resolution_capped_and_screened defaultSettings sampleSession
           "Active" (1 # 100) 1).
  - vm_compute. discriminate.
  - vm_compute. discriminate.
Defined.

Lemma historyTargets_not_active ledger activeWallet minSol t :
  In t (historyTargets ledger activeWallet minSol) ->
  publicKey t <> activeWallet.
Proof. intros Hin. apply (historyTargets_screened _ _ _ _ Hin). Qed.

Lemma firstn_last_In {A : Type} (k : nat) (l : list A) (x : A) :
  (List.length l < k)%nat -> In x (firstn k (l ++ [x])).
Proof.
  intros Hk. rewrite firstn_app. apply in_or_app. right.
  destruct (k - List.length l)%nat eqn:E; [lia|]. cbn. now left.
Qed.

Lemma firstn_short_In {A : Type} (k : nat) (l : list A) (x y : A) :
  (k <= List.length l)%nat -> In y (firstn k (l ++ [x])) -> In y l.
Proof.
  intros Hk. rewrite firstn_app.
  replace (k - List.length l)%nat with 0%nat by lia.
  cbn [firstn]. rewrite app_nil_r. apply firstn_In.
Qed.

(** C9 as stated fails: on [busyLedger] two peers meet the minimum balance
    and the active wallet, which meets it too, is still returned as a
    target. *)
Lemma active_alone_counterexample :
  let targets := getTargets defaultSettings busyLedger "Active" (1 # 100) in
  targets =
    [ {| publicKey := "Peer1"; balance := toSol 500000000 |};
      {| publicKey := "Peer3"; balance := toSol 2000000000 |};
      {| publicKey := "Active"; balance := toSol 2000000000 |} ]
  /\ qualifies (1 # 100) (toSol 500000000) = true
  /\ exists t, In t targets /\ publicKey t = "Active"%string.
Proof.
  cbv zeta. split; [reflexivity|]. split; [reflexivity|].
  eexists. split; [right; right; left; reflexivity | reflexivity].
Qed.

(** C9, amended.  After the history-derived candidates are filtered by
    the minimum balance (none of them is the active wallet), the active
    wallet's own current balance is tested, and the active wallet is
    appended to the target list exactly when that balance meets the
    minimum, whether or not another candidate met it.  Being last, it is
    in the returned list exactly when it qualifies and fewer than
    [maxTargets] history candidates qualified. *)
Theorem active_wallet_inclusion settings ledger activeWallet minSol :
  let itself := qualifies minSol (toSol (getBalance ledger activeWallet)) in
  let others := historyTargets ledger activeWallet minSol in
  (forall t, In t others ->
     publicKey t <> activeWallet /\ qualifies minSol (balance t) = true)
  /\ resolvedTargets ledger activeWallet minSol
     = others ++ (if itself then [activeTarget ledger activeWallet] else [])
  /\ ((exists t, In t (resolvedTargets ledger activeWallet minSol)
                 /\ publicKey t = activeWallet)
      <-> itself = true)
  /\ ((exists t, In t (getTargets settings ledger activeWallet minSol)
                 /\ publicKey t = activeWallet)
      <-> itself = true
          /\ (Z.of_nat (List.length others) < maxTargets settings)%Z).
Proof.
  cbv zeta. split; [|split; [|split]].
  - intros t Hin. split.
    + exact (historyTargets_not_active _ _ _ _ Hin).
    + apply (historyTargets_key _ _ _ _ Hin).
  - apply resolvedTargets_eq.
  - rewrite resolvedTargets_eq. split.
    + intros [t [Hin Hkey]]. apply in_app_iff in Hin.
      destruct Hin as [Hin | Hin].
      * elim (historyTargets_not_active _ _ _ _ Hin Hkey).
      * destruct (qualifies _ _); [reflexivity | destruct Hin].
    + intros ->. exists (activeTarget ledger activeWallet).
      split; [apply in_or_app; right; now left | reflexivity].
  - rewrite getTargets_eq, resolvedTargets_eq.
    destruct (qualifies minSol (toSol (getBalance ledger activeWallet))).
    + rewrite length_app. cbn [List.length]. unfold kept. split.
      * intros [t [Hin Hkey]]. split; [reflexivity|].
        destruct (Z.lt_ge_cases
                    (Z.of_nat (List.length
                                 (historyTargets ledger activeWallet minSol)))
                    (maxTargets settings)) as [Hlt | Hge]; [assumption|].
        exfalso. apply firstn_short_In in Hin.
        -- elim (historyTargets_not_active _ _ _ _ Hin Hkey).
        -- destruct (maxTargets settings <? 0)%Z eqn:E; [|lia].
           apply Z.ltb_lt in E. lia.
      * intros [_ Hlt]. exists (activeTarget ledger activeWallet).
        split; [|reflexivity]. apply firstn_last_In.
        destruct (maxTargets settings <? 0)%Z eqn:E; [|lia].
        apply Z.ltb_lt in E. lia.
    + rewrite app_nil_r. split.
      * intros [t [Hin Hkey]]. apply firstn_In in Hin.
        elim (historyTargets_not_active _ _ _ _ Hin Hkey).
      * intros [H _]. discriminate H.
Qed.

Lemma active_wallet_inclusion_witness :
  (exists t, In t (getTargets defaultSettings busyLedger "Active" (1 # 100))
             /\ publicKey t = "Active"%string)
  <-> qualifies (1 # 100) (toSol (getBalance busyLedger "Active")) = true
      /\ (Z.of_nat (List.length (historyTargets busyLedger "Active" (1 # 100)))
          < maxTargets defaultSettings)%Z.
Proof.
  apply (active_wallet_inclusion defaultSettings busyLedger "Active" (1 # 100)).
Defined.

End TargetFacts.

(** ** The [Map] built-in *)

Module JSMapFacts.

Lemma has_In {V : Type} (m : list (string * V)) (k : string) :
  JSMap.has m k = true <-> In k (map fst m).
Proof.
  unfold JSMap.has. rewrite existsb_exists, in_map_iff.
  split; intros [e [H1 H2]]; exists e.
  - apply String.eqb_eq in H2. auto.
  - subst k. split; [assumption | apply String.eqb_refl].
Qed.

Lemma has_false {V : Type} (m : list (string * V)) (k : string) :
  JSMap.has m k = false <-> ~ In k (map fst m).
Proof.
  rewrite <- has_In. destruct (JSMap.has m k); split; congruence.
Qed.

Lemma set_fresh {V : Type} (m : list (string * V)) (k : string) (v : V) :
  JSMap.has m k = false -> JSMap.set m k v = m ++ [(k, v)].
Proof.
  induction m as [|[k' v'] m IH]; intros H; [reflexivity|].
  cbn in H. apply orb_false_iff in H. destruct H as [Hk Hm].
  cbn. rewrite Hk, IH by assumption. reflexivity.
Qed.

Lemma set_keys_present {V : Type} (m : list (string * V)) (k : string) (v : V) :
  JSMap.has m k = true -> map fst (JSMap.set m k v) = map fst m.
Proof.
  induction m as [|[k' v'] m IH]; intros H; [discriminate|].
  cbn in H. cbn. destruct (String.eqb k' k) eqn:E.
  - apply String.eqb_eq in E. subst. reflexivity.
  - cbn in H. cbn. now rewrite IH.
Qed.

Lemma set_keys {V : Type} (m : list (string * V)) (k : string) (v : V) :
  map fst (JSMap.set m k v)
  = if JSMap.has m k then map fst m else map fst m ++ [k].
Proof.
  destruct (JSMap.has m k) eqn:E.
  - now apply set_keys_present.
  - rewrite set_fresh by assumption. now rewrite map_app.
Qed.

Lemma set_NoDup {V : Type} (m : list (string * V)) (k : string) (v : V) :
  NoDup (map fst m) -> NoDup (map fst (JSMap.set m k v)).
Proof.
  intros Hnd. rewrite set_keys. destruct (JSMap.has m k) eqn:E;
    [assumption|].
  apply has_false in E. apply NoDup_app; [assumption | | ].
  - repeat constructor. intros [].
  - intros x Hx [<- | []]. contradiction.
Qed.

Lemma has_set {V : Type} (m : list (string * V)) (k k' : string) (v : V) :
  JSMap.has (JSMap.set m k v) k' = JSMap.has m k' || String.eqb k k'.
Proof.
  unfold JSMap.has.
  induction m as [|[k0 v0] m IH]; cbn [JSMap.set existsb fst].
  - now rewrite orb_false_r.
  - destruct (String.eqb k0 k) eqn:E; cbn [existsb fst].
    + apply String.eqb_eq in E. subst k0.
      destruct (String.eqb k k'), (existsb _ m); reflexivity.
    + rewrite IH. now rewrite orb_assoc.
Qed.

Lemma get_set_same {V : Type} (m : list (string * V)) (k : string) (v : V) :
  JSMap.get (JSMap.set m k v) k = Some v.
Proof.
  unfold JSMap.get. induction m as [|[k0 v0] m IH]; cbn.
  - now rewrite String.eqb_refl.
  - destruct (String.eqb k0 k) eqn:E; cbn.
    + now rewrite String.eqb_refl.
    + now rewrite E.
Qed.

Lemma get_set_other {V : Type} (m : list (string * V)) (k k' : string)
  (v : V) :
  k' <> k -> JSMap.get (JSMap.set m k v) k' = JSMap.get m k'.
Proof.
  intros Hne. unfold JSMap.get. induction m as [|[k0 v0] m IH]; cbn.
  - apply not_eq_sym in Hne. apply String.eqb_neq in Hne. now rewrite Hne.
  - destruct (String.eqb k0 k) eqn:E; cbn.
    + apply String.eqb_eq in E. subst k0.
      apply not_eq_sym in Hne. apply String.eqb_neq in Hne. now rewrite Hne.
    + destruct (String.eqb k0 k'); [reflexivity | exact IH].
Qed.

Lemma get_app_present {V : Type} (m m' : list (string * V)) (k : string) :
  JSMap.has m k = true -> JSMap.get (m ++ m') k = JSMap.get m k.
Proof.
  unfold JSMap.get, JSMap.has.
  induction m as [|[k0 v0] m IH]; intros H; [discriminate|].
  cbn in *. destruct (String.eqb k0 k); [reflexivity|]. now apply IH.
Qed.

Lemma get_In {V : Type} (m : list (string * V)) (k : string) (v : V) :
  NoDup (map fst m) -> In (k, v) m -> JSMap.get m k = Some v.
Proof.
  unfold JSMap.get. induction m as [|[k0 v0] m IH]; intros Hnd Hin;
    [destruct Hin|].
  cbn in *. inversion Hnd as [|? ? Hnot Hnd']; subst.
  destruct Hin as [Heq | Hin].
  - inversion Heq; subst. now rewrite String.eqb_refl.
  - destruct (String.eqb k0 k) eqn:E.
    + apply String.eqb_eq in E. subst k0. exfalso. apply Hnot.
      apply in_map_iff. exists (k, v). auto.
    + now apply IH.
Qed.

Lemma fromEntries_from {V : Type} (entries : list (string * V)) :
  forall m, NoDup (map fst (m ++ entries)) ->
    fold_left (fun m e => JSMap.set m (fst e) (snd e)) entries m
    = m ++ entries.
Proof.
  induction entries as [|[k v] entries IH]; intros m Hnd; cbn [fold_left].
  - now rewrite app_nil_r.
  - cbn [fst snd]. rewrite set_fresh.
    + rewrite IH; rewrite <- app_assoc; [reflexivity | exact Hnd].
    + apply has_false. rewrite map_app in Hnd. cbn in Hnd.
      apply NoDup_remove_2 in Hnd. intros Hin. apply Hnd.
      apply in_or_app. now left.
Qed.

(** [new Map(entries)] of entries with distinct keys is these entries. *)
Lemma fromEntries_id {V : Type} (entries : list (string * V)) :
  NoDup (map fst entries) -> JSMap.fromEntries entries = entries.
Proof.
  intros Hnd. unfold JSMap.fromEntries. now rewrite fromEntries_from.
Qed.

End JSMapFacts.

(** ** The keypair pool *)

Module PoolFacts.
Import Generation Ingestion IngestionDefs.

Lemma storeKeypair_eq pool kd :
  storeKeypair pool kd =
  if JSMap.has pool (publicKey kd) then pool
  else pool ++ [(publicKey kd, kd)].
Proof.
  unfold storeKeypair. destruct (JSMap.has pool (publicKey kd)) eqn:E;
    cbn [negb]; [reflexivity|].
  now apply JSMapFacts.set_fresh.
Qed.

Lemma storeKeypair_has pool kd k :
  JSMap.has (storeKeypair pool kd) k
  = JSMap.has pool k || String.eqb (publicKey kd) k.
Proof.
  unfold storeKeypair. destruct (JSMap.has pool (publicKey kd)) eqn:E;
    cbn [negb].
  - destruct (String.eqb (publicKey kd) k) eqn:Ek.
    + apply String.eqb_eq in Ek. subst k. now rewrite E.
    + now rewrite orb_false_r.
  - apply JSMapFacts.has_set.
Qed.

(** X1.  The loop of [generateAndSaveKeypair] only appends to the pool: it
    keeps the keys distinct and each entry under the public key of its
    keypair, every generated key ends up in the pool, and a key that was
    in the pool keeps the keypair (and so the secret) it had. *)
Theorem keypair_pool_grows_uniquely pool generated :
  NoDup (keys pool) -> keyed pool ->
  let pool' := generateAndSaveKeypair pool generated in
  NoDup (keys pool') /\ keyed pool'
  /\ (exists added, pool' = pool ++ added)
  /\ (forall kd, In kd generated -> JSMap.has pool' (publicKey kd) = true)
  /\ (forall k, JSMap.has pool k = true -> JSMap.get pool' k = JSMap.get pool k).
Proof.
  unfold generateAndSaveKeypair, keys.
  revert pool. induction generated as [|kd generated IH];
    intros pool Hnd Hkeyed; cbn [fold_left].
  - split; [assumption|]. split; [assumption|].
    split; [exists []; now rewrite app_nil_r|].
    split; [intros kd [] | reflexivity].
  - assert (Hnd1 : NoDup (map fst (storeKeypair pool kd))).
    { unfold storeKeypair. destruct (negb _); [|assumption].
      now apply JSMapFacts.set_NoDup. }
    assert (Hkeyed1 : keyed (storeKeypair pool kd)).
    { rewrite storeKeypair_eq. destruct (JSMap.has pool (publicKey kd));
        [assumption|].
      intros entry Hin. apply in_app_iff in Hin.
      destruct Hin as [Hin | [<- | []]]; [now apply Hkeyed | reflexivity]. }
    destruct (IH (storeKeypair pool kd) Hnd1 Hkeyed1)
      as [H1 [H2 [[added H3] [H4 H5]]]].
    split; [assumption|]. split; [assumption|]. split; [|split].
    + rewrite H3, storeKeypair_eq.
      destruct (JSMap.has pool (publicKey kd)).
      * now exists added.
      * exists ((publicKey kd, kd) :: added). now rewrite <- app_assoc.
    + intros kd' [<- | Hin]; [|now apply H4].
      rewrite H3. unfold JSMap.has. rewrite existsb_app.
      apply orb_true_iff. left.
      change (JSMap.has (storeKeypair pool kd) (publicKey kd) = true).
      rewrite storeKeypair_has, String.eqb_refl. apply orb_true_r.
    + intros k Hk. rewrite H5.
      * rewrite storeKeypair_eq.
        destruct (JSMap.has pool (publicKey kd)); [reflexivity|].
        now apply JSMapFacts.get_app_present.
      * rewrite storeKeypair_has, Hk. reflexivity.
Qed.

Lemma keypair_pool_grows_uniquely_witness :
  NoDup (keys (generateAndSaveKeypair []
                 [ {| publicKey := "K1"; secretKey := "s1" |};
                   {| publicKey := "K2"; secretKey := "s2" |};
                   {| publicKey := "K1"; secretKey := "s3" |} ])).
Proof.
  apply (keypair_pool_grows_uniquely []
           [ {| publicKey := "K1"; secretKey := "s1" |};
             {| publicKey := "K2"; secretKey := "s2" |};
             {| publicKey := "K1"; secretKey := "s3" |} ]).
  - constructor.
  - intros entry [].
Defined.

End PoolFacts.

(** ** More on the correlator *)

Module CorrelatorFacts.
Import Generation GenerationDefs CorrelatorDefs.

Lemma filterFrom_length {A : Type} (p : A -> nat -> bool) (l : list A) :
  forall i, (List.length (JS.filterFrom p i l) <= List.length l)%nat.
Proof.
  induction l as [|x l IH]; intros i; cbn; [lia|].
  specialize (IH (S i)). destruct (p x i); cbn; lia.
Qed.

Lemma countEndMatchesFrom_bound lastSix l :
  forall i acc,
    (countEndMatchesFrom lastSix i l acc <= acc + List.length l)%nat.
Proof.
  induction l as [|c l IH]; intros i acc; cbn; [lia|].
  specialize (IH (S i) (if JS.eqAt c lastSix i then S acc else acc)).
  destruct (JS.eqAt c lastSix i); lia.
Qed.

Lemma substring_length_le n s : (String.length (substring 0 n s) <= n)%nat.
Proof.
  revert s. induction n as [|n IH]; intros [|c s]; cbn; try lia.
  specialize (IH s). lia.
Qed.

Lemma chars_length s : List.length (JS.chars s) = String.length s.
Proof.
  unfold JS.chars. induction s as [|c s IH]; cbn; [reflexivity|].
  now rewrite IH.
Qed.

Lemma lastSix_length s :
  (List.length (JS.chars (JS.strSlice s (-6) None)) <= 6)%nat.
Proof.
  unfold JS.chars, JS.strSlice.
  rewrite list_ascii_of_string_of_list_ascii.
  unfold JS.slice. rewrite length_firstn.
  set (len := Z.of_nat (List.length (list_ascii_of_string s))).
  unfold JS.relativeIndex.
  assert (H : (-6 <? 0)%Z = true) by reflexivity. rewrite H.
  apply Nat.le_trans with (Z.to_nat (len - Z.max (len + -6) 0));
    [apply Nat.le_min_l | lia].
Qed.

Lemma firstSix_eq s : firstSixOf s = substring 0 6 s.
Proof.
  unfold firstSixOf. change 6%Z with (Z.of_nat 6).
  apply JSFacts.strSlice_from_start.
Qed.

Lemma countFrontMatches_le A G :
  (countFrontMatches (firstSixOf A) (firstSixOf G) <= 6)%nat.
Proof.
  unfold countFrontMatches, JS.filteri.
  eapply Nat.le_trans; [apply filterFrom_length|].
  rewrite chars_length, firstSix_eq. apply substring_length_le.
Qed.

Lemma countEndMatches_le A G :
  (countEndMatches (JS.chars (JS.strSlice A (-6) None))
                   (JS.chars (JS.strSlice G (-6) None)) <= 6)%nat.
Proof.
  unfold countEndMatches.
  eapply Nat.le_trans; [apply countEndMatchesFrom_bound|].
  cbn [Nat.add]. apply lastSix_length.
Qed.

(** Keys that pass the test of line 90 agree on their first four
    characters, so at least four front matches are counted when the
    active key has four characters or more. *)
Lemma accepted_front_matches A G :
  accepted (firstSixOf A) (firstSixOf G) = true ->
  (4 <= String.length A)%nat ->
  (4 <= countFrontMatches (firstSixOf A) (firstSixOf G))%nat.
Proof.
  intros Hacc Hlen. apply GenerationFacts.accepted_iff in Hacc.
  rewrite !firstSix_eq.
  destruct A as [|a1 [|a2 [|a3 [|a4 A]]]]; cbn in Hlen; try lia.
  destruct G as [|g1 [|g2 [|g3 [|g4 G]]]]; cbn in Hacc; try discriminate.
  inversion Hacc; subst.
  cbn [substring]. unfold countFrontMatches, JS.filteri, JS.chars.
  cbn [list_ascii_of_string JS.filterFrom JS.eqAt nth_error].
  rewrite !Ascii.eqb_refl. cbn [List.length]. lia.
Qed.

(** X2.  Every record that [findSimilarKeysForActiveAddresses] adds has
    at most six front matches and at most six end matches, and, when the
    active key has four characters or more, at least four front matches:
    a record with fewer than four front matches is never created. *)
Theorem match_counts_in_range pool A bal la S r :
  In r (findSimilarKeysForActiveAddresses pool A bal la S) ->
  In r S
  \/ ((frontMatches r <= 6)%nat /\ (endMatches r <= 6)%nat
      /\ ((4 <= String.length A)%nat -> (4 <= frontMatches r)%nat)).
Proof.
  intros Hin.
  destruct (GenerationFacts.findSimilar_extends pool A bal la S)
    as [added [Heq Hadded]].
  rewrite Heq in Hin. apply in_app_iff in Hin.
  destruct Hin as [Hin | Hin]; [now left | right].
  destruct (Hadded r Hin) as [entry [_ [-> [Hacc _]]]]. cbn.
  split; [apply countFrontMatches_le|].
  split; [apply countEndMatches_le|].
  intros Hlen. now apply accepted_front_matches.
Qed.

Lemma match_counts_in_range_witness :
  In (recordFor sampleActive 2 "t0" (keypairOf sampleNear)) []
  \/ ((frontMatches (recordFor sampleActive 2 "t0" (keypairOf sampleNear))
       <= 6)%nat
      /\ (endMatches (recordFor sampleActive 2 "t0" (keypairOf sampleNear))
          <= 6)%nat
      /\ ((4 <= String.length sampleActive)%nat ->
          (4 <= frontMatches
                  (recordFor sampleActive 2 "t0" (keypairOf sampleNear)))%nat)).
Proof.
  apply (match_counts_in_range samplePool sampleActive 2 "t0" []).
  left. reflexivity.
Defined.

Lemma findSimilar_linked pool actives A bal la S :
  In A (map fst actives) ->
  (forall r, In r S -> linked pool actives r) ->
  forall r, In r (findSimilarKeysForActiveAddresses pool A bal la S) ->
    linked pool actives r.
Proof.
  intros HA HS r Hin.
  destruct (GenerationFacts.findSimilar_extends pool A bal la S)
    as [added [Heq Hadded]].
  rewrite Heq in Hin. apply in_app_iff in Hin.
  destruct Hin as [Hin | Hin]; [now apply HS|].
  destruct (Hadded r Hin) as [entry [Hentry [-> [Hacc _]]]].
  unfold linked. cbn. split; [assumption|]. split.
  - exists (snd entry). split; [|reflexivity].
    now rewrite <- surjective_pairing.
  - now apply GenerationFacts.accepted_iff.
Qed.

Lemma check_linked pool actives0 actives :
  incl actives actives0 ->
  forall S, (forall r, In r S -> linked pool actives0 r) ->
    forall r, In r (checkForExistingSimilarities pool actives S) ->
      linked pool actives0 r.
Proof.
  unfold checkForExistingSimilarities.
  induction actives as [|[A info] actives IH]; intros Hincl S HS;
    [exact HS|].
  cbn [fold_left]. apply IH.
  - intros x Hx. apply Hincl. now right.
  - apply findSimilar_linked; [|assumption].
    apply in_map_iff. exists (A, info). split; [reflexivity|].
    apply Hincl. now left.
Qed.

(** X3.  The full re-scan [checkForExistingSimilarities], run on an
    empty match set, yields exactly the accepted pairs: each record links
    an active address with a pool keypair whose first four characters
    agree and carries that keypair's secret; every active address and
    pool key that agree on their first four characters have a record;
    and no pair has two records. *)
Theorem full_rescan_exact pool actives :
  let S := checkForExistingSimilarities pool actives [] in
  (forall r, In r S -> linked pool actives r)
  /\ (forall A info G kd,
        In (A, info) actives -> In (G, kd) pool ->
        substring 0 4 A = substring 0 4 G -> hasPair S A G = true)
  /\ pairsUnique S.
Proof.
  cbv zeta. split; [|split].
  - apply (check_linked pool actives actives); [apply incl_refl|].
    intros r [].
  - intros A info G kd HA HG Hpre.
    apply (GenerationFacts.check_covered pool actives [] (A, info) HA
             (G, kd) HG).
    now apply GenerationFacts.accepted_iff.
  - apply GenerationFacts.check_unique. constructor.
Qed.

Lemma full_rescan_exact_witness :
  hasPair (checkForExistingSimilarities samplePool
             [(sampleActive, {| balance := 2; activity := "t0" |})] [])
          sampleActive sampleNear = true.
Proof.
  refine (proj1 (proj2 (full_rescan_exact samplePool
                          [(sampleActive,
                            {| balance := 2; activity := "t0" |})]))
                sampleActive {| balance := 2; activity := "t0" |}
                sampleNear (snd (keypairOf sampleNear)) _ _ _).
  - left. reflexivity.
  - left. reflexivity.
  - reflexivity.
Defined.

End CorrelatorFacts.

(** ** More on the rate limiter *)

Module LimiterFacts.
Import Generation RateLimiterDefs LimiterDefs.
Import DoubleFacts RateLimiterFacts.
Local Open Scope Q_scope.

Lemma limiterAfter_wellFormed times :
  forall rl,
    wellFormed rl -> chronological (lastRefilled rl) times ->
    wellFormed (limiterAfter rl times)
    /\ maxRequests (limiterAfter rl times) = maxRequests rl
    /\ perSeconds (limiterAfter rl times) = perSeconds rl.
Proof.
  induction times as [|now later IH]; intros rl Hwf Hc; cbn [limiterAfter].
  - split; [assumption|]. split; reflexivity.
  - destruct Hc as [Hnow Hc].
    pose proof (attempt_wellFormed rl now Hwf Hnow) as Hwf'.
    pose proof (attempt_spec rl now) as Hs.
    destruct (attempt rl now) as [granted rl']. cbn [snd] in *.
    destruct Hs as (Hm & Hp & Hl & _).
    rewrite <- Hl in Hc. destruct (IH rl' Hwf' Hc) as (H1 & H2 & H3).
    split; [assumption|]. split; congruence.
Qed.

Lemma newRateLimiter_wellFormed maxRequests perSeconds created :
  0 <= maxRequests -> representable maxRequests -> 0 < perSeconds ->
  wellFormed (newRateLimiter maxRequests perSeconds created).
Proof.
  intros Hmax Rmax Hper. unfold wellFormed. cbn.
  repeat split; try assumption; lra.
Qed.

(** The debt of one whole token is reached: after the turns of [drain],
    all granted, the bucket of the module's limiter holds exactly -1. *)
Example debt_of_one_token :
  acquisitions (rateLimiter 0) drain = drain
  /\ tokens (limiterAfter (rateLimiter 0) drain) == -1.
Proof. split; vm_compute; reflexivity. Qed.

(** X4.  Whatever turns are taken at non-decreasing clock readings, the
    bucket of a limiter created with a capacity [maxRequests >= 0] and a
    period [perSeconds > 0] never holds more than [maxRequests] tokens and
    never owes more than one token; its parameters stay as they were
    created. *)
Theorem bucket_stays_in_range (maxRequests perSeconds : Q) (created : Z)
  (times : list Z) :
  0 <= maxRequests -> representable maxRequests -> 0 < perSeconds ->
  chronological created times ->
  let rl := limiterAfter (newRateLimiter maxRequests perSeconds created)
              times in
  tokens rl <= maxRequests /\ -1 <= tokens rl
  /\ Generation.maxRequests rl = maxRequests
  /\ Generation.perSeconds rl = perSeconds.
Proof.
  intros Hmax Rmax Hper Hc rl. subst rl.
  pose proof (newRateLimiter_wellFormed maxRequests perSeconds created
                Hmax Rmax Hper) as Hwf.
  destruct (limiterAfter_wellFormed times _ Hwf Hc) as (H1 & H2 & H3).
  cbn in H2, H3. destruct H1 as (_ & _ & _ & Hdebt & Hcap & _).
  rewrite H2 in Hcap. auto.
Qed.

Lemma bucket_stays_in_range_witness :
  tokens (limiterAfter (rateLimiter 0) drain) <= 20
  /\ -1 <= tokens (limiterAfter (rateLimiter 0) drain).
Proof.
  refine (let H := bucket_stays_in_range 20 1 0 drain _ _ _ _ in
          conj (proj1 H) (proj1 (proj2 H))).
  - discriminate.
  - reflexivity.
  - reflexivity.
  - cbn. repeat split; lia.
Defined.

(** X5.  Over a window of any length (of practical size) the acquisitions
    granted are fewer than the capacity, plus what the refill rate yields
    over the window, plus two: the long-run rate is
    [maxRequests / perSeconds]. *)
Theorem rate_bound_any_window (maxRequests perSeconds : Q) (created : Z)
  (times : list Z) (from to : Z) :
  0 <= maxRequests -> representable maxRequests -> 0 < perSeconds ->
  chronological created times -> (from <= to)%Z ->
  let refill := inject_Z (to - from) / 1000 * (maxRequests / perSeconds) in
  (3 * maxRequests + 4)
  * (inject_Z (to - from) + 2 * (maxRequests + refill + 1) + 1)
  <= 4503599627370496 ->
  inject_Z (Z.of_nat
     (grantedWithin from to
        (acquisitions (newRateLimiter maxRequests perSeconds created) times)))
  < maxRequests + refill + 2.
Proof.
  intros Hmax Rmax Hper Hc Hft refill Hsize.
  set (rl := newRateLimiter maxRequests perSeconds created).
  pose proof (newRateLimiter_wellFormed maxRequests perSeconds created
                Hmax Rmax Hper) as Hwf. fold rl in Hwf.
  assert (HW0 : 0 <= inject_Z (to - from)) by (apply inject_Z_nonneg; lia).
  assert (Hr0 : 0 <= refill).
  { unfold refill. apply Qmult_le_0_compat.
    - apply Qle_shift_div_l; [reflexivity | lra].
    - apply (rate_nonneg rl); assumption. }
  set (W := inject_Z (to - from)) in *.
  assert (Hs1 : slack rl <= 1).
  { unfold slack, rl. cbn. unfold Double.eps. nra. }
  pose proof (window_bound times rl from to Hwf Hs1 Hc Hft) as H.
  fold (count (grantedWithin from to (acquisitions rl times))).
  set (k := count (grantedWithin from to (acquisitions rl times))) in *.
  unfold allowance in H. fold W in H.
  assert (Hrate : ratePerMs rl * W
                  == refill * growth).
  { unfold ratePerMs, refill, rl. cbn. field. lra. }
  assert (Hsl : slack rl == Double.eps * (3 * maxRequests + 1)) by reflexivity.
  cbn [Generation.maxRequests rl newRateLimiter] in H.
  set (s := slack rl) in *. set (rho := ratePerMs rl) in *.
  assert (Hs0 : 0 <= s) by (rewrite Hsl; unfold Double.eps; lra).
  apply Qnot_le_lt. intros Hk.
  set (E := maxRequests + refill + 1) in *.
  assert (HE : E == maxRequests + refill + 1) by reflexivity.
  clearbody E s rho k refill W. clear Hwf rl.
  assert (H1 : (1 - s) * (E + 1) <= (1 - s) * k) by nra.
  assert (H3 : refill * growth
               <= refill + 4 * Double.eps * refill)
    by (unfold Double.eps; nra).
  assert (H4 : Double.eps * ((3 * maxRequests + 4) * (W + 2 * E + 1))
               <= 1 # 2) by (unfold Double.eps; lra).
  assert (H5 : s * (W + E + 1) + 4 * Double.eps * refill
               <= Double.eps * ((3 * maxRequests + 4) * (W + 2 * E + 1))).
  { rewrite Hsl. unfold Double.eps. nra. }
  nra.
Qed.

Lemma rate_bound_any_window_witness :
  inject_Z (Z.of_nat
     (grantedWithin 0 50 (acquisitions (rateLimiter 0) drain)))
  < 20 + inject_Z (50 - 0) / 1000 * (20 / 1) + 2.
Proof.
  apply (rate_bound_any_window 20 1 0 drain 0 50).
  - discriminate.
  - reflexivity.
  - reflexivity.
  - cbn. repeat split; lia.
  - lia.
  - vm_compute. discriminate.
Defined.

Lemma refillAmount_same rl rl' dt :
  maxRequests rl' = maxRequests rl -> perSeconds rl' = perSeconds rl ->
  refillAmount rl' dt = refillAmount rl dt.
Proof. intros H1 H2. unfold refillAmount. now rewrite H1, H2. Qed.

(** A turn whose refill exceeds one token is granted. *)
Lemma attempt_refilled rl now :
  wellFormed rl -> 0 < maxRequests rl -> (lastRefilled rl <= now)%Z ->
  1 < refillAmount rl (now - lastRefilled rl) ->
  fst (attempt rl now) = true.
Proof.
  intros Hwf Hpos Hnow Hre.
  pose proof (attempt_spec rl now) as Hs.
  destruct (attempt rl now) as [[|] rl']; [reflexivity | exfalso].
  destruct Hs as (_ & _ & _ & _ & Hno). destruct (Hno eq_refl) as [Hle _].
  destruct Hwf as (_ & _ & _ & Hdebt & _).
  unfold filledAt in Hle.
  assert (0 < Double.add (tokens rl) (refillAmount rl (now - lastRefilled rl)))
    by (apply round_pos; lra).
  destruct (Q.min_spec (maxRequests rl)
              (Double.add (tokens rl)
                 (refillAmount rl (now - lastRefilled rl))))
    as [[_ E] | [_ E]]; rewrite E in Hle; lra.
Qed.

(** X6.  [waitForToken] is pure backpressure: on a limiter with a
    positive capacity, a caller that polls at the readings
    [waiting ++ t :: later] returns at [t] at the latest when the refill
    computed for the time between [t] and the reading before it exceeds one
    token (as the refill of one 100 ms sleep does on the module's
    limiter).  It returns at the first of its turns that finds the
    refilled bucket positive, that turn alone is granted, and it takes one
    token from the refilled bucket. *)
Theorem waitForToken_returns (rl : RateLimiter) (waiting : list Z) (t : Z)
  (later : list Z) :
  wellFormed rl -> 0 < maxRequests rl ->
  chronological (lastRefilled rl) (waiting ++ t :: later) ->
  1 < refillAmount rl (t - lastReading (lastRefilled rl) waiting) ->
  exists rl' sooner now rest,
    waiting ++ t :: later = sooner ++ now :: rest
    /\ (List.length sooner <= List.length waiting)%nat
    /\ waitForToken rl (waiting ++ t :: later) = Some (rl', rest)
    /\ acquisitions rl (sooner ++ [now]) = [now]
    /\ 0 < filledAt (limiterAfter rl sooner) now
    /\ tokens rl' = Double.sub (filledAt (limiterAfter rl sooner) now) 1
    /\ lastRefilled rl' = now
    /\ wellFormed rl'.
Proof.
  revert rl. induction waiting as [|w ws IH]; intros rl Hwf Hpos Hc Hre.
  - cbn [app lastReading] in *. destruct Hc as [Hnow Hc].
    pose proof (attempt_refilled rl t Hwf Hpos Hnow Hre) as Hg.
    pose proof (attempt_spec rl t) as Hs.
    pose proof (attempt_wellFormed rl t Hwf Hnow) as Hwf'.
    cbn [waitForToken].
    destruct (attempt rl t) as [granted rl'] eqn:E. cbn [fst snd] in *.
    subst granted.
    destruct Hs as (_ & _ & Hl & Hyes & _). destruct (Hyes eq_refl) as [Hf Ht].
    exists rl', [], t, later.
    cbn [app List.length limiterAfter acquisitions]. rewrite E.
    repeat split; auto; apply Hwf'.
  - cbn [app lastReading] in *. destruct Hc as [Hnow Hc].
    pose proof (attempt_spec rl w) as Hs.
    pose proof (attempt_wellFormed rl w Hwf Hnow) as Hwf'.
    cbn [waitForToken].
    destruct (attempt rl w) as [granted rl1] eqn:E. cbn [snd] in *.
    destruct Hs as (Hm & Hp & Hl & Hyes & Hno).
    destruct granted.
    + destruct (Hyes eq_refl) as [Hf Ht].
      exists rl1, [], w, (ws ++ t :: later).
      cbn [app List.length limiterAfter acquisitions]. rewrite E.
      repeat split; auto; try lia; apply Hwf'.
    + rewrite <- Hl in Hc.
      assert (Hpos1 : 0 < maxRequests rl1) by (rewrite Hm; exact Hpos).
      assert (Hre1 : 1 < refillAmount rl1
                           (t - lastReading (lastRefilled rl1) ws)).
      { rewrite Hl, (refillAmount_same rl rl1 _ Hm Hp). exact Hre. }
      destruct (IH rl1 Hwf' Hpos1 Hc Hre1)
        as (rl' & sooner & now & rest & Heq & Hlen & Hret & Hacq & Hf & Ht
            & Hl' & Hwf2).
      exists rl', (w :: sooner), now, rest.
      cbn [app List.length limiterAfter acquisitions]. rewrite E. cbn [snd].
      repeat split; auto; try lia; try apply Hwf2. now rewrite Heq.
Qed.

(** The module's limiter, drained by twenty acquisitions at time 0, then
    polled at 0, 100 and 200 ms. *)
Lemma waitForToken_returns_witness :
  exists rl' sooner now rest,
    [0; 100; 200]%Z = sooner ++ now :: rest
    /\ (List.length sooner <= 1)%nat
    /\ waitForToken (limiterAfter (rateLimiter 0) (repeat 0%Z 20))
         [0; 100; 200]%Z = Some (rl', rest)
    /\ acquisitions (limiterAfter (rateLimiter 0) (repeat 0%Z 20))
         (sooner ++ [now]) = [now]
    /\ 0 < filledAt (limiterAfter
                       (limiterAfter (rateLimiter 0) (repeat 0%Z 20)) sooner)
                    now
    /\ tokens rl'
       = Double.sub
           (filledAt (limiterAfter
                        (limiterAfter (rateLimiter 0) (repeat 0%Z 20)) sooner)
                     now) 1
    /\ lastRefilled rl' = now
    /\ wellFormed rl'.
Proof.
  apply (waitForToken_returns
           (limiterAfter (rateLimiter 0) (repeat 0%Z 20))
           [0%Z] 100%Z [200%Z]).
  - vm_compute. repeat split; discriminate.
  - reflexivity.
  - vm_compute. repeat split; discriminate.
  - vm_compute. reflexivity.
Defined.

(** A bucket that holds [k >= 1] tokens grants the next turn and holds
    [k - 1] afterwards. *)
Lemma attempt_stocked rl now k :
  wellFormed rl -> maxRequests rl <= 9007199254740992 ->
  (lastRefilled rl <= now)%Z -> (1 <= k)%Z -> inject_Z k <= tokens rl ->
  exists rl',
    attempt rl now = (true, rl')
    /\ inject_Z (k - 1) <= tokens rl'
    /\ wellFormed rl'
    /\ maxRequests rl' = maxRequests rl
    /\ lastRefilled rl' = now.
Proof.
  intros Hwf H53 Hnow Hk Htok.
  pose proof (attempt_spec rl now) as Hs.
  pose proof (attempt_wellFormed rl now Hwf Hnow) as Hwf'.
  destruct Hwf as (Hmax & Rmax & Hper & Hdebt & Hcap & Rtok).
  pose proof (refillAmount_nonneg rl (now - lastRefilled rl) Hmax Hper
                ltac:(lia)) as Hre.
  assert (K1 : 1 <= inject_Z k) by (rewrite <- (Zle_Qle 1); exact Hk).
  assert (Hfill : tokens rl <= filledAt rl now).
  { unfold filledAt. apply Q.min_glb; [exact Hcap |].
    unfold Double.add. unfold representable in Rtok. rewrite <- Rtok at 1.
    apply round_mono. lra. }
  destruct (attempt rl now) as [granted rl']. cbn [snd] in Hwf'.
  destruct Hs as (Hm & Hp & Hl & Hyes & Hno).
  destruct granted.
  - destruct (Hyes eq_refl) as [Hf Ht]. exists rl'.
    split; [reflexivity |]. split; [| auto].
    rewrite Ht. unfold Double.sub.
    assert (R : Double.round (inject_Z (k - 1)) == inject_Z (k - 1)).
    { apply round_Z.
      assert (inject_Z k <= inject_Z 9007199254740992).
      { change (inject_Z 9007199254740992) with 9007199254740992. lra. }
      rewrite <- Zle_Qle in H. lia. }
    rewrite <- R. apply round_mono.
    unfold Z.sub. rewrite inject_Z_plus. change (inject_Z (- (1))) with (-1).
    lra.
  - destruct (Hno eq_refl) as [Hle _]. lra.
Qed.

End LimiterFacts.

(** ** The rounding against the floats of the kernel *)

Module Binary64Facts.
Import Generation RateLimiterDefs LimiterDefs.

(** [Double] computes what the binary64 operations of the kernel
    compute: on quotients of integers, and on the sum, the difference and
    the product of two of them. *)
Example operations_agree :
  let quotient p :=
    PrimFloat.div (Binary64.ofZ (fst p)) (Binary64.ofZ (snd p)) in
  let exact p := Double.div (inject_Z (fst p)) (inject_Z (snd p)) in
  let x := (41, 10000)%Z in
  let y := (203928, 100000000)%Z in
  map (fun p => Double.ofFloat (quotient p)) ratios
  = map (fun p => Some (exact p)) ratios
  /\ Double.ofFloat (PrimFloat.add (quotient x) (quotient y))
     = Some (Double.add (exact x) (exact y))
  /\ Double.ofFloat (PrimFloat.sub (quotient x) (quotient y))
     = Some (Double.sub (exact x) (exact y))
  /\ Double.ofFloat (PrimFloat.mul (quotient x) (quotient y))
     = Some (Double.mul (exact x) (exact y))
  /\ Double.ofFloat (PrimFloat.mul (quotient x) (Binary64.ofZ 1000000000))
     = Some (Double.mul (exact x) 1000000000).
Proof. cbv zeta. repeat split; vm_compute; reflexivity. Qed.

(** The limiter of [Generation] and the limiter on the floats of the
    kernel grant the same turns and hold the same bucket after each turn,
    on the sample runs. *)
Example limiter_agrees :
  Binary64.run (Binary64.rateLimiter 0) burst = history (rateLimiter 0) burst
  /\ Binary64.run (Binary64.rateLimiter 0) steady
     = history (rateLimiter 0) steady
  /\ Binary64.run (Binary64.rateLimiter 0) drain
     = history (rateLimiter 0) drain
  /\ Binary64.run (Binary64.rateLimiter 0) irregular
     = history (rateLimiter 0) irregular.
Proof. repeat split; vm_compute; reflexivity. Qed.

End Binary64Facts.

(** ** The address feeds *)

Module IngestionFacts.
Import Generation Ingestion IngestionDefs.
Import RateLimiterDefs.

Example ingest_sample :
  match ingestKeys 1 sampleNode (freshState []) sampleClock sampleKeys with
  | Some (st, clock) =>
      keys (activeAddresses st) = ["Rich"%string]
      /\ addressesToExplore st = ["Rich"%string]
      /\ List.length clock = 7%nat
  | None => False
  end.
Proof. vm_compute. repeat split. Qed.

(** The ways [checkAndAddAddress] returns. *)
Lemma checkAndAdd_cases minSol node st clock a ok st' clock' :
  checkAndAddAddress minSol node st clock a = Some (ok, st', clock') ->
  ((autoMode st = false \/ In a EXCLUDED_ADDRESSES)
   /\ ok = false /\ st' = st /\ clock' = clock)
  \/ (autoMode st = true /\ ~ In a EXCLUDED_ADDRESSES
      /\ exists rl,
          waitForToken (limiter st) clock = Some (rl, clock')
          /\ ((exists balance,
                 balanceAt node a = Some balance
                 /\ (MINIMUM_BALANCE minSol <= inject_Z balance)%Q
                 /\ ok = true
                 /\ st' = recordActive (withLimiter st rl) a
                            (inject_Z balance / 1000000000)%Q (stamp node))
              \/ (~ meetsThreshold minSol node a
                  /\ ok = false /\ st' = withLimiter st rl))).
Proof.
  unfold checkAndAddAddress.
  destruct (autoMode st) eqn:Hauto; cbn [negb orb].
  - destruct (JS.includes EXCLUDED_ADDRESSES a) eqn:Hex.
    + apply JSFacts.includes_In in Hex. intros H. inversion H; subst.
      left. auto.
    + apply JSFacts.includes_false in Hex.
      destruct (waitForToken (limiter st) clock) as [[rl later]|];
        [|discriminate].
      intros H. right. split; [reflexivity|]. split; [assumption|].
      exists rl.
      destruct (balanceAt node a) as [balance|] eqn:Hbal.
      * destruct (Qle_bool (MINIMUM_BALANCE minSol) (inject_Z balance))
          eqn:Hq; inversion H; subst; (split; [reflexivity|]).
        -- left. exists balance. apply Qle_bool_iff in Hq. auto.
        -- right. split; [|auto]. intros [b [Hb Hle]].
           rewrite Hbal in Hb. inversion Hb; subst.
           apply Qle_bool_iff in Hle. congruence.
      * inversion H; subst. split; [reflexivity|]. right.
        split; [|auto]. intros [b [Hb _]]. congruence.
  - intros H. inversion H; subst. left. auto.
Qed.

(** X7.  [checkAndAddAddress], when it returns, answers [true] exactly
    when scanning is on, the address is not excluded and the balance read
    from the node meets the threshold.  On [true] the address is active
    with that balance in SOL and the current stamp, and the match set is
    the correlation of the address against the pool; on [false] (scanning
    off, excluded address, low balance, failed read) the active set and
    the match set are as before.  The pool and the queue are never
    touched. *)
Theorem checkAndAdd_outcome minSol node st clock a ok st' clock' :
  checkAndAddAddress minSol node st clock a = Some (ok, st', clock') ->
  (ok = true <->
     autoMode st = true /\ ~ In a EXCLUDED_ADDRESSES
     /\ meetsThreshold minSol node a)
  /\ (ok = true ->
        exists balance,
          balanceAt node a = Some balance
          /\ JSMap.get (activeAddresses st') a
             = Some {| balance := (inject_Z balance / 1000000000)%Q;
                       activity := stamp node |}
          /\ similarAddresses st'
             = findSimilarKeysForActiveAddresses (generatedKeypairs st) a
                 (inject_Z balance / 1000000000)%Q (stamp node)
                 (similarAddresses st))
  /\ (ok = false ->
        activeAddresses st' = activeAddresses st
        /\ similarAddresses st' = similarAddresses st)
  /\ generatedKeypairs st' = generatedKeypairs st
  /\ addressesToExplore st' = addressesToExplore st
  /\ autoMode st' = autoMode st.
Proof.
  intros H. apply checkAndAdd_cases in H.
  destruct H as [[Hskip [-> [-> ->]]]
                | [Hauto [Hex [rl [_ [[b [Hb [Hle [-> ->]]]]
                                     | [Hlow [-> ->]]]]]]]].
  - split; [|repeat split; discriminate].
    split; [discriminate|]. intros [Hauto [Hex _]].
    destruct Hskip; [congruence | contradiction].
  - split; [split; [intros _ | reflexivity]|].
    + split; [assumption|]. split; [assumption|]. exists b. auto.
    + split; [|repeat split; discriminate].
      intros _. exists b. split; [assumption|]. cbn.
      split; [apply JSMapFacts.get_set_same | reflexivity].
  - split; [split; [discriminate|]|].
    + intros [_ [_ Hmeets]]. contradiction.
    + split; [discriminate|]. repeat split.
Qed.

Lemma checkAndAdd_outcome_witness : generatedKeypairs sampleChecked = [].
Proof.
  refine (proj1 (proj2 (proj2 (proj2
            (checkAndAdd_outcome 1 sampleNode (freshState []) sampleClock
               "Rich" true sampleChecked (repeat 0%Z 9) _))))).
  vm_compute. reflexivity.
Defined.

Ltac state_fields :=
  cbn [autoMode generatedKeypairs activeAddresses similarAddresses
       addressesToExplore limiter withLimiter recordActive enqueue
       clearQueue] in *.

Lemma recordActive_consistent st rl a bal la :
  consistent st -> ~ In a EXCLUDED_ADDRESSES ->
  consistent (recordActive (withLimiter st rl) a bal la)
  /\ JSMap.has (activeAddresses (recordActive (withLimiter st rl) a bal la)) a
     = true.
Proof.
  intros [Hnd [Hq [Hex [Hrec Huniq]]]] Ha.
  assert (Hhas : forall x,
             JSMap.has (JSMap.set (activeAddresses st) a
                          {| balance := bal; activity := la |}) x
             = JSMap.has (activeAddresses st) x || String.eqb a x)
    by (intros x; apply JSMapFacts.has_set).
  split; [|state_fields; rewrite Hhas, String.eqb_refl; apply orb_true_r].
  unfold consistent. state_fields. split; [|split; [|split; [|split]]].
  - now apply JSMapFacts.set_NoDup.
  - intros x Hx. rewrite Hhas, (Hq x Hx). reflexivity.
  - intros x Hx. rewrite Hhas in Hx. apply orb_true_iff in Hx.
    destruct Hx as [Hx | Hx]; [now apply Hex|].
    apply String.eqb_eq in Hx. now subst x.
  - intros r Hr.
    destruct (GenerationFacts.findSimilar_extends (generatedKeypairs st) a
                bal la (similarAddresses st)) as [added [Heq Hadded]].
    rewrite Heq in Hr. apply in_app_iff in Hr. destruct Hr as [Hr | Hr].
    + destruct (Hrec r Hr) as [H1 H2]. rewrite Hhas, H1. auto.
    + destruct (Hadded r Hr) as [entry [Hentry [-> _]]].
      cbn [GenerationDefs.recordFor activeAddress generatedPublicKey].
      rewrite Hhas, String.eqb_refl, orb_true_r. split; [reflexivity|].
      apply JSMapFacts.has_In. apply in_map. assumption.
  - now apply GenerationFacts.findSimilar_unique.
Qed.

Lemma withLimiter_consistent st rl :
  consistent st -> consistent (withLimiter st rl).
Proof. intros H. exact H. Qed.

Lemma checkAndAdd_consistent minSol node st clock a ok st' clock' :
  checkAndAddAddress minSol node st clock a = Some (ok, st', clock') ->
  consistent st ->
  consistent st'
  /\ (ok = true -> JSMap.has (activeAddresses st') a = true)
  /\ (forall x, JSMap.has (activeAddresses st) x = true ->
        JSMap.has (activeAddresses st') x = true).
Proof.
  intros H Hc. apply checkAndAdd_cases in H.
  destruct H as [[Hskip [-> [-> ->]]]
                | [Hauto [Hex [rl [_ [[b [Hb [Hle [-> ->]]]]
                                     | [Hlow [-> ->]]]]]]]].
  - split; [assumption|]. split; [discriminate | auto].
  - destruct (recordActive_consistent st rl a
                (inject_Z b / 1000000000)%Q (stamp node) Hc Hex) as [H1 H2].
    split; [assumption|]. split; [auto|].
    intros x Hx. state_fields. rewrite JSMapFacts.has_set, Hx. reflexivity.
  - split; [assumption|]. split; [discriminate | auto].
Qed.

Lemma enqueue_consistent st a :
  consistent st -> JSMap.has (activeAddresses st) a = true ->
  consistent (enqueue st a).
Proof.
  intros [Hnd [Hq [Hex [Hrec Huniq]]]] Ha.
  unfold consistent. state_fields. split; [assumption|]. split; [|auto].
  intros x Hx. apply JSFacts.setAdd_In in Hx.
  destruct Hx as [Hx | ->]; auto.
Qed.

Lemma ingestKeys_consistent minSol node addresses :
  forall st clock st' clock',
    ingestKeys minSol node st clock addresses = Some (st', clock') ->
    consistent st -> consistent st'.
Proof.
  induction addresses as [|a rest IH]; intros st clock st' clock' H Hc;
    cbn [ingestKeys] in H.
  - inversion H; subst. assumption.
  - destruct (negb (JSMap.has (activeAddresses st) a)
              && negb (JS.includes EXCLUDED_ADDRESSES a)); [|eauto].
    destruct (checkAndAddAddress minSol node st clock a)
      as [[[ok st1] clock1]|] eqn:E; [|discriminate].
    destruct (checkAndAdd_consistent _ _ _ _ _ _ _ _ E Hc) as [H1 [H2 _]].
    eapply IH; [exact H|].
    destruct ok; [|assumption]. apply enqueue_consistent; auto.
Qed.

Lemma ingestBlock_consistent minSol node transactions :
  forall st clock st' clock',
    ingestBlock minSol node st clock transactions = Some (st', clock') ->
    consistent st -> consistent st'.
Proof.
  induction transactions as [|tx rest IH]; intros st clock st' clock' H Hc;
    cbn [ingestBlock] in H.
  - inversion H; subst. assumption.
  - destruct (negb (autoMode st)); [inversion H; subst; assumption|].
    destruct tx as [| |accountKeys].
    + inversion H; subst. assumption.
    + eauto.
    + destruct (ingestKeys minSol node st clock accountKeys)
        as [[st1 clock1]|] eqn:E; [|discriminate].
      eapply IH; [exact H|]. eapply ingestKeys_consistent; eauto.
Qed.

Lemma fetchRecent_consistent minSol node blockhash block st clock st' clock' :
  fetchRecentTransactions minSol node blockhash block st clock
  = Some (st', clock') ->
  consistent st -> consistent st'.
Proof.
  unfold fetchRecentTransactions. intros H Hc.
  destruct (negb (autoMode st)); [inversion H; subst; assumption|].
  destruct (waitForToken (limiter st) clock) as [[rl1 clock1]|];
    [|discriminate].
  destruct (negb blockhash); [inversion H; subst; assumption|].
  destruct (waitForToken rl1 clock1) as [[rl2 clock2]|]; [|discriminate].
  destruct block as [transactions|]; [|inversion H; subst; assumption].
  eapply ingestBlock_consistent; [exact H|]. assumption.
Qed.

Lemma recheck_consistent minSol node addresses :
  forall st clock st' clock',
    recheck minSol node st clock addresses = Some (st', clock') ->
    consistent st -> consistent st'.
Proof.
  induction addresses as [|a rest IH]; intros st clock st' clock' H Hc;
    cbn [recheck] in H.
  - inversion H; subst. assumption.
  - destruct (negb (autoMode st)); [inversion H; subst; assumption|].
    destruct (checkAndAddAddress minSol node st clock a)
      as [[[ok st1] clock1]|] eqn:E; [|discriminate].
    eapply IH; [exact H|].
    now destruct (checkAndAdd_consistent _ _ _ _ _ _ _ _ E Hc).
Qed.

Lemma clearQueue_consistent st : consistent st -> consistent (clearQueue st).
Proof.
  intros [Hnd [Hq [Hex [Hrec Huniq]]]]. unfold consistent. state_fields.
  split; [assumption|]. split; [intros a []|]. auto.
Qed.

(** X8.  The feeds keep the collections consistent: after the loop over
    the account keys of a notification, after [fetchRecentTransactions]
    and after a turn of [exploreAddresses], the active set still holds
    each address once and no excluded address, the exploration queue
    holds active addresses only, each match record links an active
    address with a pool key, and no pair has two records. *)
Theorem feeds_keep_consistency minSol node node' blockhash block st clock :
  consistent st ->
  (forall addresses st' clock',
     ingestKeys minSol node st clock addresses = Some (st', clock') ->
     consistent st')
  /\ (forall st' clock',
        fetchRecentTransactions minSol node blockhash block st clock
        = Some (st', clock') ->
        consistent st')
  /\ (forall st' clock',
        exploreTurn minSol node node' blockhash block st clock
        = Some (st', clock') ->
        consistent st').
Proof.
  intros Hc. split; [|split].
  - intros addresses st' clock' H. eapply ingestKeys_consistent; eauto.
  - intros st' clock' H. eapply fetchRecent_consistent; eauto.
  - intros st' clock'. unfold exploreTurn.
    destruct (recheck minSol node (clearQueue st) clock
                (addressesToExplore st)) as [[st1 clock1]|] eqn:E;
      [|discriminate].
    assert (Hc1 : consistent st1).
    { eapply recheck_consistent; [exact E|].
      now apply clearQueue_consistent. }
    destruct (List.length (addressesToExplore st1) =? 0)%nat;
      [|intros H; inversion H; subst; assumption].
    destruct (negb (autoMode st1)); [intros H; inversion H; subst; assumption|].
    intros H. eapply fetchRecent_consistent; eauto.
Qed.

Lemma freshState_consistent pool : consistent (freshState pool).
Proof.
  unfold consistent, freshState. state_fields.
  split; [constructor|]. split; [intros a []|].
  split; [intros a H; discriminate H|].
  split; [intros r []| constructor].
Qed.

Lemma feeds_keep_consistency_witness : consistent sampleIngested.
Proof.
  refine (proj1 (feeds_keep_consistency 1 sampleNode sampleNode true None
                   (freshState []) sampleClock (freshState_consistent []))
                sampleKeys sampleIngested (repeat 0%Z 7) _).
  vm_compute. reflexivity.
Defined.

(** X19.  In the loop over the transactions of a block, an entry
    without an account-key array is skipped and the loop goes on, but a
    [null] entry ends the call: the transactions that follow it are never
    examined, whatever they are. *)
Theorem null_transaction_ends_block minSol node before :
  forall st clock after,
    ingestBlock minSol node st clock (before ++ NullTransaction :: after)
    = ingestBlock minSol node st clock before
    /\ (autoMode st = true ->
        ingestBlock minSol node st clock (WithoutKeys :: after)
        = ingestBlock minSol node st clock after).
Proof.
  induction before as [|tx before IH]; intros st clock after.
  - split.
    + cbn [app ingestBlock]. now destruct (negb (autoMode st)).
    + intros Hauto. cbn [ingestBlock]. now rewrite Hauto.
  - split.
    + cbn [app ingestBlock]. destruct (negb (autoMode st)); [reflexivity|].
      destruct tx as [| |accountKeys]; [reflexivity | apply IH |].
      destruct (ingestKeys minSol node st clock accountKeys)
        as [[st1 c1]|]; [apply IH | reflexivity].
    + intros Hauto. cbn [ingestBlock]. now rewrite Hauto.
Qed.

Lemma null_transaction_ends_block_witness :
  ingestBlock 1 sampleNode (freshState []) sampleClock
    [WithoutKeys; WithKeys sampleKeys]
  = ingestBlock 1 sampleNode (freshState []) sampleClock
      [WithKeys sampleKeys].
Proof.
  refine (proj2 (null_transaction_ends_block 1 sampleNode []
                   (freshState []) sampleClock [WithKeys sampleKeys]) _).
  reflexivity.
Defined.

Lemma checkAndAdd_frame minSol node st clock a ok st' clock' :
  checkAndAddAddress minSol node st clock a = Some (ok, st', clock') ->
  autoMode st' = autoMode st
  /\ addressesToExplore st' = addressesToExplore st.
Proof.
  intros H. apply checkAndAdd_cases in H.
  destruct H as [[_ [_ [-> _]]]
                | [_ [_ [rl [_ [[b [_ [_ [_ ->]]]] | [_ [_ ->]]]]]]]];
    split; reflexivity.
Qed.

Lemma checkAndAdd_autoMode minSol node st clock a ok st' clock' :
  checkAndAddAddress minSol node st clock a = Some (ok, st', clock') ->
  autoMode st' = autoMode st.
Proof. intros H. now apply checkAndAdd_frame in H. Qed.

(** The loop over the account keys, when it returns, makes active exactly
    the addresses it should. *)
Lemma ingestKeys_active_iff minSol node addresses :
  forall st clock st' clock',
    ingestKeys minSol node st clock addresses = Some (st', clock') ->
    autoMode st = true ->
    forall a,
      JSMap.has (activeAddresses st') a = true
      <-> JSMap.has (activeAddresses st) a = true
          \/ (In a addresses /\ ~ In a EXCLUDED_ADDRESSES
              /\ meetsThreshold minSol node a).
Proof.
  induction addresses as [|x rest IH]; intros st clock st' clock' H Hauto a;
    cbn [ingestKeys] in H.
  - inversion H; subst. split; [auto|]. intros [Ha | [[] _]]. assumption.
  - destruct (JSMap.has (activeAddresses st) x) eqn:Hx; cbn [negb andb] in H.
    + rewrite (IH _ _ _ _ H Hauto a). split.
      * intros [Ha | [Hin Hrest]]; [auto|]. right. split; [now right | auto].
      * intros [Ha | [[<- | Hin] Hrest]]; auto.
    + destruct (JS.includes EXCLUDED_ADDRESSES x) eqn:Hex; cbn [negb] in H.
      * apply JSFacts.includes_In in Hex.
        rewrite (IH _ _ _ _ H Hauto a). split.
        -- intros [Ha | [Hin Hrest]]; [auto|]. right.
           split; [now right | auto].
        -- intros [Ha | [[<- | Hin] [Hnot Hm]]]; auto; contradiction.
      * apply JSFacts.includes_false in Hex.
        destruct (checkAndAddAddress minSol node st clock x)
          as [[[ok st1] clock1]|] eqn:E; [|discriminate].
        pose proof (checkAndAdd_autoMode _ _ _ _ _ _ _ _ E) as Hauto1.
        rewrite Hauto in Hauto1.
        pose proof (checkAndAdd_cases _ _ _ _ _ _ _ _ E) as Hcases.
        assert (Hstep : forall y,
                   JSMap.has (activeAddresses
                                (if ok then enqueue st1 x else st1)) y = true
                   <-> JSMap.has (activeAddresses st) y = true
                       \/ (y = x /\ meetsThreshold minSol node x)).
        { intros y.
          destruct Hcases as [[Hskip [-> [-> ->]]]
                             | [_ [_ [rl [_ [[b [Hb [Hle [-> ->]]]]
                                            | [Hlow [-> ->]]]]]]]].
          - destruct Hskip; [congruence | contradiction].
          - state_fields. rewrite JSMapFacts.has_set, orb_true_iff,
              String.eqb_eq.
            split; intros [Hy | Hy]; auto.
            + right. subst y. split; [reflexivity|]. exists b. auto.
            + right. symmetry. apply Hy.
          - state_fields. split; [auto|].
            intros [Hy | [_ Hm]]; [assumption | contradiction]. }
        rewrite (IH _ _ _ _ H
                   ltac:(destruct ok; state_fields; assumption) a).
        rewrite Hstep. split.
        -- intros [[Ha | [-> Hm]] | [Hin Hrest]]; auto.
           ++ right. split; [now left | auto].
           ++ right. split; [now right | auto].
        -- intros [Ha | [[<- | Hin] [Hnot Hm]]]; auto.
Qed.

(** *** The feeds return while the bucket holds tokens *)

Lemma stocked_weaken rl clock k k' :
  (k' <= k)%nat -> stocked rl clock k -> stocked rl clock k'.
Proof.
  intros Hk (Hwf & H53 & Hc & Hlen & Htok).
  repeat split; try assumption; try apply Hwf; [lia |].
  apply Qle_trans with (inject_Z (Z.of_nat k)); [| exact Htok].
  rewrite <- Zle_Qle. lia.
Qed.

(** With a token in the bucket [waitForToken] returns at its first
    turn. *)
Lemma waitForToken_stocked rl clock k :
  stocked rl clock (S k) ->
  exists rl' now later,
    clock = now :: later
    /\ waitForToken rl clock = Some (rl', later)
    /\ stocked rl' later k.
Proof.
  intros (Hwf & H53 & Hc & Hlen & Htok).
  destruct clock as [|now later]; [cbn in Hlen; lia |].
  destruct Hc as [Hnow Hc]. cbn [List.length] in Hlen.
  destruct (LimiterFacts.attempt_stocked rl now (Z.of_nat (S k)) Hwf H53 Hnow
              ltac:(lia) Htok) as (rl' & Hatt & Htok' & Hwf' & Hm & Hl).
  exists rl', now, later. split; [reflexivity |].
  cbn [waitForToken]. rewrite Hatt. split; [reflexivity |].
  unfold stocked. rewrite Hm, Hl.
  replace (Z.of_nat (S k) - 1)%Z with (Z.of_nat k) in Htok' by lia.
  repeat split; try assumption; try apply Hwf'. lia.
Qed.

Lemma checkAndAdd_returns minSol node st clock a k :
  stocked (limiter st) clock (S k) ->
  exists ok st' clock',
    checkAndAddAddress minSol node st clock a = Some (ok, st', clock')
    /\ stocked (limiter st') clock' k.
Proof.
  intros Hs. unfold checkAndAddAddress.
  destruct (negb (autoMode st) || JS.includes EXCLUDED_ADDRESSES a).
  - exists false, st, clock. split; [reflexivity |].
    apply (stocked_weaken _ _ (S k)); [lia | exact Hs].
  - destruct (waitForToken_stocked _ _ _ Hs)
      as (rl' & now & later & -> & -> & Hs').
    destruct (balanceAt node a) as [balance|].
    + destruct (Qle_bool (MINIMUM_BALANCE minSol) (inject_Z balance));
        eexists _, _, _; (split; [reflexivity | exact Hs']).
    + eexists _, _, _. split; [reflexivity | exact Hs'].
Qed.

Lemma ingestKeys_returns minSol node addresses :
  forall st clock k,
    stocked (limiter st) clock (List.length addresses + k) ->
    exists st' clock',
      ingestKeys minSol node st clock addresses = Some (st', clock')
      /\ stocked (limiter st') clock' k.
Proof.
  induction addresses as [|x rest IH]; intros st clock k Hs;
    cbn [ingestKeys List.length Nat.add] in *.
  - eauto.
  - destruct (negb (JSMap.has (activeAddresses st) x)
              && negb (JS.includes EXCLUDED_ADDRESSES x)).
    + destruct (checkAndAdd_returns minSol node st clock x _ Hs)
        as (ok & st1 & clock1 & -> & Hs1).
      apply IH. destruct ok; exact Hs1.
    + apply IH. apply (stocked_weaken _ _ (S (List.length rest + k)));
        [lia | exact Hs].
Qed.

Lemma ingestBlock_returns minSol node transactions :
  forall st clock k,
    stocked (limiter st) clock (keyCount transactions + k) ->
    exists st' clock',
      ingestBlock minSol node st clock transactions = Some (st', clock')
      /\ stocked (limiter st') clock' k.
Proof.
  induction transactions as [|tx rest IH]; intros st clock k Hs;
    cbn [ingestBlock keyCount] in *.
  - eauto.
  - destruct (negb (autoMode st)).
    { exists st, clock. split; [reflexivity |].
      eapply stocked_weaken; [| exact Hs]. lia. }
    destruct tx as [| | accountKeys].
    + exists st, clock. split; [reflexivity |].
      eapply stocked_weaken; [| exact Hs]. lia.
    + apply IH. exact Hs.
    + rewrite <- Nat.add_assoc in Hs.
      destruct (ingestKeys_returns minSol node accountKeys st clock _ Hs)
        as (st1 & clock1 & -> & Hs1).
      apply IH. exact Hs1.
Qed.

Lemma recheck_returns minSol node addresses :
  forall st clock k,
    stocked (limiter st) clock (List.length addresses + k) ->
    exists st' clock',
      recheck minSol node st clock addresses = Some (st', clock')
      /\ stocked (limiter st') clock' k.
Proof.
  induction addresses as [|x rest IH]; intros st clock k Hs;
    cbn [recheck List.length Nat.add] in *.
  - eauto.
  - destruct (negb (autoMode st)).
    { exists st, clock. split; [reflexivity |].
      eapply stocked_weaken; [| exact Hs]. lia. }
    destruct (checkAndAdd_returns minSol node st clock x _ Hs)
      as (ok & st1 & clock1 & -> & Hs1).
    apply IH. exact Hs1.
Qed.

Lemma fetchRecent_returns minSol node blockhash block st clock k :
  stocked (limiter st) clock (2 + blockKeys block + k) ->
  exists st' clock',
    fetchRecentTransactions minSol node blockhash block st clock
    = Some (st', clock')
    /\ stocked (limiter st') clock' k.
Proof.
  intros Hs. unfold fetchRecentTransactions.
  destruct (negb (autoMode st)).
  { exists st, clock. split; [reflexivity |].
    eapply stocked_weaken; [| exact Hs]. lia. }
  cbn [Nat.add] in Hs.
  destruct (waitForToken_stocked _ _ _ Hs)
    as (rl1 & now1 & later1 & -> & -> & Hs1).
  destruct (negb blockhash).
  { eexists _, _. split; [reflexivity |]. cbn [limiter withLimiter].
    eapply stocked_weaken; [| exact Hs1]. lia. }
  destruct (waitForToken_stocked _ _ _ Hs1)
    as (rl2 & now2 & later2 & -> & -> & Hs2).
  destruct block as [transactions|]; cbn [blockKeys] in Hs2.
  - apply ingestBlock_returns. exact Hs2.
  - eexists _, _. split; [reflexivity |]. exact Hs2.
Qed.

Lemma sampleLimiter_stocked k :
  (k <= 10)%nat -> stocked (limiter (freshState [])) sampleClock k.
Proof.
  intros Hk. apply (stocked_weaken _ _ 10 k Hk). unfold stocked.
  split; [vm_compute; repeat split; discriminate |].
  split; [vm_compute; discriminate |].
  split; [cbn; repeat split; lia |].
  split; [cbn; lia | vm_compute; discriminate].
Qed.

(** X9.  The loop over the account keys of a transaction or
    notification, run with scanning on and a bucket that holds a token for
    each key, returns, and it makes active exactly the addresses it
    should: an address is active afterwards if and only if it was active
    before, or it is one of the keys, is not excluded, and its balance read
    from the node meets the threshold. *)
Theorem ingestKeys_activates minSol node addresses st clock :
  autoMode st = true ->
  stocked (limiter st) clock (List.length addresses) ->
  exists st' clock',
    ingestKeys minSol node st clock addresses = Some (st', clock')
    /\ forall a,
         JSMap.has (activeAddresses st') a = true
         <-> JSMap.has (activeAddresses st) a = true
             \/ (In a addresses /\ ~ In a EXCLUDED_ADDRESSES
                 /\ meetsThreshold minSol node a).
Proof.
  intros Hauto Hs. rewrite <- (Nat.add_0_r (List.length addresses)) in Hs.
  destruct (ingestKeys_returns minSol node addresses st clock 0%nat Hs)
    as (st' & clock' & Hret & _).
  exists st', clock'. split; [exact Hret |].
  exact (ingestKeys_active_iff _ _ _ _ _ _ _ Hret Hauto).
Qed.

Lemma ingestKeys_activates_witness :
  exists st' clock',
    ingestKeys 1 sampleNode (freshState []) sampleClock sampleKeys
    = Some (st', clock')
    /\ forall a,
         JSMap.has (activeAddresses st') a = true
         <-> JSMap.has (activeAddresses (freshState [])) a = true
             \/ (In a sampleKeys /\ ~ In a EXCLUDED_ADDRESSES
                 /\ meetsThreshold 1 sampleNode a).
Proof.
  apply (ingestKeys_activates 1 sampleNode sampleKeys (freshState [])
           sampleClock).
  - reflexivity.
  - apply sampleLimiter_stocked. cbn. lia.
Defined.

Lemma checkAndAdd_grows minSol node st clock a ok st' clock' x :
  checkAndAddAddress minSol node st clock a = Some (ok, st', clock') ->
  JSMap.has (activeAddresses st) x = true ->
  JSMap.has (activeAddresses st') x = true.
Proof.
  intros H Hx. apply checkAndAdd_cases in H.
  destruct H as [[_ [_ [-> _]]]
                | [_ [_ [rl [_ [[b [_ [_ [_ ->]]]] | [_ [_ ->]]]]]]]];
    try assumption.
  state_fields. rewrite JSMapFacts.has_set, Hx. reflexivity.
Qed.

(** What the key loop leaves in the queue was queued before or was not
    active when the loop started; and the active set only grows. *)
Lemma ingestKeys_queue minSol node addresses :
  forall st clock st' clock',
    ingestKeys minSol node st clock addresses = Some (st', clock') ->
    (forall a, In a (addressesToExplore st') ->
       In a (addressesToExplore st)
       \/ JSMap.has (activeAddresses st) a = false)
    /\ (forall a, JSMap.has (activeAddresses st) a = true ->
          JSMap.has (activeAddresses st') a = true).
Proof.
  induction addresses as [|x rest IH]; intros st clock st' clock' H;
    cbn [ingestKeys] in H.
  - inversion H; subst. auto.
  - destruct (JSMap.has (activeAddresses st) x) eqn:Hx; cbn [negb andb] in H;
      [eauto|].
    destruct (negb (JS.includes EXCLUDED_ADDRESSES x)); [|eauto].
    destruct (checkAndAddAddress minSol node st clock x)
      as [[[ok st1] clock1]|] eqn:E; [|discriminate].
    destruct (checkAndAdd_frame _ _ _ _ _ _ _ _ E) as [_ Hq].
    pose proof (fun y => checkAndAdd_grows _ _ _ _ _ _ _ _ y E) as Hgrow.
    destruct (IH _ _ _ _ H) as [H1 H2].
    assert (Hgrow2 : forall y,
               JSMap.has (activeAddresses st) y = true ->
               JSMap.has (activeAddresses
                            (if ok then enqueue st1 x else st1)) y = true).
    { intros y Hy. destruct ok; state_fields; auto. }
    split; [|auto].
    intros a Ha. destruct (H1 a Ha) as [Hin | Hnot].
    + destruct ok; state_fields.
      * apply JSFacts.setAdd_In in Hin. rewrite Hq in Hin.
        destruct Hin as [Hin | ->]; auto.
      * rewrite Hq in Hin. auto.
    + right. destruct (JSMap.has (activeAddresses st) a) eqn:Ea;
        [|reflexivity].
      rewrite (Hgrow2 a Ea) in Hnot. discriminate.
Qed.

Lemma ingestBlock_queue minSol node transactions :
  forall st clock st' clock',
    ingestBlock minSol node st clock transactions = Some (st', clock') ->
    (forall a, In a (addressesToExplore st') ->
       In a (addressesToExplore st)
       \/ JSMap.has (activeAddresses st) a = false)
    /\ (forall a, JSMap.has (activeAddresses st) a = true ->
          JSMap.has (activeAddresses st') a = true).
Proof.
  induction transactions as [|tx rest IH]; intros st clock st' clock' H;
    cbn [ingestBlock] in H.
  - inversion H; subst. auto.
  - destruct (negb (autoMode st)); [inversion H; subst; auto|].
    destruct tx as [| |accountKeys]; [inversion H; subst; auto | eauto |].
    destruct (ingestKeys minSol node st clock accountKeys)
      as [[st1 clock1]|] eqn:E; [|discriminate].
    destruct (ingestKeys_queue _ _ _ _ _ _ _ E) as [Hq1 Hg1].
    destruct (IH _ _ _ _ H) as [Hq2 Hg2].
    split; [|auto].
    intros a Ha. destruct (Hq2 a Ha) as [Hin | Hnot]; [auto|].
    right. destruct (JSMap.has (activeAddresses st) a) eqn:Ea; [|reflexivity].
    rewrite (Hg1 a Ea) in Hnot. discriminate.
Qed.

Lemma recheck_queue minSol node addresses :
  forall st clock st' clock',
    recheck minSol node st clock addresses = Some (st', clock') ->
    addressesToExplore st' = addressesToExplore st
    /\ (forall a, JSMap.has (activeAddresses st) a = true ->
          JSMap.has (activeAddresses st') a = true).
Proof.
  induction addresses as [|x rest IH]; intros st clock st' clock' H;
    cbn [recheck] in H.
  - inversion H; subst. auto.
  - destruct (negb (autoMode st)); [inversion H; subst; auto|].
    destruct (checkAndAddAddress minSol node st clock x)
      as [[[ok st1] clock1]|] eqn:E; [|discriminate].
    destruct (checkAndAdd_frame _ _ _ _ _ _ _ _ E) as [_ Hq].
    destruct (IH _ _ _ _ H) as [H1 H2].
    split; [congruence|].
    intros a Ha. apply H2. eapply checkAndAdd_grows; eauto.
Qed.

(** What a turn of [exploreAddresses] leaves in the queue and in the
    active set. *)
Lemma exploreTurn_queue minSol node node' blockhash block st clock
  st' clock' :
  exploreTurn minSol node node' blockhash block st clock
  = Some (st', clock') ->
  (forall a, In a (addressesToExplore st') ->
     JSMap.has (activeAddresses st) a = false)
  /\ (forall a, JSMap.has (activeAddresses st) a = true ->
        JSMap.has (activeAddresses st') a = true).
Proof.
  unfold exploreTurn.
  destruct (recheck minSol node (clearQueue st) clock (addressesToExplore st))
    as [[st1 clock1]|] eqn:E; [|discriminate].
  destruct (recheck_queue _ _ _ _ _ _ _ E) as [Hq1 Hg1]. state_fields.
  destruct (List.length (addressesToExplore st1) =? 0)%nat.
  2:{ intros H. inversion H; subst. rewrite Hq1.
      split; [intros a []| auto]. }
  destruct (negb (autoMode st1)).
  { intros H. inversion H; subst. rewrite Hq1. split; [intros a []| auto]. }
  unfold fetchRecentTransactions.
  destruct (negb (autoMode st1)).
  { intros H. inversion H; subst. rewrite Hq1. split; [intros a []| auto]. }
  destruct (waitForToken (limiter st1) clock1) as [[rl1 c1]|];
    [|discriminate].
  destruct (negb blockhash).
  { intros H. inversion H; subst. state_fields. rewrite Hq1.
    split; [intros a []| auto]. }
  destruct (waitForToken rl1 c1) as [[rl2 c2]|]; [|discriminate].
  destruct block as [transactions|].
  2:{ intros H. inversion H; subst. state_fields. rewrite Hq1.
      split; [intros a []| auto]. }
  intros H. destruct (ingestBlock_queue _ _ _ _ _ _ _ H) as [Hq2 Hg2].
  state_fields. split; [|auto].
  intros a Ha. destruct (Hq2 a Ha) as [Hin | Hnot].
  - rewrite Hq1 in Hin. destruct Hin.
  - destruct (JSMap.has (activeAddresses st) a) eqn:Ea; [|reflexivity].
    rewrite (Hg1 a Ea) in Hnot. discriminate.
Qed.

(** *** What a re-check does to the entry of an address *)

Lemma has_get_other {V : Type} (m : list (string * V)) (x y : string) :
  JSMap.has m x = false -> JSMap.has m y = true -> x <> y.
Proof. intros Hx Hy ->. congruence. Qed.

(** [checkAndAddAddress(a)] leaves the entries of the other addresses as
    they are, and re-checks the entry of [a]. *)
Lemma checkAndAdd_entries minSol node st clock a ok st' clock' :
  checkAndAddAddress minSol node st clock a = Some (ok, st', clock') ->
  (forall y, y <> a ->
     JSMap.get (activeAddresses st') y = JSMap.get (activeAddresses st) y)
  /\ (autoMode st = true -> ~ In a EXCLUDED_ADDRESSES ->
      rechecked minSol node (activeAddresses st) (activeAddresses st') a).
Proof.
  intros H. apply checkAndAdd_cases in H.
  destruct H as [[Hskip [-> [-> ->]]]
                | [Hauto [Hex [rl [_ [[b [Hb [Hle [-> ->]]]]
                                     | [Hlow [-> ->]]]]]]]].
  - split; [reflexivity |]. intros Hauto Hex.
    destruct Hskip; [congruence | contradiction].
  - state_fields. split.
    + intros y Hy. apply JSMapFacts.get_set_other. congruence.
    + intros _ _. split.
      * intros balance Hbal _. rewrite Hb in Hbal. inversion Hbal; subst.
        apply JSMapFacts.get_set_same.
      * intros Hlow. exfalso. apply Hlow. exists b. auto.
  - state_fields. split; [reflexivity |]. intros _ _. split.
    + intros balance Hbal Hle. exfalso. apply Hlow. exists balance. auto.
    + reflexivity.
Qed.

(** The re-check loop re-checks each address of its list and leaves the
    entries of the other addresses as they are. *)
Lemma recheck_entries minSol node addresses :
  forall st clock st' clock',
    recheck minSol node st clock addresses = Some (st', clock') ->
    autoMode st = true ->
    (forall a, In a addresses -> ~ In a EXCLUDED_ADDRESSES) ->
    (forall a, In a addresses ->
       rechecked minSol node (activeAddresses st) (activeAddresses st') a)
    /\ (forall y, ~ In y addresses ->
          JSMap.get (activeAddresses st') y
          = JSMap.get (activeAddresses st) y).
Proof.
  induction addresses as [|x rest IH]; intros st clock st' clock' H Hauto Hex;
    cbn [recheck] in H.
  - inversion H; subst. split; [intros a [] | reflexivity].
  - rewrite Hauto in H. cbn [negb] in H.
    destruct (checkAndAddAddress minSol node st clock x)
      as [[[ok st1] clock1]|] eqn:E; [|discriminate].
    pose proof (checkAndAdd_autoMode _ _ _ _ _ _ _ _ E) as Hauto1.
    rewrite Hauto in Hauto1.
    destruct (checkAndAdd_entries _ _ _ _ _ _ _ _ E) as [Hother Hsame].
    specialize (Hsame Hauto (Hex x (or_introl eq_refl))).
    destruct (IH _ _ _ _ H Hauto1 (fun a Ha => Hex a (or_intror Ha)))
      as [Hrest Hframe].
    split.
    + intros a Ha.
      destruct (in_dec string_dec a rest) as [Hin | Hout].
      * destruct (Hrest a Hin) as [Hmeets Hlow]. split; [exact Hmeets |].
        intros Hno. rewrite (Hlow Hno).
        destruct (string_dec a x) as [-> | Hne].
        -- apply Hsame. exact Hno.
        -- apply Hother. exact Hne.
      * destruct Ha as [<- | Ha]; [| contradiction].
        destruct Hsame as [Hmeets Hlow]. split.
        -- intros balance Hbal Hle. rewrite (Hframe x Hout). eauto.
        -- intros Hno. rewrite (Hframe x Hout). auto.
    + intros y Hy. rewrite Hframe by (intros Hin; apply Hy; now right).
      apply Hother. intros ->. apply Hy. now left.
Qed.

(** The key loop checks addresses that are not active only: it leaves the
    entries of the active ones as they are. *)
Lemma ingestKeys_entries minSol node addresses :
  forall st clock st' clock',
    ingestKeys minSol node st clock addresses = Some (st', clock') ->
    forall y, JSMap.has (activeAddresses st) y = true ->
      JSMap.get (activeAddresses st') y = JSMap.get (activeAddresses st) y.
Proof.
  induction addresses as [|x rest IH]; intros st clock st' clock' H y Hy;
    cbn [ingestKeys] in H.
  - inversion H; subst. reflexivity.
  - destruct (JSMap.has (activeAddresses st) x) eqn:Hx; cbn [negb andb] in H;
      [eauto |].
    destruct (negb (JS.includes EXCLUDED_ADDRESSES x)); [| eauto].
    destruct (checkAndAddAddress minSol node st clock x)
      as [[[ok st1] clock1]|] eqn:E; [|discriminate].
    destruct (checkAndAdd_entries _ _ _ _ _ _ _ _ E) as [Hother _].
    pose proof (checkAndAdd_grows _ _ _ _ _ _ _ _ y E Hy) as Hy1.
    rewrite (IH _ _ _ _ H y) by (destruct ok; state_fields; exact Hy1).
    destruct ok; state_fields; apply Hother;
      intros ->; congruence.
Qed.

Lemma ingestBlock_entries minSol node transactions :
  forall st clock st' clock',
    ingestBlock minSol node st clock transactions = Some (st', clock') ->
    forall y, JSMap.has (activeAddresses st) y = true ->
      JSMap.get (activeAddresses st') y = JSMap.get (activeAddresses st) y.
Proof.
  induction transactions as [|tx rest IH]; intros st clock st' clock' H y Hy;
    cbn [ingestBlock] in H.
  - inversion H; subst. reflexivity.
  - destruct (negb (autoMode st)); [inversion H; subst; reflexivity |].
    destruct tx as [| |accountKeys];
      [inversion H; subst; reflexivity | eauto |].
    destruct (ingestKeys minSol node st clock accountKeys)
      as [[st1 clock1]|] eqn:E; [|discriminate].
    destruct (ingestKeys_queue _ _ _ _ _ _ _ E) as [_ Hg1].
    rewrite (IH _ _ _ _ H y (Hg1 y Hy)).
    exact (ingestKeys_entries _ _ _ _ _ _ _ E y Hy).
Qed.

Lemma fetchRecent_entries minSol node blockhash block st clock st' clock' :
  fetchRecentTransactions minSol node blockhash block st clock
  = Some (st', clock') ->
  forall y, JSMap.has (activeAddresses st) y = true ->
    JSMap.get (activeAddresses st') y = JSMap.get (activeAddresses st) y.
Proof.
  unfold fetchRecentTransactions.
  destruct (negb (autoMode st)); [intros H; inversion H; subst; reflexivity |].
  destruct (waitForToken (limiter st) clock) as [[rl1 c1]|]; [|discriminate].
  destruct (negb blockhash);
    [intros H; inversion H; subst; reflexivity |].
  destruct (waitForToken rl1 c1) as [[rl2 c2]|]; [|discriminate].
  destruct block as [transactions|];
    [| intros H; inversion H; subst; reflexivity].
  intros H y Hy.
  exact (ingestBlock_entries _ _ _ _ _ _ _ H y Hy).
Qed.

Lemma exploreTurn_returns minSol node node' blockhash block st clock :
  stocked (limiter st) clock
    (List.length (addressesToExplore st) + (2 + blockKeys block)) ->
  exists st' clock',
    exploreTurn minSol node node' blockhash block st clock
    = Some (st', clock').
Proof.
  intros Hs. unfold exploreTurn.
  destruct (recheck_returns minSol node (addressesToExplore st)
              (clearQueue st) clock _ Hs) as (st1 & clock1 & -> & Hs1).
  destruct (List.length (addressesToExplore st1) =? 0)%nat; [| eauto].
  destruct (negb (autoMode st1)); [eauto |].
  rewrite <- (Nat.add_0_r (2 + blockKeys block)) in Hs1.
  destruct (fetchRecent_returns minSol node' blockhash block st1 clock1 0 Hs1)
    as (st' & clock' & Hret & _).
  eauto.
Qed.

Lemma exploreTurn_entries minSol node node' blockhash block st clock
  st' clock' :
  exploreTurn minSol node node' blockhash block st clock
  = Some (st', clock') ->
  autoMode st = true -> consistent st ->
  forall a, In a (addressesToExplore st) ->
    rechecked minSol node (activeAddresses st) (activeAddresses st') a.
Proof.
  unfold exploreTurn. intros H Hauto (_ & Hq & Hex & _) a Ha.
  destruct (recheck minSol node (clearQueue st) clock (addressesToExplore st))
    as [[st1 clock1]|] eqn:E; [|discriminate].
  destruct (recheck_entries _ _ _ _ _ _ _ E Hauto
              (fun x Hx => Hex x (Hq x Hx))) as [Hre _].
  destruct (recheck_queue _ _ _ _ _ _ _ E) as [_ Hg1]. state_fields.
  specialize (Hre a Ha).
  assert (Hkeep : JSMap.get (activeAddresses st') a
                  = JSMap.get (activeAddresses st1) a).
  { destruct (List.length (addressesToExplore st1) =? 0)%nat;
      [| inversion H; subst; reflexivity].
    destruct (negb (autoMode st1)); [inversion H; subst; reflexivity |].
    apply (fetchRecent_entries _ _ _ _ _ _ _ _ H). apply Hg1, Hq, Ha. }
  unfold rechecked in *. rewrite Hkeep. exact Hre.
Qed.

Lemma sampleIngested_consistent : consistent sampleIngested.
Proof.
  apply (ingestKeys_consistent 1 sampleNode sampleKeys (freshState [])
           sampleClock sampleIngested (repeat 0%Z 7)).
  - vm_compute. reflexivity.
  - apply freshState_consistent.
Qed.

(** X20.  A turn of [exploreAddresses], run with no other feed in
    between, with scanning on and a bucket that holds a token for each
    call it makes, returns, and it drains the queue.  Each queued address
    is re-checked: its entry of the active set takes the balance and the
    stamp the node answers when that balance meets the threshold, and is
    left as it was otherwise.  What the queue holds after the turn are
    addresses that were not active when the turn began (those found in the
    block it fetched), and no address that was active is lost from the
    active set. *)
Theorem explore_turn_drains_queue minSol node node' blockhash block st clock :
  autoMode st = true -> consistent st ->
  stocked (limiter st) clock
    (List.length (addressesToExplore st) + (2 + blockKeys block)) ->
  exists st' clock',
    exploreTurn minSol node node' blockhash block st clock
    = Some (st', clock')
    /\ (forall a, In a (addressesToExplore st) ->
          rechecked minSol node (activeAddresses st) (activeAddresses st') a)
    /\ (forall a, In a (addressesToExplore st') ->
          JSMap.has (activeAddresses st) a = false)
    /\ (forall a, JSMap.has (activeAddresses st) a = true ->
          JSMap.has (activeAddresses st') a = true).
Proof.
  intros Hauto Hc Hs.
  destruct (exploreTurn_returns minSol node node' blockhash block st clock Hs)
    as (st' & clock' & Hret).
  exists st', clock'. split; [exact Hret |]. split.
  - exact (exploreTurn_entries _ _ _ _ _ _ _ _ _ Hret Hauto Hc).
  - exact (exploreTurn_queue _ _ _ _ _ _ _ _ _ Hret).
Qed.

(** The turn that follows the ingestion of the sample keys: ["Rich"] is
    queued, and the node now answers 3 SOL for it. *)
Lemma explore_turn_drains_queue_witness :
  exists st' clock',
    exploreTurn 1 laterNode laterNode true (Some [WithKeys ["Poor"%string]])
      sampleIngested sampleClock = Some (st', clock')
    /\ (forall a, In a (addressesToExplore sampleIngested) ->
          rechecked 1 laterNode (activeAddresses sampleIngested)
            (activeAddresses st') a)
    /\ (forall a, In a (addressesToExplore st') ->
          JSMap.has (activeAddresses sampleIngested) a = false)
    /\ (forall a, JSMap.has (activeAddresses sampleIngested) a = true ->
          JSMap.has (activeAddresses st') a = true).
Proof.
  apply (explore_turn_drains_queue 1 laterNode laterNode true
           (Some [WithKeys ["Poor"%string]]) sampleIngested sampleClock).
  - reflexivity.
  - exact sampleIngested_consistent.
  - unfold stocked.
    split; [vm_compute; repeat split; discriminate |].
    split; [vm_compute; discriminate |].
    split; [vm_compute; repeat split; discriminate |].
    split; [vm_compute; repeat constructor | vm_compute; discriminate].
Defined.

(** In that turn the entry of ["Rich"] goes from 2 SOL to 3 SOL. *)
Example recheck_refreshes_entry :
  addressesToExplore sampleIngested = ["Rich"%string]
  /\ option_map balance (JSMap.get (activeAddresses sampleIngested) "Rich")
     = Some (2000000000 / 1000000000)%Q
  /\ match exploreTurn 1 laterNode laterNode true
             (Some [WithKeys ["Poor"%string]]) sampleIngested sampleClock with
     | Some (st', _) =>
         option_map balance (JSMap.get (activeAddresses st') "Rich")
         = Some (3000000000 / 1000000000)%Q
         /\ addressesToExplore st' = []
     | None => False
     end.
Proof. vm_compute. repeat split. Qed.

End IngestionFacts.

(** ** More on target resolution *)

Module ResolverFacts.
Import Transaction TargetDefs.
Import TargetFacts.

Lemma historyKeys_eq ledger activeWallet minSol :
  map publicKey (historyTargets ledger activeWallet minSol)
  = filter (fun a => qualifies minSol (toSol (getBalance ledger a)))
           (historyAddresses ledger activeWallet).
Proof.
  rewrite historyTargets_eq. unfold batchGetBalances.
  induction (historyAddresses ledger activeWallet) as [|a l IH];
    cbn [map filter snd]; [reflexivity|].
  destruct (qualifies minSol (toSol (getBalance ledger a)));
    cbn [map publicKey fst]; now rewrite IH.
Qed.

Lemma historyTargets_In ledger activeWallet minSol t :
  In t (historyTargets ledger activeWallet minSol)
  <-> In (publicKey t) (historyAddresses ledger activeWallet)
      /\ balance t = toSol (getBalance ledger (publicKey t))
      /\ qualifies minSol (balance t) = true.
Proof.
  split; [apply historyTargets_key|].
  intros [Hin [Hbal Hq]]. rewrite historyTargets_eq.
  apply in_map_iff.
  exists (publicKey t, toSol (getBalance ledger (publicKey t))). split.
  - destruct t as [k b]. cbn in *. now subst b.
  - apply filter_In. split.
    + unfold batchGetBalances. apply in_map_iff. eauto.
    + cbn. now rewrite <- Hbal.
Qed.

Lemma firstn_NoDup {A : Type} (n : nat) (l : list A) :
  NoDup l -> NoDup (firstn n l).
Proof.
  intros H. rewrite <- (firstn_skipn n l) in H.
  now apply NoDup_app_remove_r in H.
Qed.

Lemma resolvedTargets_NoDup ledger activeWallet minSol :
  NoDup (map publicKey (resolvedTargets ledger activeWallet minSol)).
Proof.
  rewrite resolvedTargets_eq, map_app, historyKeys_eq.
  apply NoDup_app.
  - apply NoDup_filter, historyAddresses_NoDup.
  - destruct (qualifies _ _); cbn; repeat constructor. intros [].
  - intros a Ha Hact. apply filter_In in Ha. destruct Ha as [Ha _].
    apply historyAddresses_screened in Ha.
    destruct (qualifies _ _); [|destruct Hact].
    destruct Hact as [<- | []]. destruct Ha as [_ [_ Hne]]. now apply Hne.
Qed.

Lemma resolvedTargets_balance ledger activeWallet minSol t :
  In t (resolvedTargets ledger activeWallet minSol) ->
  balance t = toSol (getBalance ledger (publicKey t))
  /\ qualifies minSol (balance t) = true.
Proof.
  rewrite resolvedTargets_eq. intros Hin. apply in_app_iff in Hin.
  destruct Hin as [Hin | Hin].
  - now apply historyTargets_key in Hin.
  - destruct (qualifies minSol (toSol (getBalance ledger activeWallet)))
      eqn:Hq; [|destruct Hin].
    destruct Hin as [<- | []]. cbn. auto.
Qed.

(** X10.  The targets that [getTargets] returns have pairwise distinct
    public keys, and each carries the balance the node reports for it, in
    SOL, which is at least the minimum asked for. *)
Theorem targets_distinct_and_funded settings ledger activeWallet minSol :
  let targets := getTargets settings ledger activeWallet minSol in
  NoDup (map publicKey targets)
  /\ forall t, In t targets ->
       balance t = toSol (getBalance ledger (publicKey t))
       /\ (minSol <= balance t)%Q.
Proof.
  cbv zeta. rewrite getTargets_eq. split.
  - rewrite <- firstn_map. apply firstn_NoDup, resolvedTargets_NoDup.
  - intros t Hin. apply firstn_In in Hin.
    apply resolvedTargets_balance in Hin. destruct Hin as [Hb Hq].
    split; [assumption|]. now apply Qle_bool_iff.
Qed.

Lemma targets_distinct_and_funded_witness :
  balance {| publicKey := "Peer1"; balance := toSol 500000000 |}
  = toSol (getBalance busyLedger "Peer1")
  /\ (1 # 100 <= toSol 500000000)%Q.
Proof.
  refine (proj2 (targets_distinct_and_funded defaultSettings busyLedger
                   "Active" (1 # 100))
                {| publicKey := "Peer1"; balance := toSol 500000000 |} _).
  left. reflexivity.
Defined.

Lemma qualifies_mono m1 m2 b :
  (m1 <= m2)%Q -> qualifies m2 b = true -> qualifies m1 b = true.
Proof.
  unfold qualifies. intros Hle H. apply Qle_bool_iff in H.
  apply Qle_bool_iff. lra.
Qed.

Lemma resolvedTargets_mono ledger activeWallet m1 m2 :
  (m1 <= m2)%Q ->
  incl (resolvedTargets ledger activeWallet m2)
       (resolvedTargets ledger activeWallet m1).
Proof.
  intros Hle t Hin. rewrite resolvedTargets_eq in *.
  apply in_app_iff in Hin. apply in_or_app. destruct Hin as [Hin | Hin].
  - left. apply historyTargets_In in Hin. apply historyTargets_In.
    destruct Hin as [H1 [H2 H3]]. split; [assumption|].
    split; [assumption|]. now apply (qualifies_mono m1 m2).
  - right.
    destruct (qualifies m2 (toSol (getBalance ledger activeWallet))) eqn:Hq;
      [|destruct Hin].
    now rewrite (qualifies_mono m1 m2 _ Hle Hq).
Qed.

(** X11.  Lowering the minimum balance loses no target: on the same
    ledger, every target resolved at a higher minimum is resolved at a
    lower one, and [getTargets] at the lower minimum returns at least as
    many entries.  So the relaxed pass at minimum 0 is never shorter than
    a pass at the configured minimum on the same answers. *)
Theorem lower_minimum_keeps_targets settings ledger activeWallet m1 m2 :
  (m1 <= m2)%Q ->
  incl (resolvedTargets ledger activeWallet m2)
       (resolvedTargets ledger activeWallet m1)
  /\ (List.length (getTargets settings ledger activeWallet m2)
      <= List.length (getTargets settings ledger activeWallet m1))%nat.
Proof.
  intros Hle. pose proof (resolvedTargets_mono ledger activeWallet m1 m2 Hle)
    as Hincl.
  split; [assumption|].
  assert (Hlen : (List.length (resolvedTargets ledger activeWallet m2)
                  <= List.length (resolvedTargets ledger activeWallet m1))%nat).
  { apply NoDup_incl_length; [|assumption].
    apply (NoDup_map_inv publicKey), resolvedTargets_NoDup. }
  rewrite !getTargets_eq, !length_firstn. unfold kept.
  destruct (maxTargets settings <? 0)%Z; lia.
Qed.

Lemma lower_minimum_keeps_targets_witness :
  (List.length (getTargets defaultSettings busyLedger "Active" (1 # 100))
   <= List.length (getTargets defaultSettings busyLedger "Active" 0))%nat.
Proof.
  apply (lower_minimum_keeps_targets defaultSettings busyLedger "Active"
           0 (1 # 100)).
  discriminate.
Defined.

(** Where the retry loop stops: the list reached [maxTargets], or the
    clock reading of that turn is ten seconds or more past the start; and
    the list is the one the loop was entered with or the answer of the
    last [getTargets] call. *)
Lemma searchLoop_stops settings session activeWallet minSol start :
  forall fuel n targets result n',
    searchLoop fuel settings session activeWallet minSol start n targets
    = Some (result, n') ->
    (n <= n')%nat
    /\ ((maxTargets settings <= Z.of_nat (List.length result))%Z
        \/ (10000 <= clock session n' - start)%Z)
    /\ ((n' = n /\ result = targets)
        \/ (n < n' /\ exists k, S k = n'
              /\ result = getTargets settings (ledgerAt session k)
                             activeWallet minSol))%nat.
Proof.
  assert (Hdone : forall n targets result n',
             Some (targets, n) = Some (result, n') ->
             ((maxTargets settings <= Z.of_nat (List.length targets))%Z
              \/ (10000 <= clock session n - start)%Z) ->
             (n <= n')%nat
             /\ ((maxTargets settings <= Z.of_nat (List.length result))%Z
                 \/ (10000 <= clock session n' - start)%Z)
             /\ ((n' = n /\ result = targets)
                 \/ (n < n' /\ exists k, S k = n'
                       /\ result = getTargets settings (ledgerAt session k)
                                      activeWallet minSol))%nat).
  { intros n targets result n' H Hstop. inversion H; subst.
    split; [lia|]. split; [assumption|]. left. auto. }
  induction fuel as [|fuel IH]; intros n targets result n' H;
    cbn [searchLoop] in H;
    destruct (Z.of_nat (List.length targets) <? maxTargets settings)%Z eqn:E1;
    cbn [andb] in H.
  - destruct (clock session n - start <? 10000)%Z eqn:E2; [discriminate|].
    apply Z.ltb_ge in E2. apply Hdone; auto.
  - apply Z.ltb_ge in E1. apply Hdone; auto.
  - destruct (clock session n - start <? 10000)%Z eqn:E2.
    + apply IH in H. destruct H as [Hle [Hstop Hres]].
      split; [lia|]. split; [assumption|]. right. split; [lia|].
      destruct Hres as [[-> ->] | [Hlt Hk]]; [eauto | assumption].
    + apply Z.ltb_ge in E2. apply Hdone; auto.
  - apply Z.ltb_ge in E1. apply Hdone; auto.
Qed.

(** X12.  What [getTargetsWithTimeout] returns is accounted for: either
    a list that reached [maxTargets], returned as resolved at the
    configured minimum; or, only once a clock reading is ten seconds or
    more past the start, the short list itself when the operator declines
    the prompt, and the answer of one more [getTargets] at minimum 0 when
    the operator accepts. *)
Theorem timeout_wrapper_accounted fuel settings session activeWallet minSol
  targets :
  getTargetsWithTimeout fuel settings session activeWallet minSol
  = Some targets ->
  exists k,
    let resolved :=
      getTargets settings (ledgerAt session k) activeWallet minSol in
    ((maxTargets settings <= Z.of_nat (List.length resolved))%Z
     /\ targets = resolved)
    \/ ((Z.of_nat (List.length resolved) < maxTargets settings)%Z
        /\ (10000 <= clock session (S k) - clock session 0)%Z
        /\ targets =
             if lowerMinSol session
             then getTargets settings (ledgerAt session (S k)) activeWallet 0
             else resolved).
Proof.
  unfold getTargetsWithTimeout.
  destruct (searchLoop fuel settings session activeWallet minSol
              (clock session 0) 1
              (getTargets settings (ledgerAt session 0) activeWallet minSol))
    as [[result n']|] eqn:E; [|discriminate].
  apply searchLoop_stops in E. destruct E as [Hle [Hstop Hres]].
  assert (Hk : exists k, S k = n'
               /\ result = getTargets settings (ledgerAt session k)
                              activeWallet minSol).
  { destruct Hres as [[-> ->] | [_ Hk]]; [exists 0%nat; auto | assumption]. }
  destruct Hk as [k [<- Hresult]]. intros Hret. exists k. cbv zeta.
  rewrite <- Hresult.
  destruct (Z.of_nat (List.length result) <? maxTargets settings)%Z eqn:E1.
  - apply Z.ltb_lt in E1. right. split; [assumption|].
    split; [destruct Hstop; [lia | assumption]|].
    destruct (lowerMinSol session); now inversion Hret.
  - apply Z.ltb_ge in E1. left. split; [assumption|].
    now inversion Hret.
Qed.

Lemma timeout_wrapper_accounted_witness :
  exists k,
    let resolved :=
      getTargets defaultSettings (ledgerAt sampleSession k) "Active"
                 (1 # 100) in
    ((maxTargets defaultSettings <= Z.of_nat (List.length resolved))%Z
     /\ getTargets defaultSettings busyLedger "Active" 0 = resolved)
    \/ ((Z.of_nat (List.length resolved) < maxTargets defaultSettings)%Z
        /\ (10000 <= clock sampleSession (S k) - clock sampleSession 0)%Z
        /\ getTargets defaultSettings busyLedger "Active" 0 =
             if lowerMinSol sampleSession
             then getTargets defaultSettings (ledgerAt sampleSession (S k))
                    "Active" 0
             else resolved).
Proof.
  apply (timeout_wrapper_accounted 1 defaultSettings sampleSession "Active"
           (1 # 100)).
  reflexivity.
Defined.

End ResolverFacts.

(** ** The operator's side: funding, log flags and the menu *)

Module OperatorFacts.
Import Transaction DispatchDefs Operator OperatorDefs.
Import DispatchFacts.

Lemma settle_target chain from index t :
  target (fst (settle chain from index t)) = publicKey t.
Proof. unfold settle. now destruct (transfer chain index (publicKey t)). Qed.

Lemma find_settled chain from targets :
  NoDup (map publicKey targets) ->
  forall i k t,
    nth_error targets k = Some t ->
    JS.find (fun result => String.eqb (target result) (publicKey t))
            (map fst (JS.mapFrom (settle chain from) i targets))
    = Some (fst (settle chain from (i + k) t)).
Proof.
  unfold JS.find.
  induction targets as [|t0 targets IH]; intros Hnd i k t Hk;
    [destruct k; discriminate|].
  cbn [map] in Hnd. inversion Hnd as [|? ? Hnot Hnd']; subst.
  cbn [JS.mapFrom map List.find]. rewrite settle_target.
  destruct k as [|k]; cbn [nth_error] in Hk.
  - inversion Hk; subst. rewrite String.eqb_refl, Nat.add_0_r. reflexivity.
  - assert (Hne : String.eqb (publicKey t0) (publicKey t) = false).
    { apply String.eqb_neq. intros Heq. apply Hnot. rewrite Heq.
      apply in_map. eapply nth_error_In. exact Hk. }
    rewrite Hne, Nat.add_succ_r. exact (IH Hnd' (S i) k t Hk).
Qed.

(** X13.  Past the rent-floor test, and for targets with pairwise
    distinct public keys (as [getTargets] returns them), the entry built
    from the outcomes of [sendTransactionsInParallel] lists the targets in
    order and flags each one [sentSuccessful] exactly when its own
    transfer was confirmed.  The entry is built whenever
    [SystemProgram.transfer] encodes the lamport amount. *)
Theorem flags_follow_transfers settings chain atCompletion now mainWallet gk
  activeWallet targets :
  belowRentFloor chain gk = false ->
  NoDup (map publicKey targets) ->
  (encodes chain (transferLamports settings) = true ->
   exists entry,
     dispatchAndLog settings chain atCompletion now mainWallet gk
       activeWallet targets = Some entry)
  /\ forall entry,
       dispatchAndLog settings chain atCompletion now mainWallet gk
         activeWallet targets = Some entry ->
       forall i t, nth_error targets i = Some t ->
         exists logged,
           nth_error (loggedTargets entry) i = Some logged
           /\ targetPublicKey logged = publicKey t
           /\ targetBalance logged = balance t
           /\ (sentSuccessful logged = true
               <-> transfer chain i (publicKey t) = None).
Proof.
  intros Hfloor Hnd. split.
  - intros Henc.
    rewrite (dispatchAndLog_past_floor _ _ _ _ _ _ _ _ Hfloor Henc). eauto.
  - intros entry Hentry i t Hi.
    destruct (encodes chain (transferLamports settings)) eqn:Henc.
    + rewrite (dispatchAndLog_past_floor _ _ _ _ _ _ _ _ Hfloor Henc)
        in Hentry.
      inversion Hentry; subst entry. clear Hentry.
      unfold logTransactionDetails. cbn [loggedTargets].
      rewrite nth_error_map, Hi. cbn [option_map].
      eexists. split; [reflexivity|]. cbn.
      split; [reflexivity|]. split; [reflexivity|].
      unfold sentTo, JS.mapi.
      rewrite (find_settled chain (keypairPublicKey gk) targets Hnd 0 i t Hi).
      cbn [Nat.add]. rewrite orb_false_r. apply settle_success.
    + exfalso. unfold dispatchAndLog in Hentry.
      rewrite (send_thrown _ _ _ _ Hfloor Henc) in Hentry; [discriminate |].
      intros ->. destruct i; discriminate.
Qed.

Lemma flags_follow_transfers_witness :
  exists logged,
    nth_error (loggedTargets sampleEntry) 1 = Some logged
    /\ targetPublicKey logged = "T2"%string
    /\ targetBalance logged = 2
    /\ (sentSuccessful logged = true <-> rejectT2 1 "T2" = None).
Proof.
  refine (proj2 (flags_follow_transfers sampleSettings fundedChain fundedChain
                   "now" "Main" sampleKeypair "Active" sampleTargets _ _)
            sampleEntry _ 1%nat {| publicKey := "T2"; balance := 2 |} _).
  - reflexivity.
  - repeat constructor; cbn; intuition discriminate.
  - vm_compute. reflexivity.
  - reflexivity.
Defined.

Lemma Qceiling_le_iff (x : Q) (n : Z) :
  (Qceiling x <= n)%Z <-> (x <= inject_Z n)%Q.
Proof.
  split; intros H.
  - apply Qle_trans with (inject_Z (Qceiling x)); [apply Qle_ceiling|].
    now rewrite <- Zle_Qle.
  - rewrite <- (Qceiling_Z n). now apply Qceiling_resp_le.
Qed.

Lemma toSol_below_floor (lamports : Z) :
  (toSol lamports < minBalanceForRent)%Q <-> (lamports < 2039280)%Z.
Proof.
  unfold toSol, minBalanceForRent, LAMPORTS_PER_SOL.
  assert (Heq : (inject_Z lamports / inject_Z 1000000000
                 == inject_Z lamports * (1 # 1000000000))%Q) by reflexivity.
  rewrite Heq. rewrite Zlt_Qlt.
  assert (Hc : (inject_Z 2039280 == 2039280)%Q) by reflexivity.
  rewrite Hc. split; intros H; lra.
Qed.

Lemma belowRentFloor_lamports chain gk lamports :
  balanceOf chain (keypairPublicKey gk) = Some lamports ->
  belowRentFloor chain gk = true <-> (lamports < 2039280)%Z.
Proof.
  intros Hbal. rewrite belowRentFloor_iff.
  unfold fetchGeneratedWalletBalance, fetchWalletBalance. rewrite Hbal.
  cbn [toNumber]. apply toSol_below_floor.
Qed.

(** The number that [Math.ceil] rounds up in [totalAmount] is the exact
    funding, [amountToSend] per target plus 0.002 SOL in lamports, up to
    four roundings. *)
Lemma funding_bounds (settings : Settings) (targets : list Target) :
  (0 <= amountToSend settings)%Q ->
  let exact :=
    ((amountToSend settings * inject_Z (Z.of_nat (List.length targets))
      + (2 # 1000)) * inject_Z LAMPORTS_PER_SOL)%Q in
  let computed :=
    Double.mul
      (Double.add
         (Double.mul (Double.round (amountToSend settings))
                     (inject_Z (Z.of_nat (List.length targets))))
         (Double.round (2 # 1000)))
      (inject_Z LAMPORTS_PER_SOL) in
  (exact * (1 - 5 * Double.eps) <= computed
   /\ computed <= exact * (1 + 5 * Double.eps))%Q.
Proof.
  intros Ha. cbv zeta. unfold Double.mul, Double.add, LAMPORTS_PER_SOL.
  destruct (DoubleFacts.round_error_nonneg _ Ha) as [L0 U0].
  pose proof (DoubleFacts.round_nonneg _ Ha) as P0.
  set (a := amountToSend settings) in *.
  set (a' := Double.round a) in *.
  assert (Hn : (0 <= inject_Z (Z.of_nat (List.length targets)))%Q).
  { change 0%Q with (inject_Z 0). rewrite <- Zle_Qle. lia. }
  set (n := inject_Z (Z.of_nat (List.length targets))) in *.
  assert (Hy : (0 <= a' * n)%Q) by (apply Qmult_le_0_compat; assumption).
  assert (Hy0 : (0 <= a * n)%Q) by (apply Qmult_le_0_compat; assumption).
  assert (L0n : (a * n * (1 - Double.eps) <= a' * n)%Q).
  { assert (E : (a * n * (1 - Double.eps) == a * (1 - Double.eps) * n)%Q)
      by ring.
    rewrite E. apply Qmult_le_compat_r; assumption. }
  assert (U0n : (a' * n <= a * n * (1 + Double.eps))%Q).
  { assert (E : (a * n * (1 + Double.eps) == a * (1 + Double.eps) * n)%Q)
      by ring.
    rewrite E. apply Qmult_le_compat_r; assumption. }
  destruct (DoubleFacts.round_error_nonneg (a' * n) Hy) as [L1 U1].
  pose proof (DoubleFacts.round_nonneg (a' * n) Hy) as P1.
  destruct (DoubleFacts.round_error_nonneg (2 # 1000)) as [Lc Uc];
    [discriminate |].
  set (x1 := Double.round (a' * n)) in *.
  set (c := Double.round (2 # 1000)) in *.
  assert (Hs : (0 <= x1 + c)%Q) by (unfold Double.eps in *; lra).
  destruct (DoubleFacts.round_error_nonneg (x1 + c) Hs) as [L2 U2].
  pose proof (DoubleFacts.round_nonneg (x1 + c) Hs) as P2.
  set (x2 := Double.round (x1 + c)) in *.
  assert (Hp : (0 <= x2 * inject_Z 1000000000)%Q).
  { apply Qmult_le_0_compat; [exact P2 | discriminate]. }
  destruct (DoubleFacts.round_error_nonneg _ Hp) as [L3 U3].
  set (x3 := Double.round (x2 * inject_Z 1000000000)) in *.
  change (inject_Z 1000000000) with 1000000000%Q in *.
  set (y := (a * n)%Q) in *. set (y' := (a' * n)%Q) in *.
  clearbody x3 x2 x1 c y y'. clear L0 U0 P0.
  unfold Double.eps in *. split; lra.
Qed.

(** At 39279 lamports of transfers the roundings decide: three
    transfers of 0.000013093 SOL add up to 39279 lamports, which the
    exact sum would fund with 2039279 lamports, short of the rent floor;
    they are funded with 2039280 lamports, which passes it. *)
Example funding_at_the_floor :
  let settings := amountOf (13093 # 1000000000) in
  (amountToSend settings * 3 * 1000000000 == 39279)%Q
  /\ totalAmount settings sampleTargets = 2039280%Z
  /\ belowRentFloor (fundedWith (totalAmount settings sampleTargets))
       sampleKeypair = false.
Proof. cbv zeta. split; [| split]; vm_compute; reflexivity. Qed.

(** X14.  The funding of [viewTargets], [amountToSend] per target plus
    0.002 SOL rounded up to a lamport, is below the rent floor of
    0.00203928 SOL on its own: a dispatch wallet that holds exactly the
    funding fails the rent-floor test of [sendTransactionsInParallel] when
    the transfers add up to less than 39279 lamports, and passes it when
    they add up to more (a millionth of a lamport away from 39279 the
    roundings no longer matter). *)
Theorem funding_against_rent_floor settings chain gk targets :
  balanceOf chain (keypairPublicKey gk) = Some (totalAmount settings targets) ->
  (0 <= amountToSend settings)%Q ->
  let transfers :=
    (amountToSend settings * inject_Z (Z.of_nat (List.length targets))
     * inject_Z LAMPORTS_PER_SOL)%Q in
  ((transfers <= 39279 - (1 # 1000000))%Q -> belowRentFloor chain gk = true)
  /\ ((39279 + (1 # 1000000) <= transfers)%Q ->
      belowRentFloor chain gk = false).
Proof.
  intros Hbal Ha transfers.
  pose proof (funding_bounds settings targets Ha) as Hb. cbv zeta in Hb.
  pose proof (belowRentFloor_lamports chain gk _ Hbal) as Hiff.
  unfold totalAmount in Hiff.
  set (computed := Double.mul _ _) in *.
  assert (Hz : forall z, (z < 2039280 <-> z <= 2039279)%Z) by (intros; lia).
  rewrite Hz, Qceiling_le_iff in Hiff.
  assert (Hc : (inject_Z 2039279 == 2039279)%Q) by reflexivity.
  rewrite Hc in Hiff.
  assert (Hexact : ((amountToSend settings
                     * inject_Z (Z.of_nat (List.length targets))
                     + (2 # 1000)) * inject_Z LAMPORTS_PER_SOL
                    == transfers + 2000000)%Q).
  { unfold transfers, LAMPORTS_PER_SOL.
    change (inject_Z 1000000000) with 1000000000%Q. ring. }
  rewrite Hexact in Hb. destruct Hb as [L U].
  assert (Ht : (0 <= transfers)%Q).
  { unfold transfers. apply Qmult_le_0_compat; [| discriminate].
    apply Qmult_le_0_compat; [exact Ha |].
    change 0%Q with (inject_Z 0). rewrite <- Zle_Qle. lia. }
  clearbody computed transfers. unfold Double.eps in *.
  split; intros H.
  - apply Hiff. lra.
  - destruct (belowRentFloor chain gk); [| reflexivity].
    assert (computed <= 2039279)%Q by (apply Hiff; reflexivity). lra.
Qed.

Lemma funding_against_rent_floor_witness :
  belowRentFloor (fundedWith (totalAmount sampleSettings sampleTargets))
    sampleKeypair = false.
Proof.
  refine (proj2 (funding_against_rent_floor sampleSettings
                   (fundedWith (totalAmount sampleSettings sampleTargets))
                   sampleKeypair sampleTargets _ _) _).
  - reflexivity.
  - vm_compute. discriminate.
  - vm_compute. discriminate.
Defined.

Lemma selectedPair_first set selected r :
  selectedPair set selected = Some r <->
  exists before after,
    set = before ++ r :: after
    /\ Generation.generatedPublicKey r = selected
    /\ forall x, In x before -> Generation.generatedPublicKey x <> selected.
Proof.
  unfold selectedPair, JS.find.
  induction set as [|x set IH]; cbn [List.find].
  - split; [discriminate|]. intros [before [after [H _]]].
    destruct before; discriminate.
  - destruct (String.eqb (Generation.generatedPublicKey x) selected) eqn:E.
    + apply String.eqb_eq in E. split.
      * intros H. inversion H; subst. exists [], set.
        split; [reflexivity|]. split; [reflexivity | intros y []].
      * intros [before [after [Hset [Hkey Hnone]]]].
        destruct before as [|b before]; cbn in Hset; inversion Hset; subst.
        -- reflexivity.
        -- exfalso. apply (Hnone b); [now left | reflexivity].
    + apply String.eqb_neq in E. rewrite IH. split.
      * intros [before [after [-> [Hkey Hnone]]]].
        exists (x :: before), after. split; [reflexivity|].
        split; [assumption|]. intros y [<- | Hy]; auto.
      * intros [before [after [Hset [Hkey Hnone]]]].
        destruct before as [|b before]; cbn in Hset; inversion Hset; subst.
        -- contradiction.
        -- exists before, after. split; [reflexivity|].
           split; [reflexivity|]. intros y Hy. apply Hnone. now right.
Qed.

(** The second entry of the menu built from [twinMatches] carries the
    same value as the first, and selecting it dispatches for the first
    record, of the other active address. *)
Example menu_twin_entries :
  choiceValues twinMatches = ["ABCDgggg"; "ABCDgggg"]%string
  /\ map Generation.activeAddress twinMatches
     = ["ABCD1111"; "ABCD2222"]%string
  /\ option_map Generation.activeAddress
       (selectedPair twinMatches "ABCDgggg") = Some "ABCD1111"%string.
Proof. repeat split. Qed.

(** X15.  [sendTransactionMenu] looks the selected entry up by its
    generated public key alone: the record it dispatches is the first one
    of the match set with that key.  It is the record of the chosen menu
    entry when no two records share a generated key; when an earlier
    record has the same generated key (another active address matching
    the same keypair), that earlier record is dispatched instead. *)
Theorem menu_selects_first_with_key set i r :
  nth_error set i = Some r ->
  exists j r',
    (j <= i)%nat /\ nth_error set j = Some r'
    /\ selectedPair set (Generation.generatedPublicKey r) = Some r'
    /\ Generation.generatedPublicKey r' = Generation.generatedPublicKey r
    /\ (forall k x, (k < j)%nat -> nth_error set k = Some x ->
          Generation.generatedPublicKey x <> Generation.generatedPublicKey r)
    /\ (NoDup (choiceValues set) -> j = i /\ r' = r).
Proof.
  revert i. induction set as [|x set IH]; intros i Hi;
    [destruct i; discriminate|].
  unfold selectedPair, JS.find. cbn [List.find].
  destruct (String.eqb (Generation.generatedPublicKey x)
                       (Generation.generatedPublicKey r)) eqn:E.
  - apply String.eqb_eq in E. exists 0%nat, x.
    split; [lia|]. split; [reflexivity|]. split; [reflexivity|].
    split; [assumption|]. split; [intros k y Hk; lia|].
    intros Hnd. destruct i as [|i]; [cbn in Hi; inversion Hi; auto|].
    exfalso. cbn in Hnd, Hi. inversion Hnd as [|? ? Hnot _]; subst.
    apply Hnot. rewrite E. apply in_map. eapply nth_error_In. exact Hi.
  - apply String.eqb_neq in E. destruct i as [|i]; cbn in Hi.
    + inversion Hi; subst. contradiction.
    + destruct (IH i Hi) as [j [r' [Hle [Hj [Hsel [Hkey [Hfirst Huniq]]]]]]].
      exists (S j), r'. split; [lia|]. split; [exact Hj|].
      split; [exact Hsel|]. split; [assumption|]. split.
      * intros k y Hk Hy. destruct k as [|k]; cbn in Hy.
        -- inversion Hy; subst. assumption.
        -- apply (Hfirst k y); [lia | assumption].
      * intros Hnd. cbn in Hnd. inversion Hnd; subst.
        destruct (Huniq ltac:(assumption)) as [-> ->]. auto.
Qed.

Lemma menu_selects_first_with_key_witness :
  exists j r',
    (j <= 1)%nat /\ nth_error twinMatches j = Some r'
    /\ selectedPair twinMatches "ABCDgggg" = Some r'
    /\ Generation.generatedPublicKey r' = "ABCDgggg"%string
    /\ (forall k x, (k < j)%nat -> nth_error twinMatches k = Some x ->
          Generation.generatedPublicKey x <> "ABCDgggg"%string)
    /\ (NoDup (choiceValues twinMatches) ->
        j = 1%nat
        /\ r' = GenerationDefs.recordFor "ABCD2222" 7 "t1"
                  (GenerationDefs.keypairOf "ABCDgggg")).
Proof.
  refine (menu_selects_first_with_key twinMatches 1
            (GenerationDefs.recordFor "ABCD2222" 7 "t1"
               (GenerationDefs.keypairOf "ABCDgggg")) _).
  reflexivity.
Defined.

End OperatorFacts.

(** ** data.js *)

Module DataFacts.
Import Generation Data DataDefs.

Lemma entry_row_entry (entry : string * ActiveInfo) :
  entryOfRow (rowOfEntry entry) = entry.
Proof. destruct entry as [k [b a]]. reflexivity. Qed.

Lemma rows_roundtrip (m : ActiveSet) :
  NoDup (map fst m) ->
  JSMap.fromEntries (map entryOfRow (map rowOfEntry m)) = m.
Proof.
  intros Hnd. rewrite map_map.
  rewrite (map_ext _ (fun e => e) entry_row_entry), map_id.
  now apply JSMapFacts.fromEntries_id.
Qed.

Lemma pool_roundtrip (pool : Pool) :
  NoDup (map fst pool) ->
  (forall entry, In entry pool -> publicKey (snd entry) = fst entry) ->
  JSMap.fromEntries (map (fun obj => (publicKey obj, obj)) (map snd pool))
  = pool.
Proof.
  intros Hnd Hkeyed. rewrite map_map.
  assert (Heq : map (fun entry : string * KeypairData =>
                       (publicKey (snd entry), snd entry)) pool = pool).
  { clear Hnd. induction pool as [|[k kd] pool IH]; [reflexivity|].
    cbn [map snd]. rewrite IH.
    - specialize (Hkeyed (k, kd) (or_introl eq_refl)). cbn in Hkeyed.
      now rewrite Hkeyed.
    - intros entry Hin. apply Hkeyed. now right. }
  rewrite Heq. now apply JSMapFacts.fromEntries_id.
Qed.

(** X16.  Saving and loading is a round trip: a store whose maps hold
    each key once and whose pool holds each keypair under its public key
    is what [loadExistingData] reads back after the four collections are
    saved, entry for entry and in the same order. *)
Theorem save_load_roundtrip store files :
  wellKeyed store ->
  loadExistingData (saveAll store files) = store.
Proof.
  intros [Ha [Hp [Hk Ht]]]. destruct store as [active pool similar target].
  unfold loadExistingData, saveAll, saveTargetAddresses,
    saveSimilarAddresses, saveGeneratedKeypairs, saveActiveAddresses.
  cbn [activeAddresses generatedKeypairs similarAddresses targetAddresses
       activeFile generatedFile similarFile targetFile] in *.
  rewrite (rows_roundtrip active Ha), (rows_roundtrip target Ht),
    (pool_roundtrip pool Hp Hk).
  reflexivity.
Qed.

Lemma save_load_roundtrip_witness :
  loadExistingData (saveAll sampleStore emptyFiles) = sampleStore.
Proof.
  apply (save_load_roundtrip sampleStore emptyFiles).
  unfold wellKeyed. cbn.
  split; [repeat constructor; intros []|].
  split; [repeat constructor; intros []|].
  split; [intros entry [<- | []]; reflexivity|].
  repeat constructor. intros [].
Defined.

(** X17.  The snapshot that [getTargets] writes does not hold the
    targets it resolved: [saveTargetAddresses] takes no argument, so the
    target file receives the entries of the [targetAddresses] map
    whatever list is passed, and after the [clearTargetAddresses] of
    [viewTargets] it is the empty array, for every resolution that
    follows. *)
Theorem target_snapshot_ignores_targets store files
  (resolutions : list (list Transaction.Target)) :
  let cleared := clearTargetAddresses store files in
  let files' := fold_left (persistTargets (fst cleared)) resolutions
                  (snd cleared) in
  targetFile files' = []
  /\ activeFile files' = activeFile files
  /\ generatedFile files' = generatedFile files
  /\ similarFile files' = similarFile files
  /\ forall targets,
       targetFile (persistTargets store files targets)
       = map rowOfEntry (targetAddresses store).
Proof.
  cbv zeta.
  assert (H : forall fs,
             targetFile fs = [] ->
             let fs' := fold_left
                          (persistTargets (fst (clearTargetAddresses store
                                                  files)))
                          resolutions fs in
             targetFile fs' = [] /\ activeFile fs' = activeFile fs
             /\ generatedFile fs' = generatedFile fs
             /\ similarFile fs' = similarFile fs).
  { induction resolutions as [|targets rest IH]; intros fs Hfs;
      cbn [fold_left]; [auto|].
    destruct (IH (persistTargets (fst (clearTargetAddresses store files))
                    fs targets) eq_refl) as [H1 [H2 [H3 H4]]].
    auto. }
  destruct (H (snd (clearTargetAddresses store files)) eq_refl)
    as [H1 [H2 [H3 H4]]].
  repeat split; auto.
Qed.

End DataFacts.

(** ** logger.js *)

Module LoggerFacts.
Import Logger LoggerDefs.

Lemma step_bounded st e :
  (List.length (logs st) <= MAX_LOGS)%nat ->
  (List.length (logs st) <= timers st)%nat ->
  (List.length (logs (step st e)) <= MAX_LOGS)%nat
  /\ (List.length (logs (step st e)) <= timers (step st e))%nat.
Proof.
  intros Hmax Htim. unfold MAX_LOGS in *.
  destruct e as [level message time| |verbose]; cbn [step].
  - unfold log. destruct (negb (verboseLogging st) && isInfo level);
      [auto|].
    cbn [logs timers]. rewrite length_app. cbn [List.length].
    destruct (MAX_LOGS <? List.length (logs st) + 1)%nat eqn:E;
      unfold MAX_LOGS in E.
    + unfold shift.
      destruct (logs st ++ _) eqn:Epush.
      * cbn. lia.
      * assert (Hlen : List.length (l :: l0)
                       = (List.length (logs st) + 1)%nat)
          by (rewrite <- Epush, length_app; reflexivity).
        cbn [tl]. cbn in Hlen. lia.
    + apply Nat.ltb_ge in E. rewrite length_app. cbn. lia.
  - unfold fade. destruct (timers st) as [|pending] eqn:Et; [lia|].
    cbn [logs timers]. unfold shift. destruct (logs st); cbn in *; lia.
  - cbn. lia.
Qed.

Lemma after_bounded events :
  forall st,
    (List.length (logs st) <= MAX_LOGS)%nat ->
    (List.length (logs st) <= timers st)%nat ->
    (List.length (logs (fold_left step events st)) <= MAX_LOGS)%nat
    /\ (List.length (logs (fold_left step events st))
        <= timers (fold_left step events st))%nat.
Proof.
  induction events as [|e events IH]; intros st H1 H2; cbn [fold_left];
    [auto|].
  destruct (step_bounded st e H1 H2). now apply IH.
Qed.

Lemma fadeAll_empties n :
  forall st, timers st = n -> (List.length (logs st) <= n)%nat ->
    logs (fadeAll n st) = [] /\ timers (fadeAll n st) = 0%nat.
Proof.
  induction n as [|n IH]; intros st Ht Hlen; cbn [fadeAll].
  - split; [|assumption]. destruct (logs st); [reflexivity | cbn in Hlen; lia].
  - apply IH; unfold fade; rewrite Ht; cbn [logs timers]; [reflexivity|].
    unfold shift. destruct (logs st); cbn in *; lia.
Qed.

(** X18.  Whatever is logged, configured and faded, the [logs] buffer
    never holds more than [MAX_LOGS] = 50 lines, and never more lines
    than there are fade timers pending: once the pending timers have
    fired the buffer is empty. *)
Theorem log_buffer_bounded (events : list Event) :
  let st := after events in
  (List.length (logs st) <= 50)%nat
  /\ (List.length (logs st) <= timers st)%nat
  /\ logs (fadeAll (timers st) st) = [].
Proof.
  cbv zeta. unfold after.
  destruct (after_bounded events initial) as [H1 H2]; [cbn; lia | cbn; lia|].
  split; [exact H1|]. split; [exact H2|].
  now apply fadeAll_empties.
Qed.

End LoggerFacts.
